(** * ggLang runtime: the mark-and-sweep collector of [runtime/gg_runtime.c]

    A shallow embedding of the garbage collector of the ggLang runtime
    (the [#ifndef GG_NO_GC] part of [gg_runtime.c], with the declarations of
    [gg_runtime.h]) and the proofs of its registry invariants.

    Conventions of the embedding.
    - The target is a 64-bit ABI: [size_t] and pointers are 64-bit words,
      [sizeof(gg_gc_header)] is 24 and the size of a pointer is 8.  A [size_t] is
      a [Z] and every arithmetic result of that type is reduced by [wrap].
    - A pointer is a [Z]; [NULL] is [0].
    - The intrusive list that starts at [gg_gc.heap] and follows [next] is
      the Rocq list [heap]: one record per header, in chain order, holding
      the address of the header and its [size] and [marked] fields.
    - Payload bytes and the mutator's root slots live in [mem], which gives
      the pointer-sized word stored at an address.
    - What the runtime does to its host is recorded in the world: the
      arguments of the calls to [free] and the texts written to [stderr]. *)

From Stdlib Require Import ZArith Lia.
From stdpp Require Import relations list strings pretty.

Local Open Scope Z_scope.

(** ** Machine parameters and constants of [gg_runtime.h] *)

Definition SIZE_MOD : Z := 2 ^ 64.

(** Reduction of an arithmetic result to [size_t] (also used for pointer
    arithmetic). *)
Definition wrap (x : Z) : Z := x mod SIZE_MOD.

Definition sizeof_header : Z := 24.
Definition sizeof_ptr : Z := 8.

Definition GG_GC_INITIAL_THRESHOLD : Z := 1024.
Definition GG_GC_MAX_ROOTS : Z := 4096.

(** ** Data model *)

(** [struct gg_gc_header], seen from the list: [addr] is the address of the
    header itself, [next] is the address of the record that follows in the
    list. *)
Record gg_gc_header := Header {
  addr : Z;
  size : Z;
  marked : Z
}.

(** [gg_gc_state], the process-wide registry. *)
Record gg_gc_state := Registry {
  heap : list gg_gc_header;
  roots : list Z;
  root_count : Z;
  alloc_count : Z;
  threshold : Z;
  total_allocated : Z;
  total_collected : Z;
  collections : Z;
  memory_limit : Z
}.

(** The registry together with the part of the host it touches. *)
Record world := World {
  gc : gg_gc_state;
  mem : Z -> Z;
  freed : list Z;
  stderr : list string
}.

(** How a call that may terminate the process ends. *)
Inductive outcome :=
| Returned (p : Z) (w : world)
| Exited (code : Z) (w : world).

Definition set_gc (g : gg_gc_state) (w : world) : world :=
  World g (mem w) (freed w) (stderr w).

Definition set_heap (hp : list gg_gc_header) (g : gg_gc_state) : gg_gc_state :=
  Registry hp (roots g) (root_count g) (alloc_count g) (threshold g)
           (total_allocated g) (total_collected g) (collections g)
           (memory_limit g).

Definition fprintf_stderr (s : string) (w : world) : world :=
  World (gc w) (mem w) (freed w) (stderr w ++ [s]).

Definition host_free (p : Z) (w : world) : world :=
  World (gc w) (mem w) (freed w ++ [p]) (stderr w).

(** The word read through a [void**] at address [a]. *)
Definition load (m : Z -> Z) (a : Z) : Z := wrap (m a).

(** The registered roots: [roots[0 .. root_count-1]]. *)
Definition active_roots (g : gg_gc_state) : list Z :=
  take (Z.to_nat (root_count g)) (roots g).

(** The first [size / 8] pointer-sized words of the payload of the object whose header is [o]. *)
Definition body_words (m : Z -> Z) (o : gg_gc_header) : list Z :=
  map (fun i : nat => load m (addr o + sizeof_header + sizeof_ptr * Z.of_nat i))
      (seq 0 (Z.to_nat (size o / sizeof_ptr))).

Definition nl : string := String (Ascii.ascii_of_nat 10) EmptyString.

(** ** Lifecycle: [gg_gc_init], [gg_gc_shutdown] *)

Definition init_registry : gg_gc_state :=
  Registry [] (replicate (Z.to_nat GG_GC_MAX_ROOTS) 0) 0 0
           GG_GC_INITIAL_THRESHOLD 0 0 0 0.

Definition gg_gc_init (w : world) : world := set_gc init_registry w.

(** The loop of [gg_gc_shutdown]: every header is added to
    [total_collected] and released. *)
Fixpoint shutdown_loop (hp : list gg_gc_header) (tc : Z) (fr : list Z)
  : Z * list Z :=
  match hp with
  | [] => (tc, fr)
  | obj :: next => shutdown_loop next (wrap (tc + size obj)) (fr ++ [addr obj])
  end.

Definition gg_gc_shutdown (w : world) : world :=
  let g := gc w in
  let '(tc, fr) := shutdown_loop (heap g) (total_collected g) (freed w) in
  World (Registry [] (roots g) 0 0 (threshold g) 0 tc (collections g)
                  (memory_limit g))
        (mem w) fr (stderr w).

(** ** Root set: [gg_gc_add_root] *)

Definition root_overflow_warning : string :=
  "[ggLang GC] Warning: root set overflow, ignoring root" +:+ nl.

Definition gg_gc_add_root (root_ptr : Z) (w : world) : world :=
  let g := gc w in
  if GG_GC_MAX_ROOTS <=? root_count g then
    fprintf_stderr root_overflow_warning w
  else
    set_gc (Registry (heap g) (<[Z.to_nat (root_count g) := root_ptr]> (roots g))
                     (root_count g + 1) (alloc_count g) (threshold g)
                     (total_allocated g) (total_collected g) (collections g)
                     (memory_limit g)) w.

(** ** Pointer resolution: [gg_gc_find_header] *)

(** The first header of the list at address [a]. *)
Definition header_at (a : Z) (hp : list gg_gc_header) : option gg_gc_header :=
  find (fun obj => addr obj =? a) hp.

Definition gg_gc_find_header (hp : list gg_gc_header) (ptr : Z) : option Z :=
  if ptr =? 0 then None
  else
    let candidate := wrap (ptr - sizeof_header) in
    match header_at candidate hp with
    | Some obj => Some (addr obj)
    | None => None
    end.

(** ** Mark phase: [gg_gc_mark_object], [gg_gc_mark] *)

(** [header->marked = v] for the header at address [h]. *)
Definition set_marked (h v : Z) (hp : list gg_gc_header) : list gg_gc_header :=
  map (fun obj => if addr obj =? h then Header (addr obj) (size obj) v else obj) hp.

(** [header->marked] for the header at address [h]. *)
Definition marked_at (h : Z) (hp : list gg_gc_header) : Z :=
  match header_at h hp with
  | Some obj => marked obj
  | None => 0
  end.

(** The state of a mark phase: the list with its mark bits, and the log of
    the headers whose body the scan loop was entered for, in order. *)
Definition mark_state : Type := list gg_gc_header * list Z.

(** The [for] loop of [gg_gc_mark_object] over the words of a body;
    [recurse] is the recursive call. *)
Fixpoint scan_body (recurse : Z -> mark_state -> option mark_state)
         (words : list Z) (s : mark_state) : option mark_state :=
  match words with
  | [] => Some s
  | candidate :: rest =>
    let after :=
      if candidate =? 0 then Some s
      else match gg_gc_find_header (fst s) candidate with
           | Some target =>
             if marked_at target (fst s) =? 0 then recurse target s else Some s
           | None => Some s
           end in
    match after with
    | Some s' => scan_body recurse rest s'
    | None => None
    end
  end.

(** [gg_gc_mark_object]. The recursion of the source runs on the C stack;
    [depth] is the number of nested scanning frames still available, and
    [None] means that the recursion needed more.  The callers pass what
    [gg_gc_find_header] returned, so [header] is the address of a header of
    the list and its [marked] field is read there. *)
Fixpoint gg_gc_mark_object (depth : nat) (m : Z -> Z) (header : Z)
         (s : mark_state) : option mark_state :=
  if header =? 0 then Some s
  else match header_at header (fst s) with
       | None => Some s
       | Some obj =>
         if negb (marked obj =? 0) then Some s
         else match depth with
              | O => None
              | S d =>
                scan_body (gg_gc_mark_object d m) (body_words m obj)
                          (set_marked header 1 (fst s), snd s ++ [header])
              end
       end.

(** The loop of [gg_gc_mark] over the registered roots. *)
Fixpoint mark_roots (depth : nat) (m : Z -> Z) (rs : list Z) (s : mark_state)
  : option mark_state :=
  match rs with
  | [] => Some s
  | root_ptr :: rest =>
    let after :=
      if root_ptr =? 0 then Some s
      else
        let obj_ptr := load m root_ptr in
        if obj_ptr =? 0 then Some s
        else match gg_gc_find_header (fst s) obj_ptr with
             | Some header => gg_gc_mark_object depth m header s
             | None => Some s
             end in
    match after with
    | Some s' => mark_roots depth m rest s'
    | None => None
    end
  end.

Definition gg_gc_mark_depth (depth : nat) (w : world) : option mark_state :=
  mark_roots depth (mem w) (active_roots (gc w)) (heap (gc w), []).

(** [gg_gc_mark]: the mark phase with a stack as deep as the list is long,
    which [gg_gc_mark_depth_enough] below shows to be always sufficient. *)
Definition gg_gc_mark (w : world) : world :=
  match gg_gc_mark_depth (length (heap (gc w))) w with
  | Some s => set_gc (set_heap (fst s) (gc w)) w
  | None => w
  end.

(** ** Sweep phase: [gg_gc_sweep] *)

(** The loop of [gg_gc_sweep], from the link that holds the first header of
    [hp]: it gives the list that stays linked there, the two byte counters
    and the calls to [free]. *)
Fixpoint sweep_loop (hp : list gg_gc_header) (ta tc : Z) (fr : list Z)
  : list gg_gc_header * (Z * Z * list Z) :=
  match hp with
  | [] => ([], (ta, tc, fr))
  | obj :: next =>
    if marked obj =? 0 then
      sweep_loop next (wrap (ta - size obj)) (wrap (tc + size obj))
                 (fr ++ [addr obj])
    else
      let '(kept, counters) := sweep_loop next ta tc fr in
      (Header (addr obj) (size obj) 0 :: kept, counters)
  end.

Definition gg_gc_sweep (w : world) : world :=
  let g := gc w in
  let '(kept, (ta, tc, fr)) :=
    sweep_loop (heap g) (total_allocated g) (total_collected g) (freed w) in
  World (Registry kept (roots g) (root_count g) (alloc_count g) (threshold g)
                  ta tc (collections g) (memory_limit g))
        (mem w) fr (stderr w).

(** ** A collection cycle: [gg_gc_collect] *)

(** The counting loop [while (obj) { live_count++; obj = obj->next; }]. *)
Fixpoint count_live (hp : list gg_gc_header) (live_count : Z) : Z :=
  match hp with
  | [] => live_count
  | _ :: next => count_live next (wrap (live_count + 1))
  end.

Definition gg_gc_collect (w : world) : world :=
  let w1 := gg_gc_sweep (gg_gc_mark w) in
  let g := gc w1 in
  let live_count := count_live (heap g) 0 in
  set_gc (Registry (heap g) (roots g) (root_count g) 0
                   (if threshold g / 2 <? live_count
                    then wrap (threshold g * 2) else threshold g)
                   (total_allocated g) (total_collected g)
                   (wrap (collections g + 1)) (memory_limit g)) w1.

Definition gg_gc_set_memory_limit (limit_bytes : Z) (w : world) : world :=
  let g := gc w in
  set_gc (Registry (heap g) (roots g) (root_count g) (alloc_count g)
                   (threshold g) (total_allocated g) (total_collected g)
                   (collections g) limit_bytes) w.

(** ** Allocation: [gg_gc_alloc] *)

Definition ceiling_message (allocated limit requested : Z) : list string :=
  [ "[ggLang GC] Fatal error: memory limit exceeded (" +:+ pretty allocated
      +:+ " bytes allocated, limit is " +:+ pretty limit
      +:+ " bytes, requested " +:+ pretty requested +:+ " bytes)" +:+ nl;
    "[ggLang GC] The application has been terminated due to memory constraints."
      +:+ nl;
    "[ggLang GC] Increase the memory limit with 'gg init --mem <size>' or optimize memory usage."
      +:+ nl ].

Definition out_of_memory_message (requested : Z) : string :=
  "[ggLang GC] Fatal error: out of memory (" +:+ pretty requested
    +:+ " bytes)" +:+ nl.

(** A block handed out by [calloc(1, n)] at [p] reads as zero. *)
Definition calloc_zero (p n : Z) (w : world) : world :=
  World (gc w)
        (fun a => if (p <=? a) && (a + sizeof_ptr <=? p + n) then 0 else mem w a)
        (freed w) (stderr w).

(** Lines 89 to 98: fill the header at [header], link it as the new head,
    bump the counters and return the payload pointer. *)
Definition link_header (header sz : Z) (w : world) : outcome :=
  let g := gc w in
  Returned (wrap (header + sizeof_header))
           (set_gc (Registry (Header header sz 0 :: heap g) (roots g)
                             (root_count g) (wrap (alloc_count g + 1))
                             (threshold g) (wrap (total_allocated g + sz))
                             (total_collected g) (collections g)
                             (memory_limit g)) w).

(** Lines 78 to 98. The host allocator is outside the program: [first] is
    what the first [calloc] returns and [second] what the retry returns
    ([0] for [NULL]). *)
Definition alloc_block (sz first second : Z) (w : world) : outcome :=
  let request := wrap (sizeof_header + sz) in
  if first =? 0 then
    let w1 := gg_gc_collect w in
    if second =? 0 then
      Exited 1 (fprintf_stderr (out_of_memory_message sz) w1)
    else link_header second sz (calloc_zero second request w1)
  else link_header first sz (calloc_zero first request w).

Definition gg_gc_alloc (sz first second : Z) (w : world) : outcome :=
  let w1 :=
    if threshold (gc w) <=? alloc_count (gc w) then gg_gc_collect w else w in
  if (0 <? memory_limit (gc w1))
     && (memory_limit (gc w1) <? wrap (total_allocated (gc w1) + sz))
  then
    let w2 := gg_gc_collect w1 in
    if memory_limit (gc w2) <? wrap (total_allocated (gc w2) + sz) then
      Exited 137
             (foldl (fun w' line => fprintf_stderr line w') w2
                    (ceiling_message (total_allocated (gc w2))
                                     (memory_limit (gc w2)) sz))
    else alloc_block sz first second w2
  else alloc_block sz first second w1.

Definition gg_alloc (sz first second : Z) (w : world) : outcome :=
  gg_gc_alloc sz first second w.

(** ** Explicit release: [gg_free], [Memory_free] *)

(** The loop of [gg_free]: the first header at address [target] is taken
    out of the list. *)
Fixpoint unlink (target : Z) (hp : list gg_gc_header)
  : option (gg_gc_header * list gg_gc_header) :=
  match hp with
  | [] => None
  | obj :: next =>
    if addr obj =? target then Some (obj, next)
    else match unlink target next with
         | Some (found, next') => Some (found, obj :: next')
         | None => None
         end
  end.

Definition gg_free (ptr : Z) (w : world) : world :=
  if ptr =? 0 then w
  else
    let g := gc w in
    let target := wrap (ptr - sizeof_header) in
    match unlink target (heap g) with
    | Some (found, hp') =>
      host_free target
        (set_gc (Registry hp' (roots g) (root_count g) (alloc_count g)
                          (threshold g) (wrap (total_allocated g - size found))
                          (total_collected g) (collections g)
                          (memory_limit g)) w)
    | None => host_free ptr w
    end.

Definition Memory_free (ptr : Z) (w : world) : world := gg_free ptr w.

(** ** Root frames: [gg_gc_push_root_frame], [gg_gc_pop_root_frame] *)

(** Modelled from the spec: [gg_gc_push_root_frame] is declared in
    [gg_runtime.h] (line 216) and its body is not in the sources.  The
    specification says that it captures the current root count, which is the
    token it returns. *)
Definition gg_gc_push_root_frame (w : world) : Z * world :=
  (root_count (gc w), w).

(** Modelled from the spec: [gg_gc_pop_root_frame] is declared in
    [gg_runtime.h] (line 221) and its body is not in the sources.  The
    specification says that it truncates the root vector back to the
    captured count. *)
Definition gg_gc_pop_root_frame (frame : Z) (w : world) : world :=
  let g := gc w in
  set_gc (Registry (heap g) (roots g) frame (alloc_count g) (threshold g)
                   (total_allocated g) (total_collected g) (collections g)
                   (memory_limit g)) w.


(** ** Root set: [gg_gc_remove_root] *)

(** The search loop of [gg_gc_remove_root]: the first index [i] of [rs] with
    [rs[i] == root_ptr]. *)
Fixpoint root_index (root_ptr : Z) (rs : list Z) : option nat :=
  match rs with
  | [] => None
  | r :: rest =>
    if r =? root_ptr then Some O
    else match root_index root_ptr rest with
         | Some i => Some (S i)
         | None => None
         end
  end.

(** The shift loop [for (j = i; j < root_count - 1; j++) roots[j] = roots[j+1]],
    with [n] iterations left. *)
Fixpoint shift_down (n j : nat) (rs : list Z) : list Z :=
  match n with
  | O => rs
  | S n' => shift_down n' (S j) (<[j := default 0 (rs !! S j)]> rs)
  end.

Definition gg_gc_remove_root (root_ptr : Z) (w : world) : world :=
  let g := gc w in
  match root_index root_ptr (active_roots g) with
  | None => w
  | Some i =>
    set_gc (Registry (heap g)
                     (shift_down (Z.to_nat (root_count g) - 1 - i) i (roots g))
                     (root_count g - 1) (alloc_count g) (threshold g)
                     (total_allocated g) (total_collected g) (collections g)
                     (memory_limit g)) w
  end.

(** ** Legacy entry points: [Memory_alloc] *)

Definition Memory_alloc (sz first second : Z) (w : world) : outcome :=
  gg_alloc sz first second w.

(** * Containers of the runtime

    The containers copy [elem_size] bytes per element with [memcpy]; an
    element is a value of a type [A] here.  A container pointer is an
    [option] ([None] for [NULL]), and so is a pointer to an element.  A
    block is the list of its slots; a block that [malloc] or [realloc]
    hands out holds whatever the host left there, and is an argument of
    the operation or the answer of a host function that is one.
    Positions and counts are [int32_t] values, held as [Z]. *)

Definition INT32_MAX : Z := 2147483647.

Definition INT32_MIN : Z := -2147483648.

(** An [int32_t] sum or product has a value when it is in the range of the
    type; C gives the program no meaning otherwise. *)
Definition int32_fits (x : Z) : bool := (INT32_MIN <=? x) && (x <=? INT32_MAX).

(** What an operation that asks the host for a block and stores through
    it does: [Undefined] where C gives the program no meaning, which is
    the case of an [int32_t] arithmetic overflow, of a store through [NULL]
    or outside the block, and of a copy of a negative number of bytes. *)
Inductive behaviour (T : Type) : Type :=
| Ok (t : T)
| Undefined.

Arguments Ok {T} t.
Arguments Undefined {T}.

(** [memcpy(block + i * elem_sz, &value, elem_sz)]: the slot [i] of the
    block has to be there.  An element takes [elem_sz] bytes, and elements
    of no bytes are left out: a copy of [elem_sz <= 0] bytes is given no
    meaning. *)
Definition write_slot {A : Type} (elem_sz i : Z) (value : A) (block : list A)
  : behaviour (list A) :=
  if (0 <? elem_sz) && int32_fits (i * elem_sz)
     && (0 <=? i) && (i <? Z.of_nat (length block))
  then Ok (<[Z.to_nat i := value]> block)
  else Undefined.

(** The element that [memcpy(..., block + i * elem_sz, elem_sz)] reads. *)
Definition read_slot {A : Type} (elem_sz i : Z) (block : list A) : option A :=
  if (0 <? elem_sz) && int32_fits (i * elem_sz) && (0 <=? i)
  then block !! Z.to_nat i
  else None.

(** ** [gg_stack]: a LIFO on a growing array *)

Module Stack.
Section Elem.
Context {A : Type}.

Record gg_stack := Make {
  data : list A;
  count : Z;
  capacity : Z;
  elem_size : Z
}.

Definition gg_stack_new (elem_sz : Z) (block : list A) : gg_stack :=
  Make block 0 16 elem_sz.

(** [realloc] is the host's answer to [realloc(stack->data, bytes)], given
    the slots of the old block and the number of bytes asked for, as the
    [size_t] it is passed as: [None] for [NULL], or the slots of the block
    handed out.  The source does not test the answer: the store that
    follows goes through it. *)
Definition gg_stack_push (realloc : list A -> Z -> option (list A))
    (stack : option gg_stack) (value : A) : behaviour (option gg_stack) :=
  match stack with
  | None => Ok None
  | Some s =>
    let grown :=
      if capacity s <=? count s then
        let new_cap := capacity s * 2 in
        if int32_fits new_cap && int32_fits (new_cap * elem_size s) then
          match realloc (data s) (wrap (new_cap * elem_size s)) with
          | Some block => Ok (Make block (count s) new_cap (elem_size s))
          | None => Undefined
          end
        else Undefined
      else Ok s in
    match grown with
    | Undefined => Undefined
    | Ok s1 =>
      match write_slot (elem_size s1) (count s1) value (data s1) with
      | Undefined => Undefined
      | Ok new_data =>
        if int32_fits (count s1 + 1)
        then Ok (Some (Make new_data (count s1 + 1) (capacity s1)
                            (elem_size s1)))
        else Undefined
      end
    end
  end.

Definition gg_stack_peek (stack : option gg_stack) : option A :=
  match stack with
  | None => None
  | Some s =>
    if count s =? 0 then None else data s !! Z.to_nat (count s - 1)
  end.

(** [out_value] is what the destination holds ([None] for a [NULL]
    destination); the result is the return value, what the destination
    holds afterwards, and the stack. *)
Definition gg_stack_pop (stack : option gg_stack) (out_value : option A)
  : Z * option A * option gg_stack :=
  match stack with
  | None => (0, out_value, None)
  | Some s =>
    if count s =? 0 then (0, out_value, Some s)
    else
      let n := count s - 1 in
      let out :=
        match out_value with
        | Some old => Some (default old (data s !! Z.to_nat n))
        | None => None
        end in
      (1, out, Some (Make (data s) n (capacity s) (elem_size s)))
  end.

Definition gg_stack_count (stack : option gg_stack) : Z :=
  match stack with Some s => count s | None => 0 end.

Definition gg_stack_isEmpty (stack : option gg_stack) : Z :=
  match stack with
  | None => 1
  | Some s => if count s =? 0 then 1 else 0
  end.

Definition gg_stack_clear (stack : option gg_stack) : option gg_stack :=
  match stack with
  | Some s => Some (Make (data s) 0 (capacity s) (elem_size s))
  | None => None
  end.

End Elem.
Arguments gg_stack : clear implicits.
End Stack.

(** ** [gg_queue]: a FIFO on a circular buffer *)

Module Queue.
Section Elem.
Context {A : Type}.

Record gg_queue := Make {
  data : list A;
  head : Z;
  tail : Z;
  count : Z;
  capacity : Z;
  elem_size : Z
}.

Definition gg_queue_new (elem_sz : Z) (block : list A) : gg_queue :=
  Make block 0 0 0 16 elem_sz.

(** The copy loop of [gg_queue_resize], at index [i] with [n] iterations
    left: slot [i] of the new block receives slot [(head + i) % capacity]
    of the old one. *)
Fixpoint resize_copy (q : gg_queue) (n : nat) (i : Z) (new_data : list A)
  : behaviour (list A) :=
  match n with
  | O => Ok new_data
  | S n' =>
    if int32_fits (head q + i) && negb (capacity q =? 0) then
      let src := Z.rem (head q + i) (capacity q) in
      match read_slot (elem_size q) src (data q) with
      | Some x =>
        match write_slot (elem_size q) i x new_data with
        | Ok new_data' => resize_copy q n' (i + 1) new_data'
        | Undefined => Undefined
        end
      | None => Undefined
      end
    else Undefined
  end.

(** [malloc] is the host's answer to [malloc(bytes)], given the number of
    bytes as the [size_t] it is passed as: [None] for [NULL], or the slots
    of the block handed out.  The source does not test the answer: with
    [NULL] the copy loop, or the store of [gg_queue_enqueue] right after
    its only call, goes through a null pointer. *)
Definition gg_queue_resize (malloc : Z -> option (list A)) (q : gg_queue)
  : behaviour gg_queue :=
  let new_cap := capacity q * 2 in
  if int32_fits new_cap && int32_fits (new_cap * elem_size q) then
    match malloc (wrap (new_cap * elem_size q)) with
    | None => Undefined
    | Some block =>
      match resize_copy q (Z.to_nat (count q)) 0 block with
      | Ok new_data =>
        Ok (Make new_data 0 (count q) (count q) new_cap (elem_size q))
      | Undefined => Undefined
      end
    end
  else Undefined.

Definition gg_queue_enqueue (malloc : Z -> option (list A))
    (queue : option gg_queue) (value : A) : behaviour (option gg_queue) :=
  match queue with
  | None => Ok None
  | Some q =>
    match (if capacity q <=? count q then gg_queue_resize malloc q
           else Ok q) with
    | Undefined => Undefined
    | Ok q1 =>
      match write_slot (elem_size q1) (tail q1) value (data q1) with
      | Undefined => Undefined
      | Ok new_data =>
        if int32_fits (tail q1 + 1) && negb (capacity q1 =? 0)
           && int32_fits (count q1 + 1)
        then Ok (Some (Make new_data (head q1)
                            (Z.rem (tail q1 + 1) (capacity q1))
                            (count q1 + 1) (capacity q1) (elem_size q1)))
        else Undefined
      end
    end
  end.

Definition gg_queue_dequeue (queue : option gg_queue) (out_value : option A)
  : Z * option A * option gg_queue :=
  match queue with
  | None => (0, out_value, None)
  | Some q =>
    if count q =? 0 then (0, out_value, Some q)
    else
      let out :=
        match out_value with
        | Some old => Some (default old (data q !! Z.to_nat (head q)))
        | None => None
        end in
      (1, out,
       Some (Make (data q) (Z.rem (head q + 1) (capacity q)) (tail q)
                  (count q - 1) (capacity q) (elem_size q)))
  end.

Definition gg_queue_peek (queue : option gg_queue) : option A :=
  match queue with
  | None => None
  | Some q => if count q =? 0 then None else data q !! Z.to_nat (head q)
  end.

Definition gg_queue_count (queue : option gg_queue) : Z :=
  match queue with Some q => count q | None => 0 end.

Definition gg_queue_isEmpty (queue : option gg_queue) : Z :=
  match queue with
  | None => 1
  | Some q => if count q =? 0 then 1 else 0
  end.

Definition gg_queue_clear (queue : option gg_queue) : option gg_queue :=
  match queue with
  | Some q => Some (Make (data q) 0 0 0 (capacity q) (elem_size q))
  | None => None
  end.

End Elem.
Arguments gg_queue : clear implicits.
End Queue.

(** * Strings and encoders of the runtime

    A [char] buffer is the list of its bytes, each a [Z] in [0, 255]; a C
    string ends at its first zero byte.  The functions below give the
    string a runtime function builds: the allocation of its header with
    [gg_alloc] and of its buffers with [malloc] is taken to succeed, and
    the collector is left out. *)

Module Str.

(** [gg_string]: [data] is the buffer of [length + 1] bytes, the last one
    being the terminating zero. *)
Record gg_string := Make {
  ref_count : Z;
  length : Z;
  data : list Z
}.

(** [strlen]. *)
Fixpoint strlen (buf : list Z) : Z :=
  match buf with
  | [] => 0
  | c :: rest => if c =? 0 then 0 else 1 + strlen rest
  end.

(** The bytes of the string: [data[0 .. length-1]]. *)
Definition bytes (s : gg_string) : list Z :=
  take (Z.to_nat (length s)) (data s).

Definition gg_string_from_cstr (cstr : option (list Z)) : gg_string :=
  let buf := match cstr with Some b => b | None => [0] end in
  let n := strlen buf in
  Make 1 n (take (Z.to_nat n) buf ++ [0]).

Definition gg_string_from_buf (buf : list Z) (len : Z) : gg_string :=
  Make 1 len (take (Z.to_nat len) buf ++ [0]).

Definition gg_string_length (s : option gg_string) : Z :=
  match s with Some s => length s | None => 0 end.


(** [gg_string_equals]: two pointers that are equal point to the same
    bytes, so that the first test of the source changes the result only for
    two [NULL] pointers. *)
Definition gg_string_equals (a b : option gg_string) : Z :=
  match a, b with
  | None, None => 1
  | None, Some _ | Some _, None => 0
  | Some a, Some b =>
    if negb (length a =? length b) then 0
    else if decide (bytes a = bytes b) then 1 else 0
  end.


End Str.

(** ** Base64 *)

Module Base64.

(** [gg_b64_table], as character codes. *)
Definition gg_b64_table : list Z :=
  [65; 66; 67; 68; 69; 70; 71; 72; 73; 74; 75; 76; 77; 78; 79; 80; 81; 82; 83;
   84; 85; 86; 87; 88; 89; 90;
   97; 98; 99; 100; 101; 102; 103; 104; 105; 106; 107; 108; 109; 110; 111;
   112; 113; 114; 115; 116; 117; 118; 119; 120; 121; 122;
   48; 49; 50; 51; 52; 53; 54; 55; 56; 57; 43; 47].

Definition table_at (k : Z) : Z := nth (Z.to_nat k) gg_b64_table 0.

(** The character ['=']. *)
Definition pad : Z := 61.

(** One turn of the loop of [gg_base64_encode]: [a] is [data[i]], [b] and
    [c] are [data[i+1]] and [data[i+2]] when those indices are below the
    length. *)
Definition encode_group (a : Z) (b c : option Z) : list Z :=
  let triple :=
    Z.lor (Z.lor (Z.shiftl a 16) (Z.shiftl (default 0 b) 8)) (default 0 c) in
  [ table_at (Z.land (Z.shiftr triple 18) 63);
    table_at (Z.land (Z.shiftr triple 12) 63);
    match b with
    | Some _ => table_at (Z.land (Z.shiftr triple 6) 63)
    | None => pad
    end;
    match c with
    | Some _ => table_at (Z.land triple 63)
    | None => pad
    end ].

Fixpoint encode_loop (input : list Z) : list Z :=
  match input with
  | [] => []
  | a :: rest1 =>
    match rest1 with
    | [] => encode_group a None None
    | b :: rest2 =>
      match rest2 with
      | [] => encode_group a (Some b) None
      | c :: rest3 => encode_group a (Some b) (Some c) ++ encode_loop rest3
      end
    end
  end.

Definition gg_base64_encode (input : option Str.gg_string) : Str.gg_string :=
  match input with
  | None => Str.gg_string_from_cstr (Some [0])
  | Some s =>
    if Str.length s =? 0 then Str.gg_string_from_cstr (Some [0])
    else Str.gg_string_from_cstr (Some (encode_loop (Str.bytes s) ++ [0]))
  end.

Definition gg_b64_val (c : Z) : Z :=
  if (65 <=? c) && (c <=? 90) then c - 65
  else if (97 <=? c) && (c <=? 122) then c - 97 + 26
  else if (48 <=? c) && (c <=? 57) then c - 48 + 52
  else if c =? 43 then 62
  else if c =? 47 then 63
  else -1.

(** [gg_b64_val] of a character that is there, with [if (x < 0) x = 0]. *)
Definition decode_char (c : option Z) : Z :=
  match c with
  | Some c => if gg_b64_val c <? 0 then 0 else gg_b64_val c
  | None => 0
  end.

(** The three guarded stores [if (j < out_len) out[j++] = ...] of one turn
    of the loop of [gg_base64_decode]: the bytes stored and the new [j]. *)
Definition decode_group (a b c d : option Z) (j out_len : Z) : list Z * Z :=
  let triple :=
    Z.lor (Z.lor (Z.lor (Z.shiftl (decode_char a) 18)
                        (Z.shiftl (decode_char b) 12))
                 (Z.shiftl (decode_char c) 6))
          (decode_char d) in
  let '(out1, j1) :=
    if j <? out_len then ([Z.land (Z.shiftr triple 16) 255], j + 1)
    else ([], j) in
  let '(out2, j2) :=
    if j1 <? out_len then (out1 ++ [Z.land (Z.shiftr triple 8) 255], j1 + 1)
    else (out1, j1) in
  if j2 <? out_len then (out2 ++ [Z.land triple 255], j2 + 1)
  else (out2, j2).

Fixpoint decode_loop (chars : list Z) (j out_len : Z) : list Z :=
  match chars with
  | [] => []
  | a :: rest1 =>
    match rest1 with
    | [] => fst (decode_group (Some a) None None None j out_len)
    | b :: rest2 =>
      match rest2 with
      | [] => fst (decode_group (Some a) (Some b) None None j out_len)
      | c :: rest3 =>
        match rest3 with
        | [] => fst (decode_group (Some a) (Some b) (Some c) None j out_len)
        | d :: rest4 =>
          let '(out, j') :=
            decode_group (Some a) (Some b) (Some c) (Some d) j out_len in
          out ++ decode_loop rest4 j' out_len
        end
      end
    end
  end.

Definition gg_base64_decode (encoded : option Str.gg_string) : Str.gg_string :=
  match encoded with
  | None => Str.gg_string_from_cstr (Some [0])
  | Some s =>
    if Str.length s =? 0 then Str.gg_string_from_cstr (Some [0])
    else
      let len := Str.length s in
      let out_len0 := Z.quot (len * 3) 4 in
      let out_len1 :=
        if (0 <? len) && (default 0 (Str.data s !! Z.to_nat (len - 1)) =? pad)
        then out_len0 - 1 else out_len0 in
      let out_len :=
        if (1 <? len) && (default 0 (Str.data s !! Z.to_nat (len - 2)) =? pad)
        then out_len1 - 1 else out_len1 in
      let out := decode_loop (Str.bytes s) 0 out_len in
      Str.gg_string_from_buf (out ++ [0]) (Z.of_nat (List.length out))
  end.

End Base64.

(** ** Hexadecimal encoding and the XOR cipher *)

Module Hex.

(** The digit that [printf] writes for [d] with [%x]. *)
Definition hex_digit (d : Z) : Z := if d <? 10 then 48 + d else 87 + d.

(** [snprintf(out, 3, "%02x", b)] for a byte [b]: two digits, and a zero
    byte that the next call or the line after the loop overwrites. *)
Definition snprintf_02x (b : Z) : list Z :=
  [hex_digit (b / 16); hex_digit (b mod 16)].

Definition gg_hex_encode (input : option Str.gg_string) : Str.gg_string :=
  match input with
  | None => Str.gg_string_from_cstr (Some [0])
  | Some s =>
    if Str.length s =? 0 then Str.gg_string_from_cstr (Some [0])
    else
      Str.gg_string_from_cstr
        (Some (concat (List.map snprintf_02x (Str.bytes s)) ++ [0]))
  end.

(** The value of a hexadecimal digit. *)
Definition hex_val (c : Z) : option Z :=
  if (48 <=? c) && (c <=? 57) then Some (c - 48)
  else if (97 <=? c) && (c <=? 102) then Some (c - 87)
  else if (65 <=? c) && (c <=? 70) then Some (c - 55)
  else None.

Section Scan.

(** [sscanf(h, "%02x", &byte)] on the two characters [c1] and [c2] stores
    their value when both are hexadecimal digits.  For other characters
    what [byte] holds afterwards (it is not initialised) is [unscanned],
    which is given the turn of the loop and the two characters. *)
Variable unscanned : Z -> Z -> Z -> Z.

Definition sscanf_02x (i c1 c2 : Z) : Z :=
  match hex_val c1, hex_val c2 with
  | Some a, Some b => 16 * a + b
  | _, _ => unscanned i c1 c2
  end.

(** The loop of [gg_hex_decode] from turn [i] on, over the characters from
    [2 * i] on: [out[i] = (char)byte]. *)
Fixpoint decode_loop (chars : list Z) (i : Z) : list Z :=
  match chars with
  | c1 :: c2 :: rest => sscanf_02x i c1 c2 mod 256 :: decode_loop rest (i + 1)
  | _ => []
  end.

Definition gg_hex_decode (hexStr : option Str.gg_string) : Str.gg_string :=
  match hexStr with
  | None => Str.gg_string_from_cstr (Some [0])
  | Some s =>
    if Str.length s <? 2 then Str.gg_string_from_cstr (Some [0])
    else
      let len := Z.quot (Str.length s) 2 in
      let out :=
        take (Z.to_nat len) (decode_loop (Str.bytes s) 0) in
      Str.gg_string_from_buf (out ++ [0]) len
  end.

(** [buf[i] = text[i] ^ key->data[i % key->length]] for every [i] below
    the length of the text. *)
Definition xor_loop (text : list Z) (key : Str.gg_string) : list Z :=
  imap (fun i c =>
          Z.lxor c (default 0 (Str.data key
                                 !! Z.to_nat (Z.rem (Z.of_nat i)
                                                    (Str.length key)))))
       text.

Definition gg_xor_encrypt (plaintext key : option Str.gg_string)
  : Str.gg_string :=
  match plaintext, key with
  | Some p, Some k =>
    if Str.length k =? 0 then Str.gg_string_from_cstr (Some [0])
    else
      let raw := Str.gg_string_from_buf (xor_loop (Str.bytes p) k)
                                        (Str.length p) in
      gg_hex_encode (Some raw)
  | _, _ => Str.gg_string_from_cstr (Some [0])
  end.

Definition gg_xor_decrypt (cipherHex key : option Str.gg_string)
  : Str.gg_string :=
  match cipherHex, key with
  | Some c, Some k =>
    if Str.length k =? 0 then Str.gg_string_from_cstr (Some [0])
    else
      let raw := gg_hex_decode (Some c) in
      Str.gg_string_from_buf (xor_loop (Str.bytes raw) k ++ [0])
                             (Str.length raw)
  | _, _ => Str.gg_string_from_cstr (Some [0])
  end.

End Scan.

End Hex.

(** ** [gg_hashmap]: string keys, open addressing *)

(** A key is a C string, given by its bytes before the terminating zero. *)
Definition gg_hash_fnv1a (key : list Z) : Z :=
  fold_left (fun hash c => (Z.lxor hash c * 16777619) mod 2 ^ 32)
            key 2166136261.

Definition gg_next_power_of_2 (n : Z) : Z :=
  let n := n - 1 in
  let n := Z.lor n (Z.shiftr n 1) in
  let n := Z.lor n (Z.shiftr n 2) in
  let n := Z.lor n (Z.shiftr n 4) in
  let n := Z.lor n (Z.shiftr n 8) in
  let n := Z.lor n (Z.shiftr n 16) in
  n + 1.

Module HashMap.
Section Value.
Context {V : Type}.

(** A bucket.  [key] and [value] are pointers to a copy that the map owns:
    [None] is [NULL].  The copies made with [strdup] and [malloc] are taken
    to succeed. *)
Record gg_hashmap_entry := Entry {
  key : option (list Z);
  value : option V;
  occupied : bool;
  deleted : bool
}.

(** The field [load_factor] is 0.75 in every map and is left out. *)
Record gg_hashmap := Make {
  buckets : list gg_hashmap_entry;
  capacity : Z;
  count : Z;
  elem_size : Z
}.

(** A bucket as [calloc] hands it out. *)
Definition zero_entry : gg_hashmap_entry := Entry None None false false.

Definition gg_hashmap_new_capacity (elem_sz initial_capacity : Z)
  : gg_hashmap :=
  let cap :=
    gg_next_power_of_2 (if initial_capacity <? 16 then 16
                        else initial_capacity) in
  Make (replicate (Z.to_nat cap) zero_entry) cap 0 elem_sz.

Definition gg_hashmap_new (elem_sz : Z) : gg_hashmap :=
  gg_hashmap_new_capacity elem_sz 16.

(** [strcmp(e->key, key) == 0]. *)
Definition strcmp_eq (stored : option (list Z)) (k : list Z) : bool :=
  bool_decide (stored = Some k).

(** [(float)(count + 1) / capacity > 0.75f].  The quotient of an [int]
    below [2^24] by a power of two is exact in [float], and so is 0.75: for
    such a map the test is the comparison of [4 * (count + 1)] with
    [3 * capacity]. *)
Definition load_exceeded (map : gg_hashmap) : bool :=
  3 * capacity map <? 4 * (count map + 1).

(** The probe loop of [gg_hashmap_put], from turn [i] on, with [n] turns
    left. *)
Fixpoint put_loop (n : nat) (i idx mask : Z) (map : gg_hashmap)
    (k : list Z) (v : V) : gg_hashmap :=
  match n with
  | O => map
  | S n' =>
    let probe := Z.land (idx + i) mask in
    match buckets map !! Z.to_nat probe with
    | None => map
    | Some e =>
      if negb (occupied e) || deleted e then
        Make (<[Z.to_nat probe := Entry (Some k) (Some v) true false]>
                (buckets map))
             (capacity map) (count map + 1) (elem_size map)
      else if strcmp_eq (key e) k then
        Make (<[Z.to_nat probe := Entry (key e) (Some v) (occupied e)
                                        (deleted e)]> (buckets map))
             (capacity map) (count map) (elem_size map)
      else put_loop n' (i + 1) idx mask map k v
    end
  end.

(** [gg_hashmap_resize]: twice as many buckets, all zero, into which the
    live entries of the old buckets are put in the order of their slots.
    [put] is the call of [gg_hashmap_put] in its loop. *)
Definition resize_with
    (put : gg_hashmap -> option (list Z) -> V -> option gg_hashmap)
    (map : gg_hashmap) : option gg_hashmap :=
  fold_left
    (fun acc e =>
       match acc with
       | None => None
       | Some m =>
         if occupied e && negb (deleted e) then
           match value e with
           | Some v' => put m (key e) v'
           | None => Some m
           end
         else Some m
       end)
    (take (Z.to_nat (capacity map)) (buckets map))
    (Some (Make (replicate (Z.to_nat (capacity map * 2)) zero_entry)
                (capacity map * 2) 0 (elem_size map))).

(** [gg_hashmap_put] calls [gg_hashmap_resize], which calls
    [gg_hashmap_put]: [fuel] bounds the depth of these calls, and [None]
    is the answer when it runs out. *)
Fixpoint gg_hashmap_put (fuel : nat) (map : gg_hashmap)
    (key_ptr : option (list Z)) (v : V) : option gg_hashmap :=
  match fuel with
  | O => None
  | S fuel' =>
    match key_ptr with
    | None => Some map
    | Some k =>
      let resized :=
        if load_exceeded map then resize_with (gg_hashmap_put fuel') map
        else Some map in
      match resized with
      | None => None
      | Some m =>
        let hash := gg_hash_fnv1a k in
        let mask := capacity m - 1 in
        let idx := Z.land hash mask in
        Some (put_loop (Z.to_nat (capacity m)) 0 idx mask m k v)
      end
    end
  end.

Definition gg_hashmap_resize (fuel : nat) (map : gg_hashmap)
  : option gg_hashmap :=
  resize_with (gg_hashmap_put fuel) map.

Fixpoint get_loop (n : nat) (i idx mask : Z) (map : gg_hashmap)
    (k : list Z) : option V :=
  match n with
  | O => None
  | S n' =>
    let probe := Z.land (idx + i) mask in
    match buckets map !! Z.to_nat probe with
    | None => None
    | Some e =>
      if negb (occupied e) then None
      else if negb (deleted e) && strcmp_eq (key e) k then value e
      else get_loop n' (i + 1) idx mask map k
    end
  end.

Definition gg_hashmap_get (map : gg_hashmap) (key_ptr : option (list Z))
  : option V :=
  match key_ptr with
  | None => None
  | Some k =>
    let hash := gg_hash_fnv1a k in
    let mask := capacity map - 1 in
    let idx := Z.land hash mask in
    get_loop (Z.to_nat (capacity map)) 0 idx mask map k
  end.

Definition gg_hashmap_containsKey (map : gg_hashmap)
    (key_ptr : option (list Z)) : Z :=
  match gg_hashmap_get map key_ptr with Some _ => 1 | None => 0 end.

Fixpoint remove_loop (n : nat) (i idx mask : Z) (map : gg_hashmap)
    (k : list Z) : Z * gg_hashmap :=
  match n with
  | O => (0, map)
  | S n' =>
    let probe := Z.land (idx + i) mask in
    match buckets map !! Z.to_nat probe with
    | None => (0, map)
    | Some e =>
      if negb (occupied e) then (0, map)
      else if negb (deleted e) && strcmp_eq (key e) k then
        (1, Make (<[Z.to_nat probe := Entry (key e) None (occupied e) true]>
                    (buckets map))
                 (capacity map) (count map - 1) (elem_size map))
      else remove_loop n' (i + 1) idx mask map k
    end
  end.

Definition gg_hashmap_remove (map : gg_hashmap) (key_ptr : option (list Z))
  : Z * gg_hashmap :=
  match key_ptr with
  | None => (0, map)
  | Some k =>
    let hash := gg_hash_fnv1a k in
    let mask := capacity map - 1 in
    let idx := Z.land hash mask in
    remove_loop (Z.to_nat (capacity map)) 0 idx mask map k
  end.

Definition gg_hashmap_count (map : option gg_hashmap) : Z :=
  match map with Some m => count m | None => 0 end.

(** [gg_hashmap_clear] frees the key and the value of an occupied bucket
    and clears its two flags; the two pointers stay in the bucket. *)
Definition gg_hashmap_clear (map : gg_hashmap) : gg_hashmap :=
  Make (List.map (fun e => if occupied e
                           then Entry (key e) (value e) false false else e)
                 (take (Z.to_nat (capacity map)) (buckets map))
        ++ drop (Z.to_nat (capacity map)) (buckets map))
       (capacity map) 0 (elem_size map).

End Value.

Arguments gg_hashmap_entry : clear implicits.
Arguments gg_hashmap : clear implicits.

End HashMap.

(** ** [gg_list]: a doubly-linked list *)

Module LinkedList.
Section Elem.
Context {A : Type}.

(** A node; [data] points to the copy of the element that the node owns,
    which is the element here.  [next] and [prev] are addresses, 0 for
    [NULL]. *)
Record gg_list_node := Node {
  data : A;
  next : Z;
  prev : Z
}.

Record gg_list := Make {
  head : Z;
  tail : Z;
  count : Z;
  elem_size : Z
}.

(** The list and the nodes that are allocated, by address. *)
Record memory := Mem {
  list : gg_list;
  nodes : Z -> option gg_list_node
}.

Definition write_node (p : Z) (n : gg_list_node)
    (ns : Z -> option gg_list_node) : Z -> option gg_list_node :=
  fun a => if a =? p then Some n else ns a.

Definition free_node (p : Z) (ns : Z -> option gg_list_node)
  : Z -> option gg_list_node :=
  fun a => if a =? p then None else ns a.

(** [p->prev = q] and [p->next = q]; nothing is written through a pointer
    to no node. *)
Definition set_prev (p q : Z) (ns : Z -> option gg_list_node)
  : Z -> option gg_list_node :=
  match ns p with
  | Some n => write_node p (Node (data n) (next n) q) ns
  | None => ns
  end.

Definition set_next (p q : Z) (ns : Z -> option gg_list_node)
  : Z -> option gg_list_node :=
  match ns p with
  | Some n => write_node p (Node (data n) q (prev n)) ns
  | None => ns
  end.

Definition gg_list_new (elem_sz : Z) : memory :=
  Mem (Make 0 0 0 elem_sz) (fun _ => None).







Definition gg_list_removeFirst (m : memory) : Z * memory :=
  let l := list m in
  if head l =? 0 then (0, m)
  else
    match nodes m (head l) with
    | None => (0, m)
    | Some old =>
      let new_head := next old in
      let ns1 :=
        if new_head =? 0 then nodes m else set_prev new_head 0 (nodes m) in
      let new_tail := if new_head =? 0 then 0 else tail l in
      (1, Mem (Make new_head new_tail (count l - 1) (elem_size l))
              (free_node (head l) ns1))
    end.

Definition gg_list_removeLast (m : memory) : Z * memory :=
  let l := list m in
  if tail l =? 0 then (0, m)
  else
    match nodes m (tail l) with
    | None => (0, m)
    | Some old =>
      let new_tail := prev old in
      let ns1 :=
        if new_tail =? 0 then nodes m else set_next new_tail 0 (nodes m) in
      let new_head := if new_tail =? 0 then 0 else head l in
      (1, Mem (Make new_head new_tail (count l - 1) (elem_size l))
              (free_node (tail l) ns1))
    end.


End Elem.

Arguments gg_list_node : clear implicits.
Arguments memory : clear implicits.

End LinkedList.
(** * Specification vocabulary and sample worlds *)

(** The sum of the [size] fields along the list. *)
Definition sum_sizes (hp : list gg_gc_header) : Z :=
  foldr (fun obj acc => size obj + acc) 0 hp.

(** A world whose root vector is at capacity. *)
Definition full_world : world :=
  World (Registry [] (replicate (Z.to_nat GG_GC_MAX_ROOTS) 16) GG_GC_MAX_ROOTS
                  0 GG_GC_INITIAL_THRESHOLD 0 0 0 0)
        (fun _ => 0) [] [].

(** The world at program start, [static gg_gc_state gg_gc = {0}], and the
    world after the call of [gg_gc_init] in [main]. *)
Definition start_world : world :=
  World (Registry [] (replicate (Z.to_nat GG_GC_MAX_ROOTS) 0) 0 0 0 0 0 0 0)
        (fun _ => 0) [] [].

Definition fresh_world : world := gg_gc_init start_world.

(** A value of type [size_t]. *)
Definition is_size_t (x : Z) : Prop := 0 <= x < SIZE_MOD.

(** The typing of the fields the byte accounting reads: every [size] and
    [total_allocated] are [size_t] values. *)
Definition sizes_typed (g : gg_gc_state) : Prop :=
  Forall (fun obj => is_size_t (size obj)) (heap g)
  /\ is_size_t (total_allocated g).

(** R1: [total_allocated] is the sum of the [size] fields along the list. *)
Definition bytes_accounted (g : gg_gc_state) : Prop :=
  total_allocated g = sum_sizes (heap g).

(** H3: every header of the list has its mark bit at 0. *)
Definition marks_clear (hp : list gg_gc_header) : Prop :=
  Forall (fun obj => marked obj = 0) hp.

(** The headers of the list are distinct blocks of the address space: no
    header is [NULL] and the payload pointer [header + 1] of each is an
    address. *)
Definition valid_headers (hp : list gg_gc_header) : Prop :=
  NoDup (map addr hp)
  /\ Forall (fun a => 0 < a /\ a + sizeof_header < SIZE_MOD) (map addr hp).

(** The number of headers of the list whose mark bit is 0. *)
Definition count_unmarked (hp : list gg_gc_header) : nat :=
  length (List.filter (fun obj => marked obj =? 0) hp).

(** The conservative resolution rule: the word [x] resolves to the header
    at [a] when [x] minus one header size is [a] and [a] is the address of a
    header of the list. *)
Definition resolves (hp : list gg_gc_header) (x a : Z) : Prop :=
  a ∈ map addr hp /\ x - sizeof_header = a.

(** What the mark phase never writes: the address and the size of every
    header, in list order. *)
Definition shape (hp : list gg_gc_header) : list (Z * Z) :=
  map (fun obj => (addr obj, size obj)) hp.

(** The word held by the slot of a registered root. *)
Definition root_word (w : world) (x : Z) : Prop :=
  exists root_ptr, root_ptr ∈ active_roots (gc w) /\ root_ptr <> 0
                   /\ x = load (mem w) root_ptr.

(** Reachability of the header at an address: from the word of a root, then
    through the words of the bodies of reachable objects. *)
Inductive reachable (w : world) : Z -> Prop :=
| reachable_root (x a : Z) :
    root_word w x -> resolves (heap (gc w)) x a -> reachable w a
| reachable_body (obj : gg_gc_header) (x b : Z) :
    reachable w (addr obj) -> obj ∈ heap (gc w) ->
    x ∈ body_words (mem w) obj -> resolves (heap (gc w)) x b ->
    reachable w b.

(** A sample world: the objects at 1000 and 2000 point to each other and
    the slot at 500, a registered root, holds the payload of the first; the
    object at 3000 holds a number and nothing points to it. *)
Definition sample_mem (a : Z) : Z :=
  if a =? 500 then 1024
  else if a =? 1024 then 2024
  else if a =? 2024 then 1024
  else if a =? 3024 then 77
  else 0.

Definition sample_world : world :=
  World (Registry [Header 3000 8 0; Header 2000 16 0; Header 1000 16 0]
                  (<[0%nat := 500]> (replicate (Z.to_nat GG_GC_MAX_ROOTS) 0))
                  1 3 GG_GC_INITIAL_THRESHOLD 40 0 0 0)
        sample_mem [] [].

(** A world a program reaches: [gg_gc_init], a ceiling of 4096 bytes, and
    one allocation of 64 bytes that the host places at 4096. *)
Definition used_world : world :=
  match gg_gc_alloc 64 4096 0 (gg_gc_set_memory_limit 4096 fresh_world) with
  | Returned _ w => w
  | Exited _ w => w
  end.

(** What a sweep keeps, with the mark bits cleared, and what it releases. *)
Definition survivors (hp : list gg_gc_header) : list gg_gc_header :=
  map (fun obj => Header (addr obj) (size obj) 0)
      (List.filter (fun obj => negb (marked obj =? 0)) hp).

Definition garbage (hp : list gg_gc_header) : list gg_gc_header :=
  List.filter (fun obj => marked obj =? 0) hp.

(** [w'] is [w] after some number of collection cycles. *)
Inductive collected_from (w : world) : world -> Prop :=
| collected_none : collected_from w w
| collected_more w' : collected_from w w' -> collected_from w (gg_gc_collect w').

(** [fresh_world] with a ceiling of 1024 bytes. *)
Definition limited_world : world := gg_gc_set_memory_limit 1024 fresh_world.

(** [gg_gc_add_root] for each of [slots], in order. *)
Definition add_roots (slots : list Z) (w : world) : world :=
  foldl (fun w' root_ptr => gg_gc_add_root root_ptr w') w slots.

(** ** Relations between the states of a mark phase *)

Definition same_shape (s s' : mark_state) : Prop :=
  shape (fst s') = shape (fst s).

Definition marks_grow (s s' : mark_state) : Prop :=
  forall a, marked_at a (fst s) <> 0 -> marked_at a (fst s') <> 0.

Definition unmarked_shrink (s s' : mark_state) : Prop :=
  (count_unmarked (fst s') <= count_unmarked (fst s))%nat.

(** Every header in the scan log is marked, and none is logged twice. *)
Definition log_marked (s : mark_state) : Prop :=
  NoDup (snd s) /\ forall a, a ∈ snd s -> marked_at a (fst s) <> 0.

(** The words of the body of the object with header at [a] and size [sz]. *)
Definition words (m : Z -> Z) (a sz : Z) : list Z :=
  body_words m (Header a sz 0).

(** A word of the body of the object at [a] resolves to the header at [b]. *)
Definition points_to (m : Z -> Z) (hp : list gg_gc_header) (a b : Z) : Prop :=
  exists sz x, (a, sz) ∈ shape hp /\ x ∈ words m a sz /\ resolves hp x b.

(** The mark state [s] is a marking of the list [hp0]. *)
Definition on_heap (hp0 : list gg_gc_header) (s : mark_state) : Prop :=
  shape (fst s) = shape hp0.

(** Every header that the body of the object at [a] points to is marked. *)
Definition closed_in (m : Z -> Z) (hp0 : list gg_gc_header) (s : mark_state)
           (a : Z) : Prop :=
  forall b, points_to m hp0 a b -> marked_at b (fst s) <> 0.

(** The header at [a] is marked in [s'] and was not in [s]. *)
Definition newly (s s' : mark_state) (a : Z) : Prop :=
  marked_at a (fst s') <> 0 /\ marked_at a (fst s) = 0.

(** What a call of [gg_gc_mark_object] on the header at [h] achieves in the
    graph of the list [hp0]: [h] is marked, every header it marks has all
    the headers its body points to marked, and is reached from [h]. *)
Definition marks_from (m : Z -> Z) (hp0 : list gg_gc_header) (h : Z)
           (s s' : mark_state) : Prop :=
  (h ∈ map addr hp0 -> marked_at h (fst s') <> 0)
  /\ (forall a, newly s s' a -> closed_in m hp0 s' a)
  /\ (forall a, newly s s' a -> rtc (points_to m hp0) h a).

(** The same for a loop over the candidate words [xs]. *)
Definition marks_through (m : Z -> Z) (hp0 : list gg_gc_header) (xs : list Z)
           (s s' : mark_state) : Prop :=
  (forall x b, x ∈ xs -> resolves hp0 x b -> marked_at b (fst s') <> 0)
  /\ (forall a, newly s s' a -> closed_in m hp0 s' a)
  /\ (forall a, newly s s' a ->
        exists x b, x ∈ xs /\ resolves hp0 x b /\ rtc (points_to m hp0) b a).

(** The words held by the slots of the roots [rs] that are not [NULL]. *)
Definition root_words (m : Z -> Z) (rs : list Z) : list Z :=
  map (load m) (List.filter (fun root_ptr => negb (root_ptr =? 0)) rs).

(** The mutator writes the word [v] at address [a]. *)
Definition store (a v : Z) (w : world) : world :=
  World (gc w) (fun a' => if a' =? a then v else mem w a') (freed w) (stderr w).

(** The world in which a call that returns leaves the program. *)
Definition world_of (o : outcome) : world :=
  match o with
  | Returned _ w => w
  | Exited _ w => w
  end.

(** A world a program reaches under a ceiling of 1024 bytes: [gg_gc_init],
    the ceiling, and one allocation of 64 bytes that the host places at
    4096 and that no root points to. *)
Definition ceiling_world : world :=
  world_of (gg_gc_alloc 64 4096 0 limited_world).

(** [SIZE_MAX], the largest request [gg_gc_alloc] can be given. *)
Definition SIZE_MAX : Z := SIZE_MOD - 1.

(** ** What a container holds *)

(** The stack [s] holds the elements [xs], bottom first. *)
Definition stack_holds {A : Type} (s : Stack.gg_stack A) (xs : list A) : Prop :=
  0 < Stack.capacity s <= INT32_MAX
  /\ Z.of_nat (length (Stack.data s)) = Stack.capacity s
  /\ Stack.count s = Z.of_nat (length xs)
  /\ Stack.count s <= Stack.capacity s
  /\ take (length xs) (Stack.data s) = xs.

(** The queue [q] holds the elements [xs], oldest first: they are the slots
    [head], [head + 1], ... of the buffer, taken modulo its capacity. *)
Definition queue_holds {A : Type} (q : Queue.gg_queue A) (xs : list A) : Prop :=
  0 < Queue.capacity q <= INT32_MAX
  /\ Z.of_nat (length (Queue.data q)) = Queue.capacity q
  /\ 0 <= Queue.head q < Queue.capacity q
  /\ Queue.count q = Z.of_nat (length xs)
  /\ Queue.count q <= Queue.capacity q
  /\ Queue.tail q = (Queue.head q + Queue.count q) mod Queue.capacity q
  /\ forall (i : nat) (x : A),
       xs !! i = Some x ->
       Queue.data q
         !! Z.to_nat ((Queue.head q + Z.of_nat i) mod Queue.capacity q)
       = Some x.

(** A full stack of sixteen numbers, and a full queue whose oldest element
    is in slot 14 of its buffer. *)
Definition full_stack : Stack.gg_stack Z :=
  Stack.Make (map Z.of_nat (seq 1 16)) 16 16 8.

Definition full_queue : Queue.gg_queue Z :=
  Queue.Make (map Z.of_nat (seq 1 16)) 14 14 16 16 8.

Definition full_queue_elements : list Z :=
  [15; 16; 1; 2; 3; 4; 5; 6; 7; 8; 9; 10; 11; 12; 13; 14].

(** ** What a string holds *)

Definition is_byte (c : Z) : Prop := 0 <= c < 256.

(** The string [s] holds the bytes [bs]: its buffer is [bs] followed by the
    terminating zero, and its length is their number. *)
Definition str_holds (s : Str.gg_string) (bs : list Z) : Prop :=
  Str.length s = Z.of_nat (length bs) /\ Str.data s = bs ++ [0].

(** The six-bit digits of a 24-bit group. *)
Definition sextet (k triple : Z) : Z := (triple / 2 ^ (6 * k)) mod 64.

(** A string of five bytes with a zero byte inside, and its concatenation
    with itself. *)
Definition sample_bytes : list Z := [77; 97; 0; 200; 1].

Definition sample_string : Str.gg_string :=
  Str.gg_string_from_buf sample_bytes 5.

Definition sample_concat : Str.gg_string :=
  Str.Make 1 10 (sample_bytes ++ sample_bytes ++ [0]).

Definition sample_key : Str.gg_string :=
  Str.gg_string_from_buf [107; 1; 255] 3.

(** ** Well-formed hash maps *)

(** A bucket that holds an entry of the map. *)
Definition live {V : Type} (e : HashMap.gg_hashmap_entry V) : bool :=
  HashMap.occupied e && negb (HashMap.deleted e).

Definition live_count {V : Type} (bs : list (HashMap.gg_hashmap_entry V))
  : nat :=
  length (List.filter live bs).

(** The capacity is a power of two and the number of buckets, [count] is
    the number of live buckets, and a live bucket has a key and a value. *)
Definition hm_ok {V : Type} (m : HashMap.gg_hashmap V) : Prop :=
  (exists k, 0 <= k /\ HashMap.capacity m = 2 ^ k)
  /\ Z.of_nat (length (HashMap.buckets m)) = HashMap.capacity m
  /\ HashMap.count m = Z.of_nat (live_count (HashMap.buckets m))
  /\ Forall (fun e => live e = true ->
                      is_Some (HashMap.key e) /\ is_Some (HashMap.value e))
            (HashMap.buckets m).

(** [x] has a bit at [i] exactly when [m] has one in [i, i + r). *)
Definition smeared (r x m : Z) : Prop :=
  forall i, 0 <= i ->
    Z.testbit x i = true <-> exists t, 0 <= t < r /\ Z.testbit m (i + t) = true.


(** A map of two entries whose keys start their probes at bucket 12: the
    key of one byte 97 is in bucket 12 and the key of one byte 113 in
    bucket 13. *)
Definition two_key_map : HashMap.gg_hashmap Z :=
  HashMap.Make
    (<[13%nat := HashMap.Entry (Some [113]) (Some 9) true false]>
       (<[12%nat := HashMap.Entry (Some [97]) (Some 7) true false]>
          (replicate 16 HashMap.zero_entry)))
    16 2 8.

(** ** What a linked list holds *)

(** The list of [m] is made of the nodes at the addresses [ps], in this
    order, and these hold the elements [xs]: the addresses are distinct and
    not [NULL], each node points to its two neighbours, [head] and [tail]
    point to the first and to the last node, and [count] is their
    number. *)
Definition dll {A : Type} (m : LinkedList.memory A) (ps : list Z)
    (xs : list A) : Prop :=
  length ps = length xs
  /\ NoDup ps
  /\ (0 ∉ ps)
  /\ LinkedList.head (LinkedList.list m) = default 0 (ps !! 0%nat)
  /\ LinkedList.tail (LinkedList.list m) = default 0 (last ps)
  /\ LinkedList.count (LinkedList.list m) = Z.of_nat (length xs)
  /\ forall (i : nat) (p : Z) (x : A),
       ps !! i = Some p -> xs !! i = Some x ->
       LinkedList.nodes m p
       = Some (LinkedList.Node x (default 0 (ps !! S i))
                 (match i with O => 0 | S j => default 0 (ps !! j) end)).

(** From [m] to [m'] the node at [p] has been given back to the host, and
    no other: [p] had a node, and the addresses without a node in [m'] are
    [p] and the addresses without a node in [m]. *)
Definition released {A : Type} (m m' : LinkedList.memory A) (p : Z) : Prop :=
  LinkedList.nodes m p <> None
  /\ forall a, LinkedList.nodes m' a = None
               <-> a = p \/ LinkedList.nodes m a = None.

Definition list_holds {A : Type} (m : LinkedList.memory A) (xs : list A)
  : Prop :=
  exists ps, dll m ps xs.

(** A list of two numbers, in the nodes at 4096 and 8192. *)
Definition sample_list : LinkedList.memory Z :=
  LinkedList.Mem (LinkedList.Make 4096 8192 2 8)
    (fun a => if a =? 4096 then Some (LinkedList.Node 10 8192 0)
              else if a =? 8192 then Some (LinkedList.Node 20 0 4096)
              else None).
(** * Properties *)

(** ** Arithmetic of [size_t] *)

Lemma wrap_small (x : Z) : 0 <= x < SIZE_MOD -> wrap x = x.
Proof. intros H. unfold wrap. apply Z.mod_small. exact H. Qed.

Lemma wrap_range (x : Z) : 0 <= wrap x < SIZE_MOD.
Proof. unfold wrap. apply Z.mod_pos_bound. reflexivity. Qed.

Lemma wrap_add_l (x y : Z) : wrap (wrap x + y) = wrap (x + y).
Proof. unfold wrap. rewrite Zplus_mod_idemp_l. reflexivity. Qed.

Lemma SIZE_MOD_val : SIZE_MOD = 18446744073709551616.
Proof. reflexivity. Qed.

(** ** Explicit release of [NULL] *)

(** C10: [gg_free(NULL)], and so [Memory_free(NULL)], returns at once: the
    registry (list, [total_allocated] and every other field), the memory,
    the calls made to the host's [free] and the error stream are what they
    were. *)
Theorem gg_free_null (w : world) :
  gg_free 0 w = w /\ Memory_free 0 w = w.
Proof. split; reflexivity. Qed.

(** ** The root vector *)

Lemma add_root_full (root_ptr : Z) (w : world) :
  GG_GC_MAX_ROOTS <= root_count (gc w) ->
  gg_gc_add_root root_ptr w = fprintf_stderr root_overflow_warning w.
Proof.
  intros H. unfold gg_gc_add_root.
  destruct (Z.leb_spec GG_GC_MAX_ROOTS (root_count (gc w))); [reflexivity | lia].
Qed.

Lemma add_root_room (root_ptr : Z) (w : world) :
  root_count (gc w) < GG_GC_MAX_ROOTS ->
  gc (gg_gc_add_root root_ptr w)
  = Registry (heap (gc w))
             (<[Z.to_nat (root_count (gc w)) := root_ptr]> (roots (gc w)))
             (root_count (gc w) + 1) (alloc_count (gc w)) (threshold (gc w))
             (total_allocated (gc w)) (total_collected (gc w))
             (collections (gc w)) (memory_limit (gc w))
  /\ stderr (gg_gc_add_root root_ptr w) = stderr w
  /\ freed (gg_gc_add_root root_ptr w) = freed w
  /\ mem (gg_gc_add_root root_ptr w) = mem w.
Proof.
  intros H. unfold gg_gc_add_root.
  destruct (Z.leb_spec GG_GC_MAX_ROOTS (root_count (gc w))); [lia |].
  repeat split.
Qed.

(** C8: at capacity a call writes exactly one diagnostic to [stderr] and
    returns with the registry (hence the root set) as it was; below capacity
    it writes nothing, appends the root to the registered roots and
    increases [root_count] by one.  The array [roots] has
    [GG_GC_MAX_ROOTS] entries. *)
Theorem gg_gc_add_root_capacity (root_ptr : Z) (w : world) :
  length (roots (gc w)) = Z.to_nat GG_GC_MAX_ROOTS ->
  let w' := gg_gc_add_root root_ptr w in
  (root_count (gc w) = GG_GC_MAX_ROOTS ->
     stderr w' = stderr w ++ [root_overflow_warning]
     /\ gc w' = gc w
     /\ active_roots (gc w') = active_roots (gc w))
  /\ (0 <= root_count (gc w) < GG_GC_MAX_ROOTS ->
     stderr w' = stderr w
     /\ active_roots (gc w') = active_roots (gc w) ++ [root_ptr]
     /\ root_count (gc w') = root_count (gc w) + 1
     /\ heap (gc w') = heap (gc w)).
Proof.
  intros Hlen w'. split.
  - intros Hfull. subst w'. rewrite add_root_full by lia.
    repeat split.
  - intros [Hlo Hhi]. subst w'.
    destruct (add_root_room root_ptr w Hhi) as (Hg & Herr & _ & _).
    split; [exact Herr |].
    rewrite Hg. unfold active_roots. simpl.
    repeat split.
    assert (Hn : (Z.to_nat (root_count (gc w)) < length (roots (gc w)))%nat)
      by (rewrite Hlen; apply Z2Nat.inj_lt; lia).
    replace (Z.to_nat (root_count (gc w) + 1))
      with (S (Z.to_nat (root_count (gc w)))) by lia.
    rewrite (take_S_r _ _ root_ptr).
    + rewrite take_insert_ge by lia. reflexivity.
    + apply list_lookup_insert_eq. exact Hn.
Qed.

Lemma gg_gc_add_root_capacity_witness :
  (stderr (gg_gc_add_root 32 full_world) = [root_overflow_warning]
   /\ gc (gg_gc_add_root 32 full_world) = gc full_world
   /\ active_roots (gc (gg_gc_add_root 32 full_world))
      = active_roots (gc full_world))
  /\ (stderr (gg_gc_add_root 32 fresh_world) = []
      /\ active_roots (gc (gg_gc_add_root 32 fresh_world)) = [32]
      /\ root_count (gc (gg_gc_add_root 32 fresh_world)) = 1
      /\ heap (gc (gg_gc_add_root 32 fresh_world)) = []).
Proof.
  split.
  - destruct (gg_gc_add_root_capacity 32 full_world) as [Hfull _];
      [reflexivity |].
    apply Hfull. reflexivity.
  - destruct (gg_gc_add_root_capacity 32 fresh_world) as [_ Hroom];
      [reflexivity |].
    apply Hroom. cbn. unfold GG_GC_MAX_ROOTS. lia.
Defined.

(** ** Headers and mark bits *)

Lemma header_at_Some (a : Z) (hp : list gg_gc_header) (obj : gg_gc_header) :
  header_at a hp = Some obj -> obj ∈ hp /\ addr obj = a.
Proof.
  unfold header_at. induction hp as [|o hp IH]; simpl; [discriminate |].
  destruct (Z.eqb_spec (addr o) a) as [E | E].
  - intros [= <-]. split; [left | exact E].
  - intros H. destruct (IH H) as [Hin Ha]. split; [right; exact Hin | exact Ha].
Qed.

Lemma header_at_None (a : Z) (hp : list gg_gc_header) :
  header_at a hp = None <-> a ∉ map addr hp.
Proof.
  unfold header_at. induction hp as [|o hp IH]; simpl.
  - split; [intros _ H; inversion H | reflexivity].
  - destruct (Z.eqb_spec (addr o) a) as [E | E].
    + split; [discriminate | intros H; exfalso; apply H; subst a; left].
    + rewrite IH. rewrite not_elem_of_cons. split; [auto | tauto].
Qed.

Lemma header_at_NoDup (hp : list gg_gc_header) (obj : gg_gc_header) :
  NoDup (map addr hp) -> obj ∈ hp -> header_at (addr obj) hp = Some obj.
Proof.
  unfold header_at. induction hp as [|o hp IH]; simpl; intros Hnd Hin.
  - inversion Hin.
  - apply NoDup_cons in Hnd as [Hnotin Hnd].
    destruct (Z.eqb_spec (addr o) (addr obj)) as [E | E].
    + apply elem_of_cons in Hin as [-> | Hin]; [reflexivity |].
      exfalso. apply Hnotin. rewrite E. apply list_elem_of_fmap_2. exact Hin.
    + apply elem_of_cons in Hin as [-> | Hin]; [congruence | auto].
Qed.

Lemma set_marked_shape (h v : Z) (hp : list gg_gc_header) :
  shape (set_marked h v hp) = shape hp.
Proof.
  unfold set_marked, shape. induction hp as [|o hp IH]; simpl; [reflexivity |].
  rewrite IH. destruct (addr o =? h); reflexivity.
Qed.

Lemma shape_addr (hp hp' : list gg_gc_header) :
  shape hp' = shape hp -> map addr hp' = map addr hp.
Proof.
  unfold shape. revert hp'. induction hp as [|o hp IH]; intros [|o' hp']; simpl;
    try discriminate; [reflexivity |].
  intros [= Ha _ Hrest]. rewrite Ha, (IH _ Hrest). reflexivity.
Qed.

Lemma shape_size (hp hp' : list gg_gc_header) :
  shape hp' = shape hp -> map size hp' = map size hp.
Proof.
  unfold shape. revert hp'. induction hp as [|o hp IH]; intros [|o' hp']; simpl;
    try discriminate; [reflexivity |].
  intros [= _ Hs Hrest]. rewrite Hs, (IH _ Hrest). reflexivity.
Qed.

Lemma header_at_set_marked (a h v : Z) (hp : list gg_gc_header) :
  header_at a (set_marked h v hp)
  = match header_at a hp with
    | Some obj => Some (if addr obj =? h then Header (addr obj) (size obj) v
                        else obj)
    | None => None
    end.
Proof.
  unfold header_at, set_marked. induction hp as [|o hp IH]; simpl; [reflexivity |].
  destruct (Z.eqb_spec (addr o) h) as [E | E]; simpl;
    destruct (Z.eqb_spec (addr o) a) as [E' | E']; try exact IH.
  - destruct (Z.eqb_spec (addr o) h); [reflexivity | contradiction].
  - destruct (Z.eqb_spec (addr o) h); [contradiction | reflexivity].
Qed.

Lemma marked_at_set_marked_eq (h : Z) (hp : list gg_gc_header) :
  h ∈ map addr hp -> marked_at h (set_marked h 1 hp) = 1.
Proof.
  intros Hin. unfold marked_at. rewrite header_at_set_marked.
  destruct (header_at h hp) as [obj|] eqn:E.
  - apply header_at_Some in E as [_ E]. rewrite E, Z.eqb_refl. reflexivity.
  - apply header_at_None in E. contradiction.
Qed.

Lemma marked_at_set_marked_ne (a h v : Z) (hp : list gg_gc_header) :
  a <> h -> marked_at a (set_marked h v hp) = marked_at a hp.
Proof.
  intros Hne. unfold marked_at. rewrite header_at_set_marked.
  destruct (header_at a hp) as [obj|] eqn:E; [| reflexivity].
  apply header_at_Some in E as [_ E].
  destruct (Z.eqb_spec (addr obj) h); [congruence | reflexivity].
Qed.

(** ** A proof rule for the mark phase

    A relation between mark states that is reflexive, transitive and holds
    across the marking of one unmarked header of the list holds across
    [gg_gc_mark_object] and [gg_gc_mark]. *)
Section MarkRule.
Variable m : Z -> Z.
Variable R : mark_state -> mark_state -> Prop.
Hypothesis R_refl : forall s, R s s.
Hypothesis R_trans : forall s1 s2 s3, R s1 s2 -> R s2 s3 -> R s1 s3.
Hypothesis R_mark : forall (s : mark_state) h obj,
    header_at h (fst s) = Some obj -> marked obj = 0 ->
    R s (set_marked h 1 (fst s), snd s ++ [h]).

Lemma scan_body_rule (recurse : Z -> mark_state -> option mark_state) :
  (forall t s s', recurse t s = Some s' -> R s s') ->
  forall words s s', scan_body recurse words s = Some s' -> R s s'.
Proof.
  intros Hrec words. induction words as [|x words IH]; simpl; intros s s' H.
  - injection H as <-. apply R_refl.
  - destruct (x =? 0).
    + apply IH. exact H.
    + destruct (gg_gc_find_header (fst s) x) as [t|]; [| apply IH; exact H].
      destruct (marked_at t (fst s) =? 0); [| apply IH; exact H].
      destruct (recurse t s) as [s1|] eqn:E; [| discriminate].
      apply R_trans with s1; [apply (Hrec _ _ _ E) | apply IH; exact H].
Qed.

Lemma gg_gc_mark_object_rule (depth : nat) :
  forall h s s', gg_gc_mark_object depth m h s = Some s' -> R s s'.
Proof.
  induction depth as [|d IH]; intros h s s' H; simpl in H;
    destruct (h =? 0); try (injection H as <-; apply R_refl);
    destruct (header_at h (fst s)) as [obj|] eqn:E;
    try (injection H as <-; apply R_refl);
    destruct (Z.eqb_spec (marked obj) 0) as [E0 | E0]; simpl in H;
    try (injection H as <-; apply R_refl); try discriminate.
  apply R_trans with (set_marked h 1 (fst s), snd s ++ [h]).
  - apply R_mark with obj; assumption.
  - apply (scan_body_rule (gg_gc_mark_object d m) IH _ _ _ H).
Qed.

Lemma mark_roots_rule (depth : nat) :
  forall rs s s', mark_roots depth m rs s = Some s' -> R s s'.
Proof.
  intros rs. induction rs as [|r rs IH]; simpl; intros s s' H.
  - injection H as <-. apply R_refl.
  - destruct (r =? 0); [apply IH; exact H |].
    destruct (load m r =? 0); [apply IH; exact H |].
    destruct (gg_gc_find_header (fst s) (load m r)) as [t|];
      [| apply IH; exact H].
    destruct (gg_gc_mark_object depth m t s) as [s1|] eqn:E; [| discriminate].
    apply R_trans with s1;
      [apply (gg_gc_mark_object_rule _ _ _ _ E) | apply IH; exact H].
Qed.
End MarkRule.

(** ** What the mark phase leaves alone, and what it only increases *)

Lemma count_unmarked_set_marked (h : Z) (hp : list gg_gc_header) :
  (count_unmarked (set_marked h 1 hp) <= count_unmarked hp)%nat.
Proof.
  unfold count_unmarked, set_marked.
  induction hp as [|o hp IH]; simpl; [lia |].
  destruct (addr o =? h); simpl; destruct (marked o =? 0); simpl; lia.
Qed.

Lemma count_unmarked_set_marked_lt (h : Z) (hp : list gg_gc_header) obj :
  header_at h hp = Some obj -> marked obj = 0 ->
  (count_unmarked (set_marked h 1 hp) < count_unmarked hp)%nat.
Proof.
  unfold header_at. induction hp as [|o hp IH]; simpl; [discriminate |].
  intros H H0. pose proof (count_unmarked_set_marked h hp) as Hle.
  unfold count_unmarked, set_marked in *. simpl.
  destruct (Z.eqb_spec (addr o) h) as [E | E]; simpl.
  - injection H as ->. rewrite H0. simpl. lia.
  - specialize (IH H H0). destruct (marked o =? 0); simpl; lia.
Qed.

Lemma same_shape_rule (m : Z -> Z) (depth : nat) h s s' :
  gg_gc_mark_object depth m h s = Some s' -> same_shape s s'.
Proof.
  apply gg_gc_mark_object_rule; unfold same_shape.
  - reflexivity.
  - congruence.
  - intros s0 h0 obj _ _. simpl. apply set_marked_shape.
Qed.

Lemma marks_grow_mark (s : mark_state) h :
  marks_grow s (set_marked h 1 (fst s), snd s ++ [h]).
Proof.
  intros a Ha. simpl. destruct (Z.eq_dec a h) as [-> | Hne].
  - rewrite marked_at_set_marked_eq; [lia |].
    destruct (header_at h (fst s)) eqn:E.
    + apply header_at_Some in E as [Hin <-]. apply list_elem_of_fmap_2, Hin.
    + unfold marked_at in Ha. rewrite E in Ha. contradiction.
  - rewrite marked_at_set_marked_ne by exact Hne. exact Ha.
Qed.

Lemma marks_grow_rule (m : Z -> Z) (depth : nat) h s s' :
  gg_gc_mark_object depth m h s = Some s' -> marks_grow s s'.
Proof.
  apply gg_gc_mark_object_rule; unfold marks_grow.
  - auto.
  - eauto.
  - intros s0 h0 obj _ _. apply marks_grow_mark.
Qed.

Lemma unmarked_shrink_rule (m : Z -> Z) (depth : nat) h s s' :
  gg_gc_mark_object depth m h s = Some s' -> unmarked_shrink s s'.
Proof.
  apply gg_gc_mark_object_rule; unfold unmarked_shrink.
  - lia.
  - lia.
  - intros s0 h0 obj _ _. simpl. apply count_unmarked_set_marked.
Qed.

Lemma log_marked_mark (s : mark_state) h obj :
  header_at h (fst s) = Some obj -> marked obj = 0 ->
  log_marked s -> log_marked (set_marked h 1 (fst s), snd s ++ [h]).
Proof.
  intros E E0 [Hnd Hlog]. split; simpl.
  - apply NoDup_app. split; [exact Hnd |]. split; [| apply NoDup_singleton].
    intros a Ha Hh. apply list_elem_of_singleton in Hh as ->.
    apply (Hlog _ Ha). unfold marked_at. rewrite E. exact E0.
  - intros a Ha. apply elem_of_app in Ha as [Ha | Ha].
    + apply (marks_grow_mark s h). auto.
    + apply list_elem_of_singleton in Ha as ->.
      rewrite marked_at_set_marked_eq; [lia |].
      apply header_at_Some in E as [Hin <-]. apply list_elem_of_fmap_2, Hin.
Qed.

Lemma log_marked_rule (m : Z -> Z) (depth : nat) h s s' :
  gg_gc_mark_object depth m h s = Some s' -> log_marked s -> log_marked s'.
Proof.
  apply (gg_gc_mark_object_rule m (fun s s' => log_marked s -> log_marked s')).
  - auto.
  - auto.
  - intros s0 h0 obj. apply log_marked_mark.
Qed.

(** ** The depth of the recursion *)

Lemma scan_body_enough (m : Z -> Z) (d : nat) :
  (forall h s, (count_unmarked (fst s) <= d)%nat ->
               exists s', gg_gc_mark_object d m h s = Some s') ->
  forall words s, (count_unmarked (fst s) <= d)%nat ->
                  exists s', scan_body (gg_gc_mark_object d m) words s = Some s'.
Proof.
  intros Hrec words. induction words as [|x words IH]; simpl; intros s Hs.
  - eauto.
  - destruct (x =? 0); [apply IH; exact Hs |].
    destruct (gg_gc_find_header (fst s) x) as [t|]; [| apply IH; exact Hs].
    destruct (marked_at t (fst s) =? 0); [| apply IH; exact Hs].
    destruct (Hrec t s Hs) as [s1 E]. rewrite E. apply IH.
    apply unmarked_shrink_rule in E. unfold unmarked_shrink in E. lia.
Qed.

Lemma gg_gc_mark_object_enough (m : Z -> Z) (depth : nat) :
  forall h s, (count_unmarked (fst s) <= depth)%nat ->
              exists s', gg_gc_mark_object depth m h s = Some s'.
Proof.
  induction depth as [|d IH]; intros h s Hs; simpl;
    destruct (h =? 0); eauto;
    destruct (header_at h (fst s)) as [obj|] eqn:E; eauto;
    destruct (Z.eqb_spec (marked obj) 0) as [E0 | E0]; simpl; eauto;
    pose proof (count_unmarked_set_marked_lt _ _ _ E E0) as Hlt.
  - lia.
  - apply scan_body_enough; [exact IH | simpl; lia].
Qed.

Lemma mark_roots_enough (m : Z -> Z) (depth : nat) :
  forall rs s, (count_unmarked (fst s) <= depth)%nat ->
               exists s', mark_roots depth m rs s = Some s'.
Proof.
  intros rs. induction rs as [|r rs IH]; simpl; intros s Hs.
  - eauto.
  - destruct (r =? 0); [apply IH; exact Hs |].
    destruct (load m r =? 0); [apply IH; exact Hs |].
    destruct (gg_gc_find_header (fst s) (load m r)) as [t|];
      [| apply IH; exact Hs].
    destruct (gg_gc_mark_object_enough m depth t s Hs) as [s1 E]. rewrite E.
    apply IH. apply unmarked_shrink_rule in E. unfold unmarked_shrink in E. lia.
Qed.

Lemma count_unmarked_le_length (hp : list gg_gc_header) :
  (count_unmarked hp <= length hp)%nat.
Proof. unfold count_unmarked. apply List.filter_length_le. Qed.

(** The stack that [gg_gc_mark] is given is deep enough on every world. *)
Lemma gg_gc_mark_depth_enough (w : world) :
  exists s', gg_gc_mark_depth (length (heap (gc w))) w = Some s'.
Proof.
  unfold gg_gc_mark_depth. apply mark_roots_enough. simpl.
  apply count_unmarked_le_length.
Qed.

Lemma gg_gc_mark_eq (w : world) :
  exists s', gg_gc_mark_depth (length (heap (gc w))) w = Some s'
             /\ gg_gc_mark w = set_gc (set_heap (fst s') (gc w)) w.
Proof.
  destruct (gg_gc_mark_depth_enough w) as [s' E]. exists s'.
  split; [exact E |]. unfold gg_gc_mark. rewrite E. reflexivity.
Qed.

(** ** The mark phase as a whole *)

Lemma mark_roots_same_shape (m : Z -> Z) (depth : nat) rs s s' :
  mark_roots depth m rs s = Some s' -> same_shape s s'.
Proof.
  apply mark_roots_rule; unfold same_shape.
  - reflexivity.
  - congruence.
  - intros s0 h0 obj _ _. simpl. apply set_marked_shape.
Qed.

Lemma mark_roots_log_marked (m : Z -> Z) (depth : nat) rs s s' :
  mark_roots depth m rs s = Some s' -> log_marked s -> log_marked s'.
Proof.
  apply (mark_roots_rule m (fun s s' => log_marked s -> log_marked s')).
  - auto.
  - auto.
  - intros s0 h0 obj. apply log_marked_mark.
Qed.

Lemma mark_roots_marks_grow (m : Z -> Z) (depth : nat) rs s s' :
  mark_roots depth m rs s = Some s' -> marks_grow s s'.
Proof.
  apply mark_roots_rule; unfold marks_grow.
  - auto.
  - eauto.
  - intros s0 h0 obj _ _. apply marks_grow_mark.
Qed.

Lemma gg_gc_mark_fields (w : world) :
  let w' := gg_gc_mark w in
  map addr (heap (gc w')) = map addr (heap (gc w))
  /\ map size (heap (gc w')) = map size (heap (gc w))
  /\ gc w' = set_heap (heap (gc w')) (gc w)
  /\ mem w' = mem w /\ freed w' = freed w /\ stderr w' = stderr w.
Proof.
  destruct (gg_gc_mark_eq w) as (s' & E & ->). simpl.
  apply mark_roots_same_shape in E. unfold same_shape in E. simpl in E.
  repeat split; [apply shape_addr, E | apply shape_size, E].
Qed.

Lemma length_of_map_addr (hp hp' : list gg_gc_header) :
  map addr hp' = map addr hp -> length hp' = length hp.
Proof.
  intros H. rewrite <- (length_map addr hp'), H. apply length_map.
Qed.

Lemma sum_sizes_of_map_size (hp hp' : list gg_gc_header) :
  map size hp' = map size hp -> sum_sizes hp' = sum_sizes hp.
Proof.
  revert hp'. induction hp as [|o hp IH]; intros [|o' hp']; simpl;
    try discriminate; [reflexivity |].
  intros [= Ho Hrest]. rewrite Ho, (IH _ Hrest). reflexivity.
Qed.

(** ** The sweep phase *)

Lemma sweep_loop_kept (hp : list gg_gc_header) (ta tc : Z) (fr : list Z) :
  fst (sweep_loop hp ta tc fr) = survivors hp.
Proof.
  unfold survivors. revert ta tc fr.
  induction hp as [|o hp IH]; intros ta tc fr; simpl; [reflexivity |].
  destruct (marked o =? 0); simpl; [apply IH |].
  specialize (IH ta tc fr). destruct (sweep_loop hp ta tc fr) as [kept c].
  simpl in *. rewrite IH. reflexivity.
Qed.

Lemma sweep_loop_freed (hp : list gg_gc_header) (ta tc : Z) (fr : list Z) :
  snd (snd (sweep_loop hp ta tc fr)) = fr ++ map addr (garbage hp).
Proof.
  unfold garbage. revert ta tc fr.
  induction hp as [|o hp IH]; intros ta tc fr; simpl.
  - rewrite app_nil_r. reflexivity.
  - destruct (marked o =? 0); simpl.
    + rewrite IH, <- app_assoc. reflexivity.
    + specialize (IH ta tc fr). destruct (sweep_loop hp ta tc fr) as [kept c].
      exact IH.
Qed.

(** With [ta] the sizes of the headers kept so far ([before]) plus those of
    the headers still to visit, the loop ends with [total_allocated] at the
    sizes of the headers it kept. *)
Lemma sweep_loop_total (hp : list gg_gc_header) :
  Forall (fun obj => is_size_t (size obj)) hp ->
  forall before ta tc fr,
    0 <= before -> ta = before + sum_sizes hp -> ta < SIZE_MOD ->
    fst (fst (snd (sweep_loop hp ta tc fr))) = before + sum_sizes (survivors hp).
Proof.
  unfold survivors.
  induction 1 as [|o hp [Ho1 Ho2] Hhp IH]; intros before ta tc fr Hb Hta Hlt;
    simpl in *.
  - lia.
  - assert (0 <= sum_sizes hp).
    { clear -Hhp. induction Hhp as [|o hp [H1 _] _ IH]; simpl; lia. }
    destruct (marked o =? 0); simpl.
    + apply IH; [exact Hb | | ].
      * rewrite wrap_small; unfold is_size_t in *; lia.
      * apply wrap_range.
    + specialize (IH (before + size o) ta tc fr).
      destruct (sweep_loop hp ta tc fr) as [kept c]. simpl in *.
      rewrite IH; lia.
Qed.

Lemma survivors_clear (hp : list gg_gc_header) : marks_clear (survivors hp).
Proof.
  unfold marks_clear, survivors. apply Forall_forall.
  intros o Ho. apply list_elem_of_fmap in Ho as (o' & -> & _). reflexivity.
Qed.

Lemma survivors_length (hp : list gg_gc_header) :
  (length (survivors hp) <= length hp)%nat.
Proof.
  unfold survivors. rewrite length_map. apply List.filter_length_le.
Qed.

Lemma survivors_sizes (hp : list gg_gc_header) :
  Forall (fun obj => is_size_t (size obj)) hp ->
  Forall (fun obj => is_size_t (size obj)) (survivors hp).
Proof.
  unfold survivors. induction 1 as [|o hp Ho Hhp IH]; simpl; [constructor |].
  destruct (marked o =? 0); simpl; [exact IH | constructor; assumption].
Qed.

Lemma gg_gc_sweep_fields (w : world) :
  let w' := gg_gc_sweep w in
  heap (gc w') = survivors (heap (gc w))
  /\ freed w' = freed w ++ map addr (garbage (heap (gc w)))
  /\ roots (gc w') = roots (gc w) /\ root_count (gc w') = root_count (gc w)
  /\ alloc_count (gc w') = alloc_count (gc w)
  /\ threshold (gc w') = threshold (gc w)
  /\ collections (gc w') = collections (gc w)
  /\ memory_limit (gc w') = memory_limit (gc w)
  /\ mem w' = mem w /\ stderr w' = stderr w.
Proof.
  unfold gg_gc_sweep.
  pose proof (sweep_loop_kept (heap (gc w)) (total_allocated (gc w))
                              (total_collected (gc w)) (freed w)) as Hk.
  pose proof (sweep_loop_freed (heap (gc w)) (total_allocated (gc w))
                               (total_collected (gc w)) (freed w)) as Hf.
  destruct (sweep_loop _ _ _ _) as [kept [[ta tc] fr]]. simpl in *.
  repeat split; assumption.
Qed.

Lemma gg_gc_sweep_total (w : world) :
  sizes_typed (gc w) -> bytes_accounted (gc w) ->
  total_allocated (gc (gg_gc_sweep w)) = sum_sizes (survivors (heap (gc w))).
Proof.
  intros [Hs Ht] Hacc. unfold gg_gc_sweep.
  pose proof (sweep_loop_total (heap (gc w)) Hs 0 (total_allocated (gc w))
                               (total_collected (gc w)) (freed w)) as Hk.
  destruct (sweep_loop _ _ _ _) as [kept [[ta tc] fr]]. simpl in *.
  apply Hk; [lia | exact Hacc | apply Ht].
Qed.

(** ** A collection cycle *)

Lemma count_live_length (hp : list gg_gc_header) :
  forall n, 0 <= n -> n + Z.of_nat (length hp) < SIZE_MOD ->
            count_live hp n = n + Z.of_nat (length hp).
Proof.
  induction hp as [|o hp IH]; intros n Hn Hlt; simpl in *; [lia |].
  rewrite wrap_small by lia. rewrite IH; lia.
Qed.

Lemma gg_gc_collect_fields (w : world) :
  let w' := gg_gc_collect w in
  heap (gc w') = survivors (heap (gc (gg_gc_mark w)))
  /\ total_allocated (gc w') = total_allocated (gc (gg_gc_sweep (gg_gc_mark w)))
  /\ total_collected (gc w') = total_collected (gc (gg_gc_sweep (gg_gc_mark w)))
  /\ roots (gc w') = roots (gc w) /\ root_count (gc w') = root_count (gc w)
  /\ alloc_count (gc w') = 0
  /\ collections (gc w') = wrap (collections (gc w) + 1)
  /\ threshold (gc w')
     = (if threshold (gc w) / 2 <? count_live (heap (gc w')) 0
        then wrap (threshold (gc w) * 2) else threshold (gc w))
  /\ memory_limit (gc w') = memory_limit (gc w)
  /\ mem w' = mem w /\ stderr w' = stderr w
  /\ freed w' = freed w ++ map addr (garbage (heap (gc (gg_gc_mark w)))).
Proof.
  destruct (gg_gc_sweep_fields (gg_gc_mark w))
    as (Hh & Hf & Hr & Hrc & Hac & Hth & Hc & Hml & Hm & He).
  destruct (gg_gc_mark_fields w) as (_ & _ & Hg & Hm' & Hf' & He').
  simpl in *. rewrite Hg in Hr, Hrc, Hac, Hth, Hc, Hml. simpl in *.
  unfold gg_gc_collect. simpl.
  repeat split; try congruence.
  rewrite Hth. reflexivity.
Qed.

#[local] Arguments gg_gc_collect : simpl never.
#[local] Arguments gg_gc_mark : simpl never.
#[local] Arguments gg_gc_sweep : simpl never.

Lemma gg_gc_collect_length (w : world) :
  (length (heap (gc (gg_gc_collect w))) <= length (heap (gc w)))%nat.
Proof.
  destruct (gg_gc_collect_fields w) as (-> & _).
  destruct (gg_gc_mark_fields w) as (Ha & _).
  rewrite <- (length_of_map_addr _ _ Ha). apply survivors_length.
Qed.

(** C5: a cycle ends with the allocation counter at zero and the cycle
    counter one higher, and the threshold is doubled when the objects left
    on the list by the sweep are more than [threshold / 2] and is left as it
    was otherwise.  The counters are [size_t] values that do not wrap: the
    list has fewer than [2^64] headers, and the cycle counter plus one and
    twice the threshold fit the type. *)
Theorem gg_gc_collect_bookkeeping (w : world) :
  Z.of_nat (length (heap (gc w))) < SIZE_MOD ->
  0 <= collections (gc w) -> collections (gc w) + 1 < SIZE_MOD ->
  0 <= threshold (gc w) -> threshold (gc w) * 2 < SIZE_MOD ->
  let w' := gg_gc_collect w in
  let live_count := Z.of_nat (length (heap (gc w'))) in
  alloc_count (gc w') = 0
  /\ collections (gc w') = collections (gc w) + 1
  /\ (threshold (gc w) / 2 < live_count ->
      threshold (gc w') = threshold (gc w) * 2)
  /\ (live_count <= threshold (gc w) / 2 ->
      threshold (gc w') = threshold (gc w)).
Proof.
  intros Hlen Hc0 Hc1 Ht0 Ht1 w' live_count.
  destruct (gg_gc_collect_fields w)
    as (_ & _ & _ & _ & _ & Hac & Hc & Hth & _).
  fold w' in Hac, Hc, Hth.
  pose proof (gg_gc_collect_length w) as Hle. fold w' in Hle.
  rewrite count_live_length in Hth by lia.
  rewrite Z.add_0_l in Hth. fold live_count in Hth.
  split; [exact Hac |]. split; [rewrite Hc; apply wrap_small; lia |].
  destruct (Z.ltb_spec (threshold (gc w) / 2) live_count) as [Hlt | Hge].
  - split; [intros _; rewrite Hth; apply wrap_small; lia | lia].
  - split; [lia | intros _; exact Hth].
Qed.

Lemma gg_gc_collect_bookkeeping_witness :
  let w' := gg_gc_collect sample_world in
  alloc_count (gc w') = 0
  /\ collections (gc w') = collections (gc sample_world) + 1
  /\ (threshold (gc sample_world) / 2 < Z.of_nat (length (heap (gc w'))) ->
      threshold (gc w') = threshold (gc sample_world) * 2)
  /\ (Z.of_nat (length (heap (gc w'))) <= threshold (gc sample_world) / 2 ->
      threshold (gc w') = threshold (gc sample_world)).
Proof.
  apply (gg_gc_collect_bookkeeping sample_world); vm_compute; congruence.
Defined.

(** ** Byte accounting *)

Lemma sum_sizes_nonneg (hp : list gg_gc_header) :
  Forall (fun obj => is_size_t (size obj)) hp -> 0 <= sum_sizes hp.
Proof. induction 1 as [|o hp [H1 _] _ IH]; simpl; lia. Qed.

Lemma sum_sizes_survivors (hp : list gg_gc_header) :
  Forall (fun obj => is_size_t (size obj)) hp ->
  sum_sizes (survivors hp) <= sum_sizes hp.
Proof.
  unfold survivors. induction 1 as [|o hp [H1 _] _ IH]; simpl; [lia |].
  destruct (marked o =? 0); simpl; lia.
Qed.

Lemma sizes_of_map_size (hp hp' : list gg_gc_header) :
  map size hp' = map size hp ->
  Forall (fun obj => is_size_t (size obj)) hp ->
  Forall (fun obj => is_size_t (size obj)) hp'.
Proof.
  intros H Hhp. revert hp' H.
  induction Hhp as [|o hp Ho _ IH]; intros [|o' hp']; simpl;
    try discriminate; [constructor |].
  intros [= Hsz Hrest]. constructor; [rewrite Hsz; exact Ho | auto].
Qed.

Lemma gg_gc_collect_accounted (w : world) :
  sizes_typed (gc w) -> bytes_accounted (gc w) ->
  sizes_typed (gc (gg_gc_collect w)) /\ bytes_accounted (gc (gg_gc_collect w))
  /\ total_allocated (gc (gg_gc_collect w)) <= total_allocated (gc w).
Proof.
  intros [Hs Ht] Hacc. unfold bytes_accounted, sizes_typed in *.
  destruct (gg_gc_collect_fields w) as (Hh & Hta & _).
  destruct (gg_gc_mark_fields w) as (_ & Hsz & Hg & _).
  assert (Hs' : Forall (fun obj => is_size_t (size obj)) (heap (gc (gg_gc_mark w))))
    by (apply (sizes_of_map_size _ _ Hsz Hs)).
  assert (Hsum : sum_sizes (heap (gc (gg_gc_mark w))) = sum_sizes (heap (gc w)))
    by (apply sum_sizes_of_map_size, Hsz).
  assert (Hta' : total_allocated (gc (gg_gc_mark w)) = total_allocated (gc w))
    by (rewrite Hg; reflexivity).
  rewrite Hta, Hh, gg_gc_sweep_total.
  - pose proof (sum_sizes_survivors _ Hs').
    pose proof (sum_sizes_nonneg _ (survivors_sizes _ Hs')).
    unfold is_size_t in *.
    repeat split; try lia. apply survivors_sizes, Hs'.
  - split; [exact Hs' | rewrite Hta'; exact Ht].
  - unfold bytes_accounted. lia.
Qed.

Lemma unlink_Some (target : Z) (hp hp' : list gg_gc_header) found :
  unlink target hp = Some (found, hp') ->
  exists l1 l2, hp = l1 ++ found :: l2 /\ hp' = l1 ++ l2 /\ addr found = target.
Proof.
  revert hp'. induction hp as [|o hp IH]; simpl; intros hp' H; [discriminate |].
  destruct (Z.eqb_spec (addr o) target) as [E | E].
  - injection H as <- <-. exists [], hp. repeat split. exact E.
  - destruct (unlink target hp) as [[f rest]|]; [| discriminate].
    injection H as <- <-. destruct (IH rest eq_refl) as (l1 & l2 & -> & -> & Ha).
    exists (o :: l1), l2. repeat split. exact Ha.
Qed.

Lemma sum_sizes_app (l1 l2 : list gg_gc_header) :
  sum_sizes (l1 ++ l2) = sum_sizes l1 + sum_sizes l2.
Proof. induction l1 as [|o l1 IH]; simpl; lia. Qed.

Lemma gg_free_accounted (ptr : Z) (w : world) :
  sizes_typed (gc w) -> bytes_accounted (gc w) ->
  sizes_typed (gc (gg_free ptr w)) /\ bytes_accounted (gc (gg_free ptr w)).
Proof.
  intros [Hs Ht] Hacc. unfold gg_free.
  destruct (ptr =? 0); [split; [split |]; assumption |].
  destruct (unlink _ _) as [[found hp']|] eqn:E;
    [| split; [split |]; assumption].
  apply unlink_Some in E as (l1 & l2 & Hhp & -> & _).
  unfold bytes_accounted, sizes_typed, is_size_t in *. simpl.
  rewrite Hhp in Hs, Hacc. rewrite sum_sizes_app in *. simpl in Hacc.
  apply Forall_app in Hs as [Hs1 Hs2]. apply Forall_cons in Hs2 as [Hf Hs2].
  pose proof (sum_sizes_nonneg _ Hs1). pose proof (sum_sizes_nonneg _ Hs2).
  rewrite wrap_small by lia.
  repeat split; try lia. apply Forall_app. split; assumption.
Qed.

Lemma gg_gc_shutdown_heap (w : world) :
  heap (gc (gg_gc_shutdown w)) = []
  /\ total_allocated (gc (gg_gc_shutdown w)) = 0.
Proof.
  unfold gg_gc_shutdown. destruct (shutdown_loop _ _ _). split; reflexivity.
Qed.

(** What [gg_gc_alloc] returns was linked in front of the list of a world
    that is the entry world after some collection cycles. *)
Lemma alloc_block_returned (sz first second : Z) (w : world) p w' :
  alloc_block sz first second w = Returned p w' ->
  exists w0 header,
    (w0 = w \/ w0 = gg_gc_collect w) /\ header <> 0
    /\ link_header header sz
         (calloc_zero header (wrap (sizeof_header + sz)) w0) = Returned p w'.
Proof.
  unfold alloc_block. destruct (Z.eqb_spec first 0) as [E1 | E1].
  - destruct (Z.eqb_spec second 0) as [E2 | E2]; [discriminate |].
    intros H. exists (gg_gc_collect w), second. auto.
  - intros H. exists w, first. auto.
Qed.

Lemma link_header_accounted (header sz : Z) (w : world) p w' :
  sizes_typed (gc w) -> bytes_accounted (gc w) ->
  is_size_t sz -> total_allocated (gc w) + sz < SIZE_MOD ->
  link_header header sz w = Returned p w' ->
  sizes_typed (gc w') /\ bytes_accounted (gc w')
  /\ total_allocated (gc w') = total_allocated (gc w) + sz
  /\ memory_limit (gc w') = memory_limit (gc w).
Proof.
  intros [Hs Ht] Hacc Hsz Hfit [= _ <-].
  unfold sizes_typed, bytes_accounted, is_size_t in *. simpl.
  rewrite wrap_small by lia.
  repeat split; try lia. constructor; [exact Hsz | exact Hs].
Qed.

Lemma collected_from_accounted (w w0 : world) :
  collected_from w w0 ->
  sizes_typed (gc w) -> bytes_accounted (gc w) ->
  sizes_typed (gc w0) /\ bytes_accounted (gc w0)
  /\ total_allocated (gc w0) <= total_allocated (gc w)
  /\ memory_limit (gc w0) = memory_limit (gc w).
Proof.
  intros Hc Hs Hacc. induction Hc as [|w0 _ (Hs0 & Hacc0 & Hle & Hml)].
  - repeat split; try assumption; try apply Hs. lia.
  - destruct (gg_gc_collect_accounted w0 Hs0 Hacc0) as (Hs1 & Hacc1 & Hle1).
    destruct (gg_gc_collect_fields w0) as (_ & _ & _ & _ & _ & _ & _ & _ & Hml1 & _).
    repeat split; try assumption; try apply Hs1; [lia | congruence].
Qed.

(** The world in which [gg_gc_alloc] links the new header: it is the entry
    world after some collection cycles and, when a ceiling is set, the
    request fits under the ceiling there. *)
Lemma gg_gc_alloc_returned (sz first second : Z) (w : world) p w' :
  sizes_typed (gc w) -> bytes_accounted (gc w) ->
  is_size_t sz -> total_allocated (gc w) + sz < SIZE_MOD ->
  gg_gc_alloc sz first second w = Returned p w' ->
  exists w0 header,
    collected_from w w0 /\ header <> 0
    /\ link_header header sz
         (calloc_zero header (wrap (sizeof_header + sz)) w0) = Returned p w'
    /\ (0 < memory_limit (gc w) ->
        total_allocated (gc w0) + sz <= memory_limit (gc w)).
Proof.
  intros Hs Hacc Hsz Hfit. unfold gg_gc_alloc. cbv zeta.
  set (w1 := if threshold (gc w) <=? alloc_count (gc w)
             then gg_gc_collect w else w).
  assert (H1 : collected_from w w1).
  { subst w1. destruct (_ <=? _); repeat constructor. }
  destruct (collected_from_accounted _ _ H1 Hs Hacc) as (Hs1 & Hacc1 & Hle1 & Hml1).
  assert (H2 : collected_from w (gg_gc_collect w1)) by (constructor; exact H1).
  destruct (collected_from_accounted _ _ H2 Hs Hacc) as (Hs2 & Hacc2 & Hle2 & Hml2).
  assert (Hpos : forall v : world, sizes_typed (gc v) -> 0 <= total_allocated (gc v))
    by (intros v [_ [Hv _]]; exact Hv).
  pose proof (Hpos _ Hs1). pose proof (Hpos _ Hs2). destruct Hsz as [Hsz0 Hsz1].
  assert (Hfinish : forall wc : world,
    collected_from w wc -> sizes_typed (gc wc) -> bytes_accounted (gc wc) ->
    (0 < memory_limit (gc w) -> total_allocated (gc wc) + sz <= memory_limit (gc w)) ->
    alloc_block sz first second wc = Returned p w' ->
    exists w0 header,
      collected_from w w0 /\ header <> 0
      /\ link_header header sz
           (calloc_zero header (wrap (sizeof_header + sz)) w0) = Returned p w'
      /\ (0 < memory_limit (gc w) ->
          total_allocated (gc w0) + sz <= memory_limit (gc w))).
  { intros wc Hc Hsc Haccc Hunder Hb.
    apply alloc_block_returned in Hb as (w0 & header & [-> | ->] & Hh & Hl).
    - exists wc, header. auto.
    - exists (gg_gc_collect wc), header.
      destruct (gg_gc_collect_accounted wc Hsc Haccc) as (_ & _ & Hle).
      repeat split; [constructor; exact Hc | exact Hh | exact Hl | ].
      intros Hlim. specialize (Hunder Hlim). lia. }
  destruct (Z.ltb_spec 0 (memory_limit (gc w1))) as [Hlim | Hlim]; cbn [andb].
  - destruct (Z.ltb_spec (memory_limit (gc w1))
                         (wrap (total_allocated (gc w1) + sz))) as [Hov | Hun].
    + destruct (Z.ltb_spec (memory_limit (gc (gg_gc_collect w1)))
                           (wrap (total_allocated (gc (gg_gc_collect w1)) + sz)))
        as [Hov2 | Hun2]; [intros ?; discriminate |].
      apply Hfinish; try assumption.
      rewrite wrap_small in Hun2 by lia. intros _. lia.
    + apply Hfinish; try assumption.
      rewrite wrap_small in Hun by lia. intros _. lia.
  - apply Hfinish; try assumption. lia.
Qed.

(** C3, as the code has it: the sum of the [size] fields along the list is
    [total_allocated] after [gg_gc_init], and [gg_gc_collect], [gg_free],
    [gg_gc_shutdown] and a [gg_gc_alloc] that returns keep it so, for a
    request of [gg_gc_alloc] that added to the counter fits a [size_t].
    The sizes and the counter are [size_t] values. *)
Theorem bytes_accounted_invariant :
  (forall w0, sizes_typed (gc (gg_gc_init w0))
              /\ bytes_accounted (gc (gg_gc_init w0)))
  /\ (forall w, sizes_typed (gc w) -> bytes_accounted (gc w) ->
        (sizes_typed (gc (gg_gc_collect w))
         /\ bytes_accounted (gc (gg_gc_collect w)))
        /\ (forall ptr, sizes_typed (gc (gg_free ptr w))
                        /\ bytes_accounted (gc (gg_free ptr w)))
        /\ (sizes_typed (gc (gg_gc_shutdown w))
            /\ bytes_accounted (gc (gg_gc_shutdown w)))
        /\ (forall sz first second p w',
              is_size_t sz -> total_allocated (gc w) + sz < SIZE_MOD ->
              gg_gc_alloc sz first second w = Returned p w' ->
              sizes_typed (gc w') /\ bytes_accounted (gc w'))).
Proof.
  split.
  - intros w0. unfold sizes_typed, bytes_accounted, is_size_t. simpl.
    rewrite SIZE_MOD_val. split; [split; [constructor | lia] | reflexivity].
  - intros w Hs Hacc. split; [| split; [| split]].
    + split; apply gg_gc_collect_accounted; assumption.
    + intros ptr. apply gg_free_accounted; assumption.
    + destruct (gg_gc_shutdown_heap w) as [Hh Ht].
      unfold sizes_typed, bytes_accounted, is_size_t.
      rewrite Hh, Ht, SIZE_MOD_val.
      split; [split; [constructor | lia] | reflexivity].
    + intros sz first second p w' Hsz Hfit Hret.
      destruct (gg_gc_alloc_returned _ _ _ _ _ _ Hs Hacc Hsz Hfit Hret)
        as (w0 & header & Hc & _ & Hl & _).
      destruct (collected_from_accounted _ _ Hc Hs Hacc) as (Hs0 & Hacc0 & Hle & _).
      destruct (link_header_accounted
                  header sz (calloc_zero header (wrap (sizeof_header + sz)) w0)
                  p w' Hs0 Hacc0 Hsz ltac:(simpl; lia) Hl)
        as (Hs' & Hacc' & _).
      split; assumption.
Qed.

Ltac size_t_facts :=
  unfold sizes_typed, bytes_accounted, is_size_t; rewrite ?SIZE_MOD_val; simpl;
  repeat first [ lia | reflexivity | split | constructor | progress simpl ].

Lemma bytes_accounted_invariant_witness :
  bytes_accounted (gc (gg_gc_collect sample_world))
  /\ bytes_accounted (gc (gg_free 1024 sample_world))
  /\ bytes_accounted (gc (gg_gc_shutdown sample_world))
  /\ bytes_accounted (gc used_world).
Proof.
  destruct bytes_accounted_invariant as [_ Hstep].
  destruct (Hstep sample_world) as ((_ & Hc) & Hf & (_ & Hs) & _);
    [size_t_facts | size_t_facts |].
  destruct (Hstep (gg_gc_set_memory_limit 4096 fresh_world))
    as (_ & _ & _ & Ha); [size_t_facts | size_t_facts |].
  destruct (Ha 64 4096 0 4120 used_world) as [_ Hu];
    [size_t_facts | size_t_facts | reflexivity |].
  split; [exact Hc | split; [apply Hf | split; [exact Hs | exact Hu]]].
Defined.

(** C3, as the claim has it, fails in [used_world], the world of a program
    that allocated 64 bytes: [gg_gc_alloc(SIZE_MAX)] returns, line 95 adds
    the request to [total_allocated] modulo [2^64], and the counter is 63
    while the sizes along the list add up to [2^64 + 63]. *)
Lemma bytes_accounted_lost_by_wrap :
  sizes_typed (gc used_world) /\ bytes_accounted (gc used_world)
  /\ is_size_t SIZE_MAX
  /\ exists p w',
      gg_gc_alloc SIZE_MAX 8192 0 used_world = Returned p w'
      /\ total_allocated (gc w') = 63
      /\ sum_sizes (heap (gc w')) = SIZE_MOD + 63
      /\ ~ bytes_accounted (gc w').
Proof.
  assert (Eh : heap (gc used_world) = [Header 4096 64 0])
    by (vm_compute; reflexivity).
  assert (Et : total_allocated (gc used_world) = 64)
    by (vm_compute; reflexivity).
  split.
  { unfold sizes_typed, is_size_t. rewrite Eh, Et, SIZE_MOD_val.
    split; [| lia]. constructor; [simpl; lia | constructor]. }
  split; [unfold bytes_accounted; rewrite Eh, Et; reflexivity |].
  split; [unfold is_size_t, SIZE_MAX; rewrite SIZE_MOD_val; lia |].
  exists 8216, (world_of (gg_gc_alloc SIZE_MAX 8192 0 used_world)).
  split; [vm_compute; reflexivity |].
  split; [vm_compute; reflexivity |].
  split; [vm_compute; reflexivity |].
  intros H. vm_compute in H. discriminate H.
Qed.

(** ** The memory ceiling *)

Lemma ceiling_exit_world (w : world) (l1 l2 l3 : string) :
  foldl (fun w' line => fprintf_stderr line w') w [l1; l2; l3]
  = World (gc w) (mem w) (freed w) (stderr w ++ [l1; l2; l3]).
Proof.
  unfold fprintf_stderr. simpl. rewrite <- !app_assoc. reflexivity.
Qed.

(** X20: a call made with a ceiling set and a request that added to
    [total_allocated] fits a [size_t]: when the sum is over the ceiling at
    the test of line 63 (that is, in [w1], the world after the collection
    that line 58 runs when the allocation counter has reached the
    threshold), one collection runs; if the sum is still over the ceiling
    in the collected world [w2], the process exits with code 137 after
    writing the three lines of [ceiling_message], which name
    [total_allocated], the ceiling and the request; otherwise the
    allocation goes on from [w2].  A call that returns leaves
    [total_allocated] at most the ceiling. *)
Theorem gg_gc_alloc_ceiling (sz first second : Z) (w : world) :
  sizes_typed (gc w) -> bytes_accounted (gc w) ->
  is_size_t sz -> total_allocated (gc w) + sz < SIZE_MOD ->
  0 < memory_limit (gc w) ->
  let w1 :=
    if threshold (gc w) <=? alloc_count (gc w) then gg_gc_collect w else w in
  let w2 := gg_gc_collect w1 in
  (memory_limit (gc w) < total_allocated (gc w1) + sz ->
     (memory_limit (gc w) < total_allocated (gc w2) + sz ->
        gg_gc_alloc sz first second w
        = Exited 137
            (World (gc w2) (mem w2) (freed w2)
                   (stderr w2
                    ++ ceiling_message (total_allocated (gc w2))
                                       (memory_limit (gc w)) sz)))
     /\ (total_allocated (gc w2) + sz <= memory_limit (gc w) ->
         gg_gc_alloc sz first second w = alloc_block sz first second w2))
  /\ (forall p w', gg_gc_alloc sz first second w = Returned p w' ->
        total_allocated (gc w') <= memory_limit (gc w')
        /\ memory_limit (gc w') = memory_limit (gc w)).
Proof.
  intros Hs Hacc Hsz Hfit Hlim w1 w2. split.
  - assert (H1 : collected_from w w1).
    { subst w1. destruct (_ <=? _); repeat constructor. }
    destruct (collected_from_accounted _ _ H1 Hs Hacc) as (Hs1 & Hacc1 & Hle1 & Hml1).
    assert (H2 : collected_from w w2) by (constructor; exact H1).
    destruct (collected_from_accounted _ _ H2 Hs Hacc) as (Hs2 & Hacc2 & Hle2 & Hml2).
    destruct Hs1 as [_ [Hp1 _]]. destruct Hs2 as [_ [Hp2 _]].
    destruct Hsz as [Hsz0 Hsz1].
    intros Hover. unfold gg_gc_alloc. cbv zeta. fold w1. fold w2.
    rewrite Hml1, Hml2.
    destruct (Z.ltb_spec 0 (memory_limit (gc w))) as [_ | ?]; [| lia].
    cbn [andb]. rewrite !wrap_small by lia.
    destruct (Z.ltb_spec (memory_limit (gc w)) (total_allocated (gc w1) + sz))
      as [_ | ?]; [| lia].
    destruct (Z.ltb_spec (memory_limit (gc w)) (total_allocated (gc w2) + sz))
      as [Hover2 | Hunder2]; split; intros ?; try lia; try reflexivity.
    unfold ceiling_message. rewrite ceiling_exit_world. reflexivity.
  - intros p w' Hret.
    destruct (gg_gc_alloc_returned _ _ _ _ _ _ Hs Hacc Hsz Hfit Hret)
      as (w0 & header & Hc & _ & Hl & Hunder).
    destruct (collected_from_accounted _ _ Hc Hs Hacc) as (Hs0 & Hacc0 & Hle & Hml).
    destruct (link_header_accounted
                header sz (calloc_zero header (wrap (sizeof_header + sz)) w0)
                p w' Hs0 Hacc0 Hsz ltac:(simpl; lia) Hl)
      as (_ & _ & Hta & Hml').
    simpl in Hta, Hml'. rewrite Hta, Hml', Hml. split; [auto | reflexivity].
Qed.

Lemma gg_gc_alloc_ceiling_witness :
  exists w', gg_gc_alloc 2048 4096 0 limited_world = Exited 137 w'
             /\ stderr w' = ceiling_message 0 1024 2048.
Proof.
  destruct (gg_gc_alloc_ceiling 2048 4096 0 limited_world) as [Hover _];
    [size_t_facts | size_t_facts | size_t_facts | size_t_facts
     | vm_compute; reflexivity |].
  destruct Hover as [Hexit _]; [vm_compute; reflexivity |].
  eexists. split; [apply Hexit; vm_compute; reflexivity | reflexivity].
Defined.

(** C2: the ceiling is not enforced on a request that makes the sum of
    line 63 wrap.  In [ceiling_world] (ceiling 1024, 64 bytes allocated)
    [gg_gc_alloc(SIZE_MAX)] finds [64 + SIZE_MAX] to be 63, runs no
    collection, writes nothing, and returns with a header of size
    [SIZE_MAX] linked; and [gg_gc_alloc(SIZE_MAX - 15)], when the host
    refuses the first block and the collection of line 81 releases the 64
    bytes, returns with [total_allocated] at [SIZE_MAX - 15], far over the
    ceiling. *)
Theorem gg_gc_alloc_ceiling_wraps :
  (memory_limit (gc ceiling_world) = 1024
   /\ total_allocated (gc ceiling_world) = 64
   /\ alloc_count (gc ceiling_world) < threshold (gc ceiling_world))
  /\ (exists p w',
        gg_gc_alloc SIZE_MAX 8192 0 ceiling_world = Returned p w'
        /\ collections (gc w') = 0 /\ freed w' = [] /\ stderr w' = []
        /\ heap (gc w') = [Header 8192 SIZE_MAX 0; Header 4096 64 0]
        /\ total_allocated (gc w') = 63)
  /\ (exists p w',
        gg_gc_alloc (SIZE_MAX - 15) 0 8192 ceiling_world = Returned p w'
        /\ stderr w' = []
        /\ memory_limit (gc w') = 1024
        /\ total_allocated (gc w') = SIZE_MAX - 15
        /\ memory_limit (gc w') < total_allocated (gc w')).
Proof.
  split; [vm_compute; repeat split; reflexivity |].
  split.
  - exists 8216, (world_of (gg_gc_alloc SIZE_MAX 8192 0 ceiling_world)).
    repeat split; vm_compute; reflexivity.
  - exists 8216,
      (world_of (gg_gc_alloc (SIZE_MAX - 15) 0 8192 ceiling_world)).
    repeat split; vm_compute; reflexivity.
Qed.

(** ** Shutdown *)

Lemma shutdown_loop_spec (hp : list gg_gc_header) :
  forall tc fr, is_size_t tc ->
    shutdown_loop hp tc fr = (wrap (tc + sum_sizes hp), fr ++ map addr hp).
Proof.
  induction hp as [|o hp IH]; intros tc fr Htc; simpl.
  - rewrite Z.add_0_r, wrap_small, app_nil_r by exact Htc. reflexivity.
  - rewrite IH by apply wrap_range.
    rewrite wrap_add_l, <- app_assoc, Z.add_assoc. reflexivity.
Qed.

(** C4, as the code has it: [gg_gc_shutdown] releases every header of the
    list and leaves the list empty and the root count, the allocation
    counter and [total_allocated] at zero, as [gg_gc_init] does; the
    threshold, the cycle counter and the memory ceiling keep their values,
    and [total_collected] grows by the sizes of the headers released. *)
Theorem gg_gc_shutdown_state (w : world) :
  is_size_t (total_collected (gc w)) ->
  let g := gc w in
  let g' := gc (gg_gc_shutdown w) in
  heap g' = [] /\ root_count g' = 0 /\ alloc_count g' = 0
  /\ total_allocated g' = 0
  /\ threshold g' = threshold g /\ collections g' = collections g
  /\ memory_limit g' = memory_limit g
  /\ total_collected g' = wrap (total_collected g + sum_sizes (heap g))
  /\ freed (gg_gc_shutdown w) = freed w ++ map addr (heap g).
Proof.
  intros Htc g g'. subst g g'. unfold gg_gc_shutdown.
  rewrite shutdown_loop_spec by exact Htc. simpl. repeat split.
Qed.

Lemma gg_gc_shutdown_state_witness :
  let g' := gc (gg_gc_shutdown used_world) in
  heap g' = [] /\ root_count g' = 0 /\ alloc_count g' = 0
  /\ total_allocated g' = 0
  /\ threshold g' = 1024 /\ collections g' = 0
  /\ memory_limit g' = 4096
  /\ total_collected g' = 64
  /\ freed (gg_gc_shutdown used_world) = [4096].
Proof.
  apply (gg_gc_shutdown_state used_world). vm_compute. split; congruence.
Defined.

(** C4, as the claim has it, fails in [used_world], the world of a program
    that set a ceiling and allocated 64 bytes: after [gg_gc_shutdown] the
    registry is not the one [gg_gc_init] produces, since [total_collected]
    is 64 and the ceiling is still 4096. *)
Lemma gg_gc_shutdown_not_init :
  let g' := gc (gg_gc_shutdown used_world) in
  ~ (heap g' = heap init_registry
     /\ root_count g' = root_count init_registry
     /\ alloc_count g' = alloc_count init_registry
     /\ threshold g' = threshold init_registry
     /\ total_allocated g' = total_allocated init_registry
     /\ total_collected g' = total_collected init_registry
     /\ collections g' = collections init_registry
     /\ memory_limit g' = memory_limit init_registry).
Proof.
  intros g' (_ & _ & _ & _ & _ & Htc & _). vm_compute in Htc. discriminate Htc.
Qed.

(** ** Mark bits outside a cycle *)

Lemma gg_gc_collect_marks_clear (w : world) :
  marks_clear (heap (gc (gg_gc_collect w))).
Proof.
  destruct (gg_gc_collect_fields w) as (-> & _). apply survivors_clear.
Qed.

Lemma collected_from_marks_clear (w w0 : world) :
  collected_from w w0 -> marks_clear (heap (gc w)) -> marks_clear (heap (gc w0)).
Proof.
  intros [|w1 _] H; [exact H | apply gg_gc_collect_marks_clear].
Qed.

Lemma gg_gc_alloc_linked (sz first second : Z) (w : world) p w' :
  gg_gc_alloc sz first second w = Returned p w' ->
  exists w0 header,
    collected_from w w0 /\ header <> 0
    /\ link_header header sz
         (calloc_zero header (wrap (sizeof_header + sz)) w0) = Returned p w'.
Proof.
  unfold gg_gc_alloc. cbv zeta.
  set (w1 := if threshold (gc w) <=? alloc_count (gc w)
             then gg_gc_collect w else w).
  assert (H1 : collected_from w w1).
  { subst w1. destruct (_ <=? _); repeat constructor. }
  assert (Hfinish : forall wc : world,
    collected_from w wc ->
    alloc_block sz first second wc = Returned p w' ->
    exists w0 header,
      collected_from w w0 /\ header <> 0
      /\ link_header header sz
           (calloc_zero header (wrap (sizeof_header + sz)) w0) = Returned p w').
  { intros wc Hc Hb.
    apply alloc_block_returned in Hb as (w0 & header & [-> | ->] & Hh & Hl).
    - exists wc, header. auto.
    - exists (gg_gc_collect wc), header.
      split; [constructor; exact Hc | auto]. }
  destruct ((0 <? memory_limit (gc w1))
            && (memory_limit (gc w1) <? wrap (total_allocated (gc w1) + sz))).
  - destruct (_ <? _); [intros ?; discriminate |].
    apply Hfinish. constructor. exact H1.
  - apply Hfinish. exact H1.
Qed.

(** C7, as the code has it: the mark bit of every header of the list is 0
    whenever no collection cycle is in progress.  It is so after every
    [gg_gc_collect], whatever the mark bits were before, and after
    [gg_gc_init]; and when it is so before a call of [gg_gc_alloc],
    [gg_free], [gg_gc_add_root], [gg_gc_set_memory_limit] or
    [gg_gc_shutdown], it is so after it, the header linked by
    [gg_gc_alloc] being the head of the list with its mark bit at 0. *)
Theorem marks_clear_outside_cycle :
  (forall w, marks_clear (heap (gc (gg_gc_collect w))))
  /\ (forall w, marks_clear (heap (gc (gg_gc_init w))))
  /\ (forall w, marks_clear (heap (gc w)) ->
        (forall sz first second p w',
            gg_gc_alloc sz first second w = Returned p w' ->
            marks_clear (heap (gc w'))
            /\ exists header rest,
                heap (gc w') = Header header sz 0 :: rest
                /\ p = wrap (header + sizeof_header))
        /\ (forall ptr, marks_clear (heap (gc (gg_free ptr w))))
        /\ (forall root_ptr, marks_clear (heap (gc (gg_gc_add_root root_ptr w))))
        /\ (forall limit_bytes,
               marks_clear (heap (gc (gg_gc_set_memory_limit limit_bytes w))))
        /\ marks_clear (heap (gc (gg_gc_shutdown w)))).
Proof.
  split; [exact gg_gc_collect_marks_clear |].
  split; [intros w; constructor |].
  intros w Hw. split; [| split; [| split; [| split]]].
  - intros sz first second p w' Hret.
    apply gg_gc_alloc_linked in Hret as (w0 & header & Hc & _ & [= <- <-]).
    split.
    + constructor; [reflexivity |].
      apply (collected_from_marks_clear _ _ Hc Hw).
    + eexists _, _. split; reflexivity.
  - intros ptr. unfold gg_free. destruct (ptr =? 0); [exact Hw |].
    destruct (unlink _ _) as [[found hp']|] eqn:E; [| exact Hw].
    apply unlink_Some in E as (l1 & l2 & Hhp & -> & _). simpl.
    unfold marks_clear in *. rewrite Hhp in Hw.
    apply Forall_app in Hw as [H1 H2]. apply Forall_cons in H2 as [_ H2].
    apply Forall_app. split; assumption.
  - intros root_ptr. unfold gg_gc_add_root. destruct (_ <=? _); exact Hw.
  - intros limit_bytes. exact Hw.
  - destruct (gg_gc_shutdown_heap w) as [-> _]. constructor.
Qed.

Lemma marks_clear_outside_cycle_witness :
  marks_clear (heap (gc used_world))
  /\ marks_clear (heap (gc (gg_free 1024 sample_world)))
  /\ marks_clear (heap (gc (gg_gc_add_root 500 sample_world)))
  /\ marks_clear (heap (gc (gg_gc_shutdown sample_world))).
Proof.
  destruct marks_clear_outside_cycle as (_ & _ & Hstep).
  destruct (Hstep sample_world) as (_ & Hf & Hr & _ & Hs);
    [repeat constructor |].
  destruct (Hstep (gg_gc_set_memory_limit 4096 fresh_world)) as (Ha & _);
    [constructor |].
  destruct (Ha 64 4096 0 4120 used_world) as [Hu _]; [reflexivity |].
  split; [exact Hu | split; [apply Hf | split; [apply Hr | exact Hs]]].
Defined.

(** C7, as the claim has it, fails in the world that [gg_gc_mark] leaves
    when it returns inside [gg_gc_collect]: the mark phase is over, the
    sweep has not reached the headers yet, and the objects at 2000 and 1000
    of [sample_world], whose mark bits were all 0, have their mark bit at
    1. *)
Lemma marks_set_between_mark_and_sweep :
  marks_clear (heap (gc sample_world))
  /\ ~ marks_clear (heap (gc (gg_gc_mark sample_world))).
Proof.
  split; [repeat constructor |].
  intros H.
  assert (E : heap (gc (gg_gc_mark sample_world))
              = [Header 3000 8 0; Header 2000 16 1; Header 1000 16 1])
    by (vm_compute; reflexivity).
  rewrite E in H. inversion H as [|? ? _ H1]. inversion H1 as [|? ? Hm _].
  discriminate Hm.
Qed.

(** ** Root frames *)

Lemma gg_gc_add_root_prefix (root_ptr : Z) (w : world) (n : nat) :
  (n <= Z.to_nat (root_count (gc w)))%nat ->
  (n <= Z.to_nat (root_count (gc (gg_gc_add_root root_ptr w))))%nat
  /\ take n (roots (gc (gg_gc_add_root root_ptr w))) = take n (roots (gc w)).
Proof.
  intros Hn. unfold gg_gc_add_root.
  destruct (GG_GC_MAX_ROOTS <=? root_count (gc w)); simpl.
  - split; [exact Hn | reflexivity].
  - split; [lia |]. apply take_insert_ge. exact Hn.
Qed.

Lemma add_roots_prefix (slots : list Z) (n : nat) :
  forall w, (n <= Z.to_nat (root_count (gc w)))%nat ->
            take n (roots (gc (add_roots slots w))) = take n (roots (gc w)).
Proof.
  unfold add_roots. induction slots as [|p slots IH]; intros w Hn; simpl.
  - reflexivity.
  - destruct (gg_gc_add_root_prefix p w n Hn) as [Hn' Heq].
    rewrite IH by exact Hn'. exact Heq.
Qed.

(** C6: [gg_gc_push_root_frame] returns the root count [c]; after any
    number of [gg_gc_add_root] calls, [gg_gc_pop_root_frame] with that token
    leaves the root count at [c] and the registered roots as they were
    before the frame was pushed. *)
Theorem root_frame_restores (slots : list Z) (w : world) :
  let token := fst (gg_gc_push_root_frame w) in
  let pushed := snd (gg_gc_push_root_frame w) in
  let popped := gg_gc_pop_root_frame token (add_roots slots pushed) in
  token = root_count (gc w)
  /\ root_count (gc popped) = root_count (gc w)
  /\ active_roots (gc popped) = active_roots (gc w).
Proof.
  simpl. repeat split. unfold active_roots. simpl.
  apply add_roots_prefix. lia.
Qed.

(** ** Termination of the mark phase *)

(** C9: [gg_gc_mark_object] returns on every list and every memory, object
    graphs with cycles included, with no more nested scanning frames than
    there are unmarked headers on the list; it returns at once on [NULL]
    and on a marked header; on an unmarked header it sets the mark bit and
    then scans the body; a header whose body is scanned is marked, so that
    no body is scanned twice; and the whole mark phase returns with a stack
    as deep as the list is long, each body having been scanned at most
    once. *)
Theorem gg_gc_mark_object_terminates (m : Z -> Z) (header : Z) (s : mark_state) :
  (forall depth, (count_unmarked (fst s) <= depth)%nat ->
                 exists s', gg_gc_mark_object depth m header s = Some s')
  /\ (forall depth, header = 0 \/ marked_at header (fst s) <> 0 ->
                    gg_gc_mark_object depth m header s = Some s)
  /\ (forall depth obj,
         header <> 0 -> header_at header (fst s) = Some obj -> marked obj = 0 ->
         gg_gc_mark_object (S depth) m header s
         = scan_body (gg_gc_mark_object depth m) (body_words m obj)
                     (set_marked header 1 (fst s), snd s ++ [header]))
  /\ (forall depth s', log_marked s ->
                       gg_gc_mark_object depth m header s = Some s' ->
                       NoDup (snd s') /\
                       forall a, a ∈ snd s' -> marked_at a (fst s') <> 0)
  /\ (forall w, exists s',
         gg_gc_mark_depth (length (heap (gc w))) w = Some s'
         /\ NoDup (snd s')).
Proof.
  split; [| split; [| split; [| split]]].
  - intros depth. apply gg_gc_mark_object_enough.
  - intros depth [-> | Hm].
    + destruct depth; reflexivity.
    + unfold marked_at in Hm.
      destruct depth; simpl; destruct (header =? 0); try reflexivity;
        destruct (header_at header (fst s)) as [obj|]; try reflexivity;
        destruct (Z.eqb_spec (marked obj) 0); try contradiction; reflexivity.
  - intros depth obj Hh E E0. simpl.
    destruct (Z.eqb_spec header 0); [contradiction |].
    rewrite E, E0. reflexivity.
  - intros depth s' Hlog Hrun. apply (log_marked_rule _ _ _ _ _ Hrun Hlog).
  - intros w. destruct (gg_gc_mark_depth_enough w) as [s' E]. exists s'.
    split; [exact E |].
    apply mark_roots_log_marked in E; [apply E |].
    split; [constructor | intros a Ha; inversion Ha].
Qed.

Lemma gg_gc_mark_object_terminates_witness :
  (exists s', gg_gc_mark_object 3 sample_mem 1000 (heap (gc sample_world), [])
              = Some s')
  /\ gg_gc_mark_object 0 sample_mem 0 (heap (gc sample_world), [])
     = Some (heap (gc sample_world), [])
  /\ gg_gc_mark_object 1 sample_mem 3000 (heap (gc sample_world), [])
     = scan_body (gg_gc_mark_object 0 sample_mem)
                 (body_words sample_mem (Header 3000 8 0))
                 (set_marked 3000 1 (heap (gc sample_world)), [3000])
  /\ NoDup [1000; 2000].
Proof.
  destruct (gg_gc_mark_object_terminates
              sample_mem 1000 (heap (gc sample_world), []))
    as (Hrun & _ & _ & Hlog & _).
  destruct (gg_gc_mark_object_terminates
              sample_mem 0 (heap (gc sample_world), []))
    as (_ & Hnull & _).
  destruct (gg_gc_mark_object_terminates
              sample_mem 3000 (heap (gc sample_world), []))
    as (_ & _ & Hscan & _).
  split; [apply Hrun; vm_compute; lia |].
  split; [apply Hnull; left; reflexivity |].
  split; [apply Hscan; [lia | reflexivity | reflexivity] |].
  apply (Hlog 2%nat ([Header 3000 8 0; Header 2000 16 1; Header 1000 16 1],
                     [1000; 2000])).
  - split; [constructor | intros a Ha; inversion Ha].
  - reflexivity.
Defined.

(** ** Pointer resolution and the object graph *)

Lemma shape_elem (hp : list gg_gc_header) (a sz : Z) :
  (a, sz) ∈ shape hp <-> exists obj, obj ∈ hp /\ addr obj = a /\ size obj = sz.
Proof.
  unfold shape. split.
  - intros H. apply list_elem_of_fmap in H as (obj & [= -> ->] & Hin). eauto.
  - intros (obj & Hin & <- & <-).
    apply (list_elem_of_fmap_2 (fun obj => (addr obj, size obj))). exact Hin.
Qed.

Lemma shape_unique (hp : list gg_gc_header) (a sz sz' : Z) :
  NoDup (map addr hp) -> (a, sz) ∈ shape hp -> (a, sz') ∈ shape hp -> sz = sz'.
Proof.
  intros Hnd H H'.
  apply shape_elem in H as (obj & Hin & <- & <-).
  apply shape_elem in H' as (obj' & Hin' & Ha & <-).
  pose proof (header_at_NoDup _ _ Hnd Hin) as E.
  pose proof (header_at_NoDup _ _ Hnd Hin') as E'.
  rewrite Ha in E'. congruence.
Qed.

Lemma header_at_shape (hp : list gg_gc_header) (a : Z) obj :
  header_at a hp = Some obj -> (a, size obj) ∈ shape hp.
Proof.
  intros E. apply header_at_Some in E as [Hin Ha]. apply shape_elem. eauto.
Qed.

Lemma load_range (m : Z -> Z) (a : Z) : is_size_t (load m a).
Proof. apply wrap_range. Qed.

Lemma words_range (m : Z -> Z) (a sz x : Z) : x ∈ words m a sz -> is_size_t x.
Proof.
  unfold words, body_words. intros H.
  apply list_elem_of_fmap in H as (i & -> & _). apply load_range.
Qed.

Lemma wrap_negative (y : Z) : - SIZE_MOD <= y < 0 -> wrap y = y + SIZE_MOD.
Proof.
  intros H. unfold wrap.
  rewrite <- (Z_mod_plus_full y 1 SIZE_MOD), Z.mul_1_l.
  apply Z.mod_small. lia.
Qed.

Lemma find_header_addrs (hp : list gg_gc_header) (x a : Z) :
  gg_gc_find_header hp x = Some a
  <-> x <> 0 /\ a = wrap (x - sizeof_header) /\ a ∈ map addr hp.
Proof.
  unfold gg_gc_find_header. destruct (Z.eqb_spec x 0) as [E | E].
  - split; [discriminate | tauto].
  - destruct (header_at _ hp) as [obj|] eqn:Eh.
    + apply header_at_Some in Eh as [Hin Ha]. split.
      * intros [= <-]. repeat split; [exact E | auto |].
        apply list_elem_of_fmap_2. exact Hin.
      * intros (_ & -> & _). congruence.
    + apply header_at_None in Eh. split; [discriminate |].
      intros (_ & -> & Hin). contradiction.
Qed.

Lemma valid_header_range (hp : list gg_gc_header) (a : Z) :
  valid_headers hp -> a ∈ map addr hp -> 0 < a /\ a + sizeof_header < SIZE_MOD.
Proof.
  intros [_ Hv] Hin. rewrite Forall_forall in Hv. apply Hv, Hin.
Qed.

(** On a list of valid headers [gg_gc_find_header] decides the conservative
    resolution rule. *)
Lemma find_header_resolves (hp : list gg_gc_header) (x a : Z) :
  valid_headers hp -> is_size_t x ->
  gg_gc_find_header hp x = Some a <-> resolves hp x a.
Proof.
  intros Hv [Hx0 Hx1]. rewrite find_header_addrs. unfold resolves.
  unfold sizeof_header in *. split.
  - intros (Hne & -> & Hin). split; [exact Hin |].
    destruct (valid_header_range _ _ Hv Hin) as [Ha0 Ha1].
    unfold sizeof_header in *.
    destruct (Z_lt_le_dec x 24) as [Hlt | Hge].
    + rewrite wrap_negative in Ha1 by (rewrite SIZE_MOD_val; lia). lia.
    + rewrite wrap_small by lia. reflexivity.
  - intros (Hin & <-).
    destruct (valid_header_range _ _ Hv Hin) as [Ha0 Ha1].
    unfold sizeof_header in *.
    repeat split; [lia | rewrite wrap_small; lia | exact Hin].
Qed.

Lemma resolves_fun (hp : list gg_gc_header) (x a b : Z) :
  resolves hp x a -> resolves hp x b -> a = b.
Proof. intros [_ <-] [_ <-]. reflexivity. Qed.

Lemma find_header_on_heap (hp0 : list gg_gc_header) (s : mark_state) (x a : Z) :
  valid_headers hp0 -> on_heap hp0 s -> is_size_t x ->
  gg_gc_find_header (fst s) x = Some a <-> resolves hp0 x a.
Proof.
  intros Hv Hs Hx. rewrite <- (find_header_resolves hp0 x a Hv Hx).
  rewrite !find_header_addrs. rewrite (shape_addr _ _ Hs). reflexivity.
Qed.

Lemma no_null_header (hp : list gg_gc_header) (b : Z) :
  valid_headers hp -> ~ resolves hp 0 b.
Proof.
  intros Hv [Hin Hb]. destruct (valid_header_range _ _ Hv Hin) as [H0 _].
  unfold sizeof_header in *. lia.
Qed.

Lemma newly_same (s : mark_state) (a : Z) : ~ newly s s a.
Proof. intros [H1 H2]. contradiction. Qed.

Lemma newly_split (s s1 s' : mark_state) (a : Z) :
  newly s s' a -> newly s s1 a \/ newly s1 s' a.
Proof.
  intros [H1 H2]. destruct (Z.eq_dec (marked_at a (fst s1)) 0) as [E | E].
  - right. split; assumption.
  - left. split; assumption.
Qed.

Lemma closed_in_grow (m : Z -> Z) (hp0 : list gg_gc_header) (s s' : mark_state) a :
  marks_grow s s' -> closed_in m hp0 s a -> closed_in m hp0 s' a.
Proof. intros Hg Hc b Hb. apply Hg, Hc, Hb. Qed.

(** ** The mark phase marks what is reachable *)

Section Reach.
Variable m : Z -> Z.
Variable hp0 : list gg_gc_header.
Hypothesis Hvalid : valid_headers hp0.

Lemma marks_through_nil (s : mark_state) : marks_through m hp0 [] s s.
Proof.
  split; [| split].
  - intros x b Hx. inversion Hx.
  - intros a Ha. destruct (newly_same _ _ Ha).
  - intros a Ha. destruct (newly_same _ _ Ha).
Qed.

Lemma marks_through_skip (x : Z) (s : mark_state) :
  (forall b, resolves hp0 x b -> marked_at b (fst s) <> 0) ->
  marks_through m hp0 [x] s s.
Proof.
  intros H. split; [| split].
  - intros x' b Hx. apply list_elem_of_singleton in Hx as ->. apply H.
  - intros a Ha. destruct (newly_same _ _ Ha).
  - intros a Ha. destruct (newly_same _ _ Ha).
Qed.

Lemma marks_from_through (x t : Z) (s s' : mark_state) :
  resolves hp0 x t -> marks_from m hp0 t s s' -> marks_through m hp0 [x] s s'.
Proof.
  intros Hr (H1 & H2 & H3). split; [| split].
  - intros x' b Hx Hb. apply list_elem_of_singleton in Hx as ->.
    rewrite (resolves_fun _ _ _ _ Hb Hr). apply H1, Hr.
  - exact H2.
  - intros a Ha. exists x, t. split; [apply list_elem_of_singleton; reflexivity |].
    split; [exact Hr | apply H3, Ha].
Qed.

Lemma marks_through_app (xs ys : list Z) (s s1 s' : mark_state) :
  marks_through m hp0 xs s s1 -> marks_through m hp0 ys s1 s' ->
  marks_grow s1 s' -> marks_through m hp0 (xs ++ ys) s s'.
Proof.
  intros (X1 & X2 & X3) (Y1 & Y2 & Y3) Hg. split; [| split].
  - intros x b Hx Hb. apply elem_of_app in Hx as [Hx | Hx].
    + apply Hg. apply (X1 _ _ Hx Hb).
    + apply (Y1 _ _ Hx Hb).
  - intros a Ha. destruct (newly_split _ s1 _ _ Ha) as [Hn | Hn].
    + apply (closed_in_grow _ _ _ _ _ Hg). apply X2, Hn.
    + apply Y2, Hn.
  - intros a Ha. destruct (newly_split _ s1 _ _ Ha) as [Hn | Hn].
    + destruct (X3 a Hn) as (x & b & Hx & Hb & Hp).
      exists x, b. rewrite elem_of_app. auto.
    + destruct (Y3 a Hn) as (x & b & Hx & Hb & Hp).
      exists x, b. rewrite elem_of_app. auto.
Qed.

Lemma scan_body_marks_grow (d : nat) words s s' :
  scan_body (gg_gc_mark_object d m) words s = Some s' -> marks_grow s s'.
Proof.
  apply (scan_body_rule marks_grow).
  - intros s0 a. auto.
  - intros s1 s2 s3 H1 H2 a Ha. apply H2, H1, Ha.
  - intros t s0 s0'. apply marks_grow_rule.
Qed.

Lemma scan_body_graph (d : nat) :
  (forall h s s', on_heap hp0 s -> gg_gc_mark_object d m h s = Some s' ->
                  marks_from m hp0 h s s') ->
  forall words s s',
    on_heap hp0 s -> Forall is_size_t words ->
    scan_body (gg_gc_mark_object d m) words s = Some s' ->
    marks_through m hp0 words s s'.
Proof.
  intros IH words. induction words as [|x words IHw]; intros s s' Hs Hws H.
  - injection H as <-. apply marks_through_nil.
  - apply Forall_cons in Hws as [Hx Hws]. simpl in H.
    assert (Hvisit : forall s1,
               marks_through m hp0 [x] s s1 -> on_heap hp0 s1 -> marks_grow s s1 ->
               scan_body (gg_gc_mark_object d m) words s1 = Some s' ->
               marks_through m hp0 (x :: words) s s').
    { intros s1 Hx1 Hs1 Hg1 Hrest.
      apply (marks_through_app [x] words s s1 s' Hx1).
      - apply IHw; assumption.
      - apply (scan_body_marks_grow _ _ _ _ Hrest). }
    assert (Hstay : (forall b, resolves hp0 x b -> marked_at b (fst s) <> 0) ->
               scan_body (gg_gc_mark_object d m) words s = Some s' ->
               marks_through m hp0 (x :: words) s s').
    { intros Hb. apply Hvisit; [apply marks_through_skip, Hb | exact Hs |].
      intros a Ha. exact Ha. }
    destruct (Z.eqb_spec x 0) as [-> | Hx0].
    { apply Hstay; [| exact H].
      intros b Hb. destruct (no_null_header _ _ Hvalid Hb). }
    destruct (gg_gc_find_header (fst s) x) as [t|] eqn:Ef.
    + apply (find_header_on_heap hp0 s x t Hvalid Hs Hx) in Ef.
      destruct (Z.eqb_spec (marked_at t (fst s)) 0) as [Em | Em].
      * destruct (gg_gc_mark_object d m t s) as [s1|] eqn:Er; [| discriminate].
        apply (Hvisit s1); [| | | exact H].
        -- apply (marks_from_through x t _ _ Ef). apply IH; assumption.
        -- unfold on_heap. rewrite (same_shape_rule _ _ _ _ _ Er). exact Hs.
        -- apply (marks_grow_rule _ _ _ _ _ Er).
      * apply Hstay; [| exact H].
        intros b Hb. rewrite (resolves_fun _ _ _ _ Hb Ef). exact Em.
    + apply Hstay; [| exact H].
      intros b Hb. apply (find_header_on_heap hp0 s x b Hvalid Hs Hx) in Hb.
      congruence.
Qed.

Lemma gg_gc_mark_object_graph (d : nat) :
  forall h s s', on_heap hp0 s -> gg_gc_mark_object d m h s = Some s' ->
                 marks_from m hp0 h s s'.
Proof.
  assert (Hsame : forall h s, (h ∈ map addr hp0 -> marked_at h (fst s) <> 0) ->
                              marks_from m hp0 h s s).
  { intros h s H. split; [exact H |].
    split; intros a Ha; destruct (newly_same _ _ Ha). }
  induction d as [|d IH]; intros h s s' Hs H; simpl in H;
    (destruct (Z.eqb_spec h 0) as [-> | Hh];
     [ injection H as <-; apply Hsame; intros Hin;
       destruct (valid_header_range _ _ Hvalid Hin); lia |]);
    (destruct (header_at h (fst s)) as [obj|] eqn:E;
     [| injection H as <-; apply Hsame; intros Hin;
        apply header_at_None in E; rewrite (shape_addr _ _ Hs) in E;
        contradiction]);
    (destruct (Z.eqb_spec (marked obj) 0) as [E0 | E0]; simpl in H;
     [| injection H as <-; apply Hsame; intros _;
        unfold marked_at; rewrite E; exact E0]).
  - discriminate.
  - set (s1 := (set_marked h 1 (fst s), snd s ++ [h])) in *.
    assert (Hs1 : on_heap hp0 s1)
      by (unfold on_heap, s1; simpl; rewrite set_marked_shape; exact Hs).
    assert (Hin : h ∈ map addr (fst s)).
    { apply header_at_Some in E as [Hin <-]. apply list_elem_of_fmap_2, Hin. }
    assert (Hsz : (h, size obj) ∈ shape hp0)
      by (rewrite <- Hs; apply header_at_shape, E).
    assert (Hbody : body_words m obj = words m h (size obj)).
    { apply header_at_Some in E as [_ <-]. reflexivity. }
    assert (Hws : Forall is_size_t (body_words m obj)).
    { apply Forall_forall. intros x Hx. rewrite Hbody in Hx.
      apply (words_range _ _ _ _ Hx). }
    pose proof (scan_body_graph d IH _ _ _ Hs1 Hws H) as (T1 & T2 & T3).
    pose proof (scan_body_marks_grow _ _ _ _ H) as Hg.
    assert (Hother : forall a, a <> h -> newly s s' a -> newly s1 s' a).
    { intros a Ha [N1 N2]. split; [exact N1 |].
      unfold s1. simpl. rewrite marked_at_set_marked_ne by exact Ha. exact N2. }
    split; [| split].
    + intros _. apply Hg. unfold s1. simpl.
      rewrite marked_at_set_marked_eq by exact Hin. lia.
    + intros a Ha. destruct (Z.eq_dec a h) as [-> | Hne].
      * intros b (sz & x & Hsh & Hx & Hb).
        rewrite (shape_unique _ _ _ _ (proj1 Hvalid) Hsh Hsz) in Hx.
        rewrite <- Hbody in Hx. apply (T1 _ _ Hx Hb).
      * apply T2, Hother; assumption.
    + intros a Ha. destruct (Z.eq_dec a h) as [-> | Hne]; [apply rtc_refl |].
      destruct (T3 a (Hother a Hne Ha)) as (x & b & Hx & Hb & Hp).
      apply rtc_l with b; [| exact Hp].
      exists (size obj), x. rewrite <- Hbody. auto.
Qed.

Lemma mark_roots_graph (d : nat) :
  forall rs s s',
    on_heap hp0 s -> mark_roots d m rs s = Some s' ->
    marks_through m hp0 (root_words m rs) s s'.
Proof.
  intros rs. induction rs as [|r rs IH]; intros s s' Hs H.
  - injection H as <-. apply marks_through_nil.
  - simpl in H. unfold root_words. simpl.
    destruct (Z.eqb_spec r 0) as [-> | Hr]; simpl; [apply IH; assumption |].
    fold (root_words m rs).
    assert (Hvisit : forall s1,
               marks_through m hp0 [load m r] s s1 -> on_heap hp0 s1 ->
               marks_grow s s1 -> mark_roots d m rs s1 = Some s' ->
               marks_through m hp0 (load m r :: root_words m rs) s s').
    { intros s1 Hx1 Hs1 Hg1 Hrest.
      apply (marks_through_app [load m r] (root_words m rs) s s1 s' Hx1).
      - apply IH; assumption.
      - apply (mark_roots_marks_grow _ _ _ _ _ Hrest). }
    assert (Hstay : (forall b, resolves hp0 (load m r) b ->
                               marked_at b (fst s) <> 0) ->
               mark_roots d m rs s = Some s' ->
               marks_through m hp0 (load m r :: root_words m rs) s s').
    { intros Hb. apply Hvisit; [apply marks_through_skip, Hb | exact Hs |].
      intros a Ha. exact Ha. }
    destruct (Z.eqb_spec (load m r) 0) as [E0 | E0].
    { apply Hstay; [| exact H]. rewrite E0.
      intros b Hb. destruct (no_null_header _ _ Hvalid Hb). }
    destruct (gg_gc_find_header (fst s) (load m r)) as [t|] eqn:Ef.
    + apply (find_header_on_heap hp0 s _ t Hvalid Hs (load_range m r)) in Ef.
      destruct (gg_gc_mark_object d m t s) as [s1|] eqn:Er; [| discriminate].
      apply (Hvisit s1); [| | | exact H].
      * apply (marks_from_through _ t _ _ Ef).
        apply (gg_gc_mark_object_graph d); assumption.
      * unfold on_heap. rewrite (same_shape_rule _ _ _ _ _ Er). exact Hs.
      * apply (marks_grow_rule _ _ _ _ _ Er).
    + apply Hstay; [| exact H].
      intros b Hb.
      apply (find_header_on_heap hp0 s _ b Hvalid Hs (load_range m r)) in Hb.
      congruence.
Qed.
End Reach.

Lemma marks_clear_marked_at (hp : list gg_gc_header) (a : Z) :
  marks_clear hp -> marked_at a hp = 0.
Proof.
  intros Hc. unfold marked_at. destruct (header_at a hp) as [obj|] eqn:E;
    [| reflexivity].
  apply header_at_Some in E as [Hin _].
  unfold marks_clear in Hc. rewrite Forall_forall in Hc. apply Hc, Hin.
Qed.

Lemma root_words_elem (w : world) (x : Z) :
  x ∈ root_words (mem w) (active_roots (gc w)) <-> root_word w x.
Proof.
  unfold root_words, root_word. split.
  - intros H. apply list_elem_of_fmap in H as (r & -> & Hr).
    apply list_elem_of_In, List.filter_In in Hr as [Hin Hne].
    exists r. apply list_elem_of_In in Hin.
    split; [exact Hin | split; [| reflexivity]].
    intros ->. discriminate Hne.
  - intros (r & Hin & Hne & ->). apply list_elem_of_fmap_2.
    apply list_elem_of_In, List.filter_In. split; [apply list_elem_of_In, Hin |].
    destruct (Z.eqb_spec r 0); [contradiction | reflexivity].
Qed.

Lemma reachable_points_to (w : world) (a b : Z) :
  reachable w a -> rtc (points_to (mem w) (heap (gc w))) a b -> reachable w b.
Proof.
  intros Ha Hp. induction Hp as [|a c b (sz & x & Hsh & Hx & Hc) _ IH];
    [exact Ha |].
  apply IH. apply shape_elem in Hsh as (obj & Hin & <- & <-).
  apply (reachable_body w obj x c); assumption.
Qed.

(** After the mark phase on a list with clear mark bits, the marked headers
    are the reachable ones. *)
Lemma gg_gc_mark_depth_reachable (w : world) (depth : nat) (s' : mark_state) :
  valid_headers (heap (gc w)) -> marks_clear (heap (gc w)) ->
  gg_gc_mark_depth depth w = Some s' ->
  forall a, marked_at a (fst s') <> 0 <-> reachable w a.
Proof.
  intros Hv Hc Hrun. unfold gg_gc_mark_depth in Hrun.
  assert (Hs : on_heap (heap (gc w)) (heap (gc w), [])) by reflexivity.
  destruct (mark_roots_graph (mem w) (heap (gc w)) Hv depth _ _ _ Hs Hrun)
    as (R1 & R2 & R3).
  assert (Hnew : forall a, marked_at a (fst s') <> 0 ->
                           newly (heap (gc w), []) s' a).
  { intros a Ha. split; [exact Ha | apply marks_clear_marked_at, Hc]. }
  intros a. split.
  - intros Ha. destruct (R3 a (Hnew a Ha)) as (x & b & Hx & Hb & Hp).
    apply reachable_points_to with b; [| exact Hp].
    apply (reachable_root w x b); [apply root_words_elem, Hx | exact Hb].
  - intros Ha. induction Ha as [x a Hx Ha | obj x b _ IH Hin Hx Hb].
    + apply (R1 x a); [apply root_words_elem, Hx | exact Ha].
    + apply (R2 _ (Hnew _ IH)). exists (size obj), x.
      split; [apply shape_elem; eauto |]. split; [exact Hx | exact Hb].
Qed.

Lemma survivors_elem (hp : list gg_gc_header) (x : gg_gc_header) :
  x ∈ survivors hp
  <-> exists obj, obj ∈ hp /\ marked obj <> 0
                  /\ x = Header (addr obj) (size obj) 0.
Proof.
  unfold survivors. split.
  - intros H. apply list_elem_of_fmap in H as (obj & -> & Hin).
    apply list_elem_of_In, List.filter_In in Hin as [Hin Hm].
    exists obj. split; [apply list_elem_of_In, Hin |]. split; [| reflexivity].
    intros E. rewrite E in Hm. discriminate Hm.
  - intros (obj & Hin & Hm & ->).
    apply (list_elem_of_fmap_2 (fun obj => Header (addr obj) (size obj) 0)).
    apply list_elem_of_In, List.filter_In. split; [apply list_elem_of_In, Hin |].
    destruct (Z.eqb_spec (marked obj) 0); [contradiction | reflexivity].
Qed.

Lemma garbage_elem (hp : list gg_gc_header) (obj : gg_gc_header) :
  obj ∈ garbage hp <-> obj ∈ hp /\ marked obj = 0.
Proof.
  unfold garbage. rewrite !list_elem_of_In, List.filter_In.
  rewrite Z.eqb_eq. reflexivity.
Qed.

(** C1: on a list of valid headers whose mark bits are clear, a cycle keeps
    on the list every object reachable from a registered root under the
    conservative resolution rule, unchanged and not released, and unlinks
    and releases to the host every object that is not; nothing else is on
    the list afterwards. *)
Theorem gg_gc_collect_reachable (w : world) :
  valid_headers (heap (gc w)) -> marks_clear (heap (gc w)) ->
  let w' := gg_gc_collect w in
  exists released,
    freed w' = freed w ++ released
    /\ (forall obj, obj ∈ heap (gc w) -> reachable w (addr obj) ->
          obj ∈ heap (gc w') /\ (addr obj ∉ released))
    /\ (forall obj, obj ∈ heap (gc w) -> ~ reachable w (addr obj) ->
          (addr obj ∉ map addr (heap (gc w'))) /\ addr obj ∈ released)
    /\ (forall obj, obj ∈ heap (gc w') ->
          obj ∈ heap (gc w) /\ reachable w (addr obj)).
Proof.
  intros Hv Hc w'. subst w'.
  destruct (gg_gc_collect_fields w)
    as (Hh & _ & _ & _ & _ & _ & _ & _ & _ & _ & _ & Hf).
  destruct (gg_gc_mark_eq w) as (s' & Hrun & Hmark).
  rewrite Hmark in Hh, Hf. cbn [gc set_gc heap set_heap] in Hh, Hf.
  rewrite Hh, Hf. clear Hh Hf Hmark.
  pose proof (gg_gc_mark_depth_reachable w _ s' Hv Hc Hrun) as Hreach.
  pose proof (mark_roots_same_shape _ _ _ _ _ Hrun) as Hs.
  unfold same_shape in Hs. simpl in Hs.
  assert (Hnd : NoDup (map addr (fst s')))
    by (rewrite (shape_addr _ _ Hs); apply Hv).
  (* the header of [fst s'] that stands for a header of the list *)
  assert (Hthere : forall obj, obj ∈ heap (gc w) ->
            exists obj', header_at (addr obj) (fst s') = Some obj'
                         /\ obj' ∈ fst s' /\ addr obj' = addr obj
                         /\ size obj' = size obj).
  { intros obj Hin.
    assert (Ha : (addr obj, size obj) ∈ shape (fst s'))
      by (rewrite Hs; apply shape_elem; eauto).
    apply shape_elem in Ha as (obj' & Hin' & Ha' & Hs').
    exists obj'. rewrite <- Ha'. rewrite (header_at_NoDup _ _ Hnd Hin'). auto. }
  assert (Hzero : forall obj, obj ∈ heap (gc w) -> marked obj = 0).
  { unfold marks_clear in Hc. rewrite Forall_forall in Hc. exact Hc. }
  assert (Hone : forall o1 o2, o1 ∈ fst s' -> o2 ∈ fst s' ->
                               addr o1 = addr o2 -> o1 = o2).
  { intros o1 o2 H1 H2 E.
    pose proof (header_at_NoDup _ _ Hnd H1) as E1.
    pose proof (header_at_NoDup _ _ Hnd H2) as E2.
    rewrite E in E1. congruence. }
  exists (map addr (garbage (fst s'))). split; [reflexivity |].
  split; [| split].
  - intros obj Hin Hr. destruct (Hthere obj Hin) as (obj' & E & Hin' & Ha & Hsz).
    assert (Hm : marked obj' <> 0).
    { apply Hreach in Hr. unfold marked_at in Hr. rewrite E in Hr. exact Hr. }
    split.
    + apply survivors_elem. exists obj'. split; [exact Hin' |].
      split; [exact Hm |]. rewrite Ha, Hsz, <- (Hzero obj Hin).
      destruct obj; reflexivity.
    + intros Hrel. apply list_elem_of_fmap in Hrel as (o & Ho & Hg).
      apply garbage_elem in Hg as [Hg Hg0].
      rewrite (Hone o obj' Hg Hin') in Hg0 by congruence. contradiction.
  - intros obj Hin Hr. destruct (Hthere obj Hin) as (obj' & E & Hin' & Ha & Hsz).
    assert (Hm : marked obj' = 0).
    { destruct (Z.eq_dec (marked obj') 0) as [E0 | E0]; [exact E0 |].
      exfalso. apply Hr, Hreach. unfold marked_at. rewrite E. exact E0. }
    split.
    + intros Hkept. apply list_elem_of_fmap in Hkept as (k & Hk & Hkin).
      apply survivors_elem in Hkin as (o & Ho & Hom & ->). simpl in Hk.
      rewrite (Hone o obj' Ho Hin') in Hom by congruence. contradiction.
    + rewrite <- Ha. apply list_elem_of_fmap_2. apply garbage_elem. auto.
  - intros obj Hkin. apply survivors_elem in Hkin as (o & Ho & Hom & ->).
    simpl.
    assert (Ha : (addr o, size o) ∈ shape (heap (gc w)))
      by (rewrite <- Hs; apply shape_elem; eauto).
    apply shape_elem in Ha as (obj & Hin & Ha & Hsz). split.
    + rewrite <- Ha, <- Hsz, <- (Hzero obj Hin). destruct obj; exact Hin.
    + apply Hreach. unfold marked_at.
      rewrite (header_at_NoDup _ _ Hnd Ho). exact Hom.
Qed.

Lemma gg_gc_collect_reachable_witness :
  exists released,
    freed (gg_gc_collect sample_world) = freed sample_world ++ released
    /\ (forall obj, obj ∈ heap (gc sample_world) ->
          reachable sample_world (addr obj) ->
          obj ∈ heap (gc (gg_gc_collect sample_world))
          /\ (addr obj ∉ released))
    /\ (forall obj, obj ∈ heap (gc sample_world) ->
          ~ reachable sample_world (addr obj) ->
          (addr obj ∉ map addr (heap (gc (gg_gc_collect sample_world))))
          /\ addr obj ∈ released)
    /\ (forall obj, obj ∈ heap (gc (gg_gc_collect sample_world)) ->
          obj ∈ heap (gc sample_world) /\ reachable sample_world (addr obj)).
Proof.
  apply (gg_gc_collect_reachable sample_world).
  - split; simpl; [repeat (apply NoDup_cons; split;
                           [rewrite ?elem_of_cons, elem_of_nil; lia |]);
                   apply NoDup_nil; exact I |].
    rewrite SIZE_MOD_val. unfold sizeof_header. repeat constructor; lia.
  - repeat constructor.
Defined.

(** ** The registry invariants along a run *)

Lemma survivors_addrs (hp : list gg_gc_header) (a : Z) :
  a ∈ map addr (survivors hp) -> a ∈ map addr hp.
Proof.
  intros H. apply list_elem_of_fmap in H as (k & -> & Hk).
  apply survivors_elem in Hk as (obj & Hin & _ & ->). simpl.
  apply list_elem_of_fmap_2. exact Hin.
Qed.

Lemma survivors_NoDup (hp : list gg_gc_header) :
  NoDup (map addr hp) -> NoDup (map addr (survivors hp)).
Proof.
  induction hp as [|o hp IH]; intros Hnd; [exact Hnd |].
  simpl in Hnd. apply NoDup_cons in Hnd as [Hnotin Hnd].
  unfold survivors in *. simpl. destruct (marked o =? 0); simpl; [auto |].
  apply NoDup_cons. split; [| auto].
  intros H. apply Hnotin. apply survivors_addrs. exact H.
Qed.

(** A cycle keeps the headers valid. *)
Lemma gg_gc_collect_valid (w : world) :
  valid_headers (heap (gc w)) -> valid_headers (heap (gc (gg_gc_collect w))).
Proof.
  intros [Hnd Hrange].
  destruct (gg_gc_collect_fields w) as (-> & _).
  destruct (gg_gc_mark_fields w) as (Ha & _).
  split.
  - apply survivors_NoDup. rewrite Ha. exact Hnd.
  - rewrite Forall_forall in *. intros a Hin.
    apply Hrange. rewrite <- Ha. apply survivors_addrs, Hin.
Qed.

Lemma collected_from_valid (w w0 : world) :
  collected_from w w0 -> valid_headers (heap (gc w)) ->
  valid_headers (heap (gc w0)).
Proof.
  intros Hc Hv. induction Hc as [|w0 _ IH]; [exact Hv |].
  apply gg_gc_collect_valid, IH.
Qed.

(** So does [gg_free]. *)
Lemma gg_free_valid (ptr : Z) (w : world) :
  valid_headers (heap (gc w)) -> valid_headers (heap (gc (gg_free ptr w))).
Proof.
  intros Hv. unfold gg_free. destruct (ptr =? 0); [exact Hv |].
  destruct (unlink _ _) as [[found hp']|] eqn:E; [| exact Hv].
  apply unlink_Some in E as (l1 & l2 & Hhp & -> & _). simpl.
  destruct Hv as [Hnd Hrange]. rewrite Hhp in Hnd, Hrange.
  rewrite map_app in *. simpl in *.
  apply NoDup_app in Hnd as (H1 & H12 & H2).
  apply NoDup_cons in H2 as [_ H2].
  apply Forall_app in Hrange as [R1 R2]. apply Forall_cons in R2 as [_ R2].
  split; rewrite map_app.
  - apply NoDup_app. split; [exact H1 |]. split; [| exact H2].
    intros a Ha1 Ha2. apply (H12 a Ha1). right. exact Ha2.
  - apply Forall_app. split; assumption.
Qed.

(** So does an allocation, the host handing out a block at an address that
    is not the address of a header of the list. *)
Lemma link_header_valid (header sz : Z) (w : world) p w' :
  valid_headers (heap (gc w)) ->
  0 < header -> header + sizeof_header < SIZE_MOD ->
  header ∉ map addr (heap (gc w)) ->
  link_header header sz w = Returned p w' ->
  valid_headers (heap (gc w')) /\ p = header + sizeof_header.
Proof.
  intros [Hnd Hrange] H0 H1 Hfresh [= <- <-]. simpl. split.
  - split; simpl.
    + apply NoDup_cons. split; assumption.
    + constructor; [split; assumption | exact Hrange].
  - apply wrap_small. unfold sizeof_header in *. lia.
Qed.

(** ** The scenarios of the specification *)

(** An allocation that no root refers to is released by the next cycle. *)
Example unreached_allocation_is_freed :
  let w := gg_gc_collect (world_of (gg_gc_alloc 64 4096 0 fresh_world)) in
  total_allocated (gc w) = 0 /\ heap (gc w) = [] /\ freed w = [4096].
Proof. vm_compute. repeat split. Qed.

(** An allocation whose payload pointer is held by a registered slot stays. *)
Example rooted_allocation_survives :
  let w1 := world_of (gg_gc_alloc 64 4096 0 fresh_world) in
  let w2 := gg_gc_add_root 512 (store 512 4120 w1) in
  let w := gg_gc_collect w2 in
  total_allocated (gc w) = 64 /\ heap (gc w) = [Header 4096 64 0]
  /\ freed w = [].
Proof. vm_compute. repeat split. Qed.

(** Two objects that point to each other and that no root refers to are
    both released. *)
Example unrooted_cycle_is_collected :
  let w1 := world_of (gg_gc_alloc 32 4096 0 fresh_world) in
  let w2 := world_of (gg_gc_alloc 32 8192 0 w1) in
  let w3 := store 8216 4120 (store 4120 8216 w2) in
  let w := gg_gc_collect w3 in
  total_allocated (gc w) = 0 /\ heap (gc w) = [] /\ freed w = [8192; 4096].
Proof. vm_compute. repeat split. Qed.

(** A request over the ceiling ends the process with code 137. *)
Example ceiling_exhaustion_terminates :
  exists w, gg_gc_alloc 2048 4096 0 limited_world = Exited 137 w
            /\ stderr w = ceiling_message 0 1024 2048.
Proof. eexists. split; reflexivity. Qed.

(** An object released by [gg_free] is off the list for the next cycle. *)
Example explicit_free_unlinks :
  let w1 := world_of (gg_gc_alloc 100 4096 0 fresh_world) in
  let w := gg_gc_collect (gg_free 4120 w1) in
  total_allocated (gc w) = 0 /\ heap (gc w) = [] /\ freed w = [4096].
Proof. vm_compute. repeat split. Qed.

(** * Further properties of the collector *)

(** ** Removing a root *)

Lemma root_index_None (root_ptr : Z) (rs : list Z) :
  root_index root_ptr rs = None <-> root_ptr ∉ rs.
Proof.
  induction rs as [|r rs IH]; simpl.
  - split; [intros _ H; inversion H | reflexivity].
  - rewrite not_elem_of_cons. destruct (Z.eqb_spec r root_ptr) as [E | E].
    + split; [discriminate | intros [H _]; congruence].
    + destruct (root_index root_ptr rs).
      * split; [discriminate | intros [_ H]; apply IH in H; discriminate].
      * split; [intros _; split; [congruence | apply IH; reflexivity] | reflexivity].
Qed.

Lemma root_index_first (root_ptr : Z) (before after : list Z) :
  root_ptr ∉ before ->
  root_index root_ptr (before ++ root_ptr :: after) = Some (length before).
Proof.
  induction before as [|r before IH]; simpl; intros Hnot.
  - rewrite Z.eqb_refl. reflexivity.
  - apply not_elem_of_cons in Hnot as [Hne Hnot].
    destruct (Z.eqb_spec r root_ptr); [congruence |].
    rewrite (IH Hnot). reflexivity.
Qed.

Lemma shift_down_spec (n : nat) :
  forall j rs, (j + n < length rs)%nat ->
    shift_down n j rs = take j rs ++ take n (drop (S j) rs) ++ drop (j + n) rs.
Proof.
  induction n as [|n IH]; intros j rs Hlen; simpl.
  - rewrite Nat.add_0_r, take_drop. reflexivity.
  - destruct (lookup_lt_is_Some_2 rs (S j)) as [x Hx]; [lia |].
    rewrite Hx. simpl. rewrite IH by (rewrite length_insert; lia).
    rewrite (take_S_r _ _ x)
      by (rewrite list_lookup_insert_eq by lia; reflexivity).
    rewrite take_insert_ge by lia.
    rewrite !drop_insert_lt by lia.
    rewrite (drop_S rs x (S j) Hx). simpl.
    rewrite <- app_assoc. simpl.
    replace (S (j + n))%nat with (j + S n)%nat by lia. reflexivity.
Qed.

Lemma remove_root_registered (root_ptr : Z) (w : world) (before after : list Z) :
  0 <= root_count (gc w) <= Z.of_nat (length (roots (gc w))) ->
  active_roots (gc w) = before ++ root_ptr :: after ->
  root_ptr ∉ before ->
  active_roots (gc (gg_gc_remove_root root_ptr w)) = before ++ after
  /\ gc (gg_gc_remove_root root_ptr w)
     = Registry (heap (gc w)) (roots (gc (gg_gc_remove_root root_ptr w)))
                (root_count (gc w) - 1) (alloc_count (gc w)) (threshold (gc w))
                (total_allocated (gc w)) (total_collected (gc w))
                (collections (gc w)) (memory_limit (gc w))
  /\ mem (gg_gc_remove_root root_ptr w) = mem w
  /\ freed (gg_gc_remove_root root_ptr w) = freed w
  /\ stderr (gg_gc_remove_root root_ptr w) = stderr w.
Proof.
  intros [Hlo Hhi] Hact Hnot. unfold gg_gc_remove_root.
  rewrite Hact, (root_index_first _ _ _ Hnot). simpl.
  split; [| repeat split].
  unfold active_roots in *. simpl.
  set (count := Z.to_nat (root_count (gc w))) in *.
  set (rs := roots (gc w)) in *.
  assert (Hcount : count = (length before + S (length after))%nat).
  { rewrite <- (length_take_le rs count) by lia.
    rewrite Hact, length_app. reflexivity. }
  replace (Z.to_nat (root_count (gc w) - 1))
    with (length before + length after)%nat by lia.
  replace (count - 1 - length before)%nat with (length after) by lia.
  rewrite shift_down_spec by lia.
  assert (Hb : take (length before) rs = before).
  { replace (length before) with (length before `min` count)%nat by lia.
    rewrite <- take_take, Hact, take_app_length. reflexivity. }
  assert (Ha : take (length after) (drop (S (length before)) rs) = after).
  { rewrite take_drop_commute.
    replace (S (length before) + length after)%nat with count by lia.
    rewrite Hact, (cons_middle root_ptr before after), app_assoc.
    apply drop_app_length'. rewrite length_app. simpl. lia. }
  rewrite Hb, Ha, app_assoc, take_app_length'; [reflexivity |].
  rewrite length_app. reflexivity.
Qed.

(** X1: [gg_gc_remove_root] takes the first registration of the slot out of
    the registered roots and keeps the others in order, the root count
    going down by one; a slot that is not registered leaves the world as it
    was.  Nothing else of the registry changes. *)
Theorem gg_gc_remove_root_first (root_ptr : Z) (w : world) :
  0 <= root_count (gc w) <= Z.of_nat (length (roots (gc w))) ->
  let w' := gg_gc_remove_root root_ptr w in
  (root_ptr ∉ active_roots (gc w) -> w' = w)
  /\ (forall before after,
         active_roots (gc w) = before ++ root_ptr :: after ->
         root_ptr ∉ before ->
         active_roots (gc w') = before ++ after
         /\ root_count (gc w') = root_count (gc w) - 1
         /\ heap (gc w') = heap (gc w)
         /\ total_allocated (gc w') = total_allocated (gc w)
         /\ mem w' = mem w /\ freed w' = freed w /\ stderr w' = stderr w).
Proof.
  intros Hrange w'. subst w'. split.
  - intros Hnot. unfold gg_gc_remove_root.
    apply root_index_None in Hnot. rewrite Hnot. reflexivity.
  - intros before after Hact Hnot.
    destruct (remove_root_registered _ _ _ _ Hrange Hact Hnot)
      as (Ha & Hg & Hm & Hf & He).
    split; [exact Ha |]. rewrite Hm, Hf, He, Hg. simpl. repeat split.
Qed.

Lemma gg_gc_remove_root_first_witness :
  gg_gc_remove_root 7 fresh_world = fresh_world
  /\ active_roots
       (gc (gg_gc_remove_root 512
              (gg_gc_add_root 512 (gg_gc_add_root 520
                 (gg_gc_add_root 512 fresh_world))))) = [520; 512].
Proof.
  split.
  - destruct (gg_gc_remove_root_first 7 fresh_world) as [Habsent _];
      [vm_compute; split; congruence |].
    apply Habsent. vm_compute. intros H. inversion H.
  - destruct (gg_gc_remove_root_first 512
                (gg_gc_add_root 512 (gg_gc_add_root 520
                   (gg_gc_add_root 512 fresh_world)))) as [_ Hfirst];
      [vm_compute; split; congruence |].
    destruct (Hfirst [] [520; 512]) as [Hact _];
      [reflexivity | intros H; inversion H | exact Hact].
Defined.

(** X2: registering a slot that is not registered and removing it again
    gives back the registered roots and the root count. *)
Theorem add_then_remove_root (root_ptr : Z) (w : world) :
  length (roots (gc w)) = Z.to_nat GG_GC_MAX_ROOTS ->
  0 <= root_count (gc w) < GG_GC_MAX_ROOTS ->
  root_ptr ∉ active_roots (gc w) ->
  let w' := gg_gc_remove_root root_ptr (gg_gc_add_root root_ptr w) in
  active_roots (gc w') = active_roots (gc w)
  /\ root_count (gc w') = root_count (gc w)
  /\ heap (gc w') = heap (gc w) /\ stderr w' = stderr w.
Proof.
  intros Hlen [Hlo Hhi] Hnot w'. subst w'.
  destruct (add_root_room root_ptr w Hhi) as (Hg & Herr & Hfr & Hm).
  assert (Hn : (Z.to_nat (root_count (gc w)) < length (roots (gc w)))%nat)
    by (rewrite Hlen; apply Z2Nat.inj_lt; unfold GG_GC_MAX_ROOTS in *; lia).
  assert (Hact : active_roots (gc (gg_gc_add_root root_ptr w))
                 = active_roots (gc w) ++ [root_ptr]).
  { rewrite Hg. unfold active_roots. simpl.
    replace (Z.to_nat (root_count (gc w) + 1))
      with (S (Z.to_nat (root_count (gc w)))) by lia.
    rewrite (take_S_r _ _ root_ptr)
      by (apply list_lookup_insert_eq; exact Hn).
    rewrite take_insert_ge by lia. reflexivity. }
  destruct (remove_root_registered root_ptr (gg_gc_add_root root_ptr w)
              (active_roots (gc w)) [])
    as (Ha & Hg' & _ & _ & He); [| exact Hact | exact Hnot |].
  - rewrite Hg. simpl. rewrite length_insert. lia.
  - rewrite Ha, He, Hg', Hg, app_nil_r. simpl. repeat split; [lia | exact Herr].
Qed.

Lemma add_then_remove_root_witness :
  active_roots (gc (gg_gc_remove_root 512 (gg_gc_add_root 512 sample_world)))
  = active_roots (gc sample_world).
Proof.
  apply (add_then_remove_root 512 sample_world).
  - reflexivity.
  - vm_compute. split; congruence.
  - vm_compute. intros H. inversion H as [|? ? ? H']; inversion H'.
Defined.

(** ** What a cycle keeps and what it releases *)

Lemma gg_gc_collect_marked (w : world) :
  exists s', gg_gc_mark_depth (length (heap (gc w))) w = Some s'
             /\ shape (fst s') = shape (heap (gc w))
             /\ heap (gc (gg_gc_collect w)) = survivors (fst s')
             /\ freed (gg_gc_collect w) = freed w ++ map addr (garbage (fst s'))
             /\ gg_gc_mark w = set_gc (set_heap (fst s') (gc w)) w.
Proof.
  destruct (gg_gc_collect_fields w)
    as (Hh & _ & _ & _ & _ & _ & _ & _ & _ & _ & _ & Hf).
  destruct (gg_gc_mark_eq w) as (s' & Hrun & Hmark). exists s'.
  rewrite Hmark in Hh, Hf. cbn [gc set_gc heap set_heap] in Hh, Hf.
  pose proof (mark_roots_same_shape _ _ _ _ _ Hrun) as Hs.
  unfold same_shape in Hs. simpl in Hs. auto.
Qed.

Lemma filter_partition (f : gg_gc_header -> bool) (hp : list gg_gc_header) :
  hp ≡ₚ List.filter (fun obj => negb (f obj)) hp ++ List.filter f hp.
Proof.
  induction hp as [|o hp IH]; simpl; [reflexivity |].
  destruct (f o); simpl.
  - rewrite <- Permutation_middle. constructor. exact IH.
  - constructor. exact IH.
Qed.

Lemma survivors_shape (hp : list gg_gc_header) :
  shape (survivors hp)
  = shape (List.filter (fun obj => negb (marked obj =? 0)) hp).
Proof.
  unfold survivors, shape.
  induction (List.filter _ hp) as [|o l IH]; simpl; [reflexivity |].
  rewrite IH. reflexivity.
Qed.

Lemma filter_shape_sublist (f : gg_gc_header -> bool) (hp : list gg_gc_header) :
  shape (List.filter f hp) `sublist_of` shape hp.
Proof.
  unfold shape. induction hp as [|o hp IH]; simpl; [constructor |].
  destruct (f o); simpl; [apply sublist_skip | apply sublist_cons]; exact IH.
Qed.

(** X3: a cycle writes no payload word, no root and no ceiling and prints
    nothing; the headers it leaves on the list are headers of the list
    before it, with the same sizes and in the same order. *)
Theorem gg_gc_collect_frame (w : world) :
  let w' := gg_gc_collect w in
  mem w' = mem w /\ stderr w' = stderr w
  /\ roots (gc w') = roots (gc w) /\ root_count (gc w') = root_count (gc w)
  /\ memory_limit (gc w') = memory_limit (gc w)
  /\ shape (heap (gc w')) `sublist_of` shape (heap (gc w)).
Proof.
  destruct (gg_gc_collect_fields w)
    as (_ & _ & _ & Hr & Hrc & _ & _ & _ & Hml & Hm & He & _).
  destruct (gg_gc_collect_marked w) as (s' & _ & Hs & Hh & _).
  repeat split; try assumption.
  rewrite Hh, survivors_shape, <- Hs. apply filter_shape_sublist.
Qed.

(** X4: a cycle releases each header it takes off the list exactly once and
    releases nothing else: the addresses of the list before the cycle are,
    up to order, those of the list after it followed by those passed to
    [free]. *)
Theorem gg_gc_collect_partition (w : world) :
  let w' := gg_gc_collect w in
  exists released,
    freed w' = freed w ++ released
    /\ map addr (heap (gc w)) ≡ₚ map addr (heap (gc w')) ++ released.
Proof.
  destruct (gg_gc_collect_marked w) as (s' & _ & Hs & Hh & Hf & _).
  exists (map addr (garbage (fst s'))). split; [exact Hf |].
  rewrite Hh, <- (shape_addr _ _ Hs).
  assert (Hk : map addr (survivors (fst s'))
               = map addr (List.filter (fun obj => negb (marked obj =? 0))
                                       (fst s'))).
  { unfold survivors. induction (List.filter _ (fst s')) as [|o l IH];
      simpl; [reflexivity | rewrite IH; reflexivity]. }
  rewrite Hk. unfold garbage.
  rewrite <- map_app. apply Permutation_map.
  apply (filter_partition (fun obj => marked obj =? 0)).
Qed.

Lemma sweep_loop_conserved (hp : list gg_gc_header) :
  forall ta tc fr,
    let counters := fst (snd (sweep_loop hp ta tc fr)) in
    wrap (fst counters + snd counters) = wrap (ta + tc).
Proof.
  induction hp as [|o hp IH]; intros ta tc fr; simpl; [reflexivity |].
  destruct (marked o =? 0).
  - rewrite IH. unfold wrap.
    rewrite <- Zplus_mod. f_equal. lia.
  - specialize (IH ta tc fr). destruct (sweep_loop hp ta tc fr) as [kept c].
    exact IH.
Qed.

(** X5: the bytes a cycle takes off [total_allocated] are the bytes it adds
    to [total_collected]: the sum of the two counters, as a [size_t], is
    the same before and after; [gg_gc_shutdown] moves the whole of an
    accounted [total_allocated] to [total_collected]. *)
Theorem bytes_collected_conserved (w : world) :
  wrap (total_allocated (gc (gg_gc_collect w))
        + total_collected (gc (gg_gc_collect w)))
  = wrap (total_allocated (gc w) + total_collected (gc w))
  /\ (bytes_accounted (gc w) -> is_size_t (total_collected (gc w)) ->
      total_collected (gc (gg_gc_shutdown w))
      = wrap (total_allocated (gc w) + total_collected (gc w))).
Proof.
  split.
  - destruct (gg_gc_collect_fields w) as (_ & -> & -> & _).
    destruct (gg_gc_mark_fields w) as (_ & _ & Hg & _).
    unfold gg_gc_sweep.
    pose proof (sweep_loop_conserved
                  (heap (gc (gg_gc_mark w))) (total_allocated (gc (gg_gc_mark w)))
                  (total_collected (gc (gg_gc_mark w))) (freed (gg_gc_mark w)))
      as Hc.
    destruct (sweep_loop _ _ _ _) as [kept [[ta tc] fr]]. simpl in *.
    rewrite Hc, Hg. reflexivity.
  - intros Hacc Htc. unfold gg_gc_shutdown.
    rewrite shutdown_loop_spec by exact Htc. simpl.
    rewrite Hacc. f_equal. lia.
Qed.

Lemma bytes_collected_conserved_witness :
  total_collected (gc (gg_gc_shutdown sample_world)) = 40.
Proof.
  destruct (bytes_collected_conserved sample_world) as [_ Hs].
  apply Hs; [reflexivity | vm_compute; split; congruence].
Defined.

(** ** A cycle after a cycle *)

Lemma survivors_reachable (w : world) (s' : mark_state) (obj : gg_gc_header) :
  valid_headers (heap (gc w)) -> marks_clear (heap (gc w)) ->
  gg_gc_mark_depth (length (heap (gc w))) w = Some s' ->
  obj ∈ survivors (fst s') <-> obj ∈ heap (gc w) /\ reachable w (addr obj).
Proof.
  intros Hv Hc Hrun.
  pose proof (gg_gc_mark_depth_reachable w _ s' Hv Hc Hrun) as Hreach.
  pose proof (mark_roots_same_shape _ _ _ _ _ Hrun) as Hs.
  unfold same_shape in Hs. simpl in Hs.
  assert (Hnd : NoDup (map addr (fst s')))
    by (rewrite (shape_addr _ _ Hs); apply Hv).
  assert (Hzero : forall o, o ∈ heap (gc w) -> marked o = 0).
  { unfold marks_clear in Hc. rewrite Forall_forall in Hc. exact Hc. }
  rewrite survivors_elem. split.
  - intros (o & Ho & Hom & ->). simpl.
    assert (Ha : (addr o, size o) ∈ shape (heap (gc w)))
      by (rewrite <- Hs; apply shape_elem; eauto).
    apply shape_elem in Ha as (o0 & Hin & Ha & Hsz). split.
    + rewrite <- Ha, <- Hsz, <- (Hzero o0 Hin). destruct o0; exact Hin.
    + apply Hreach. unfold marked_at.
      rewrite (header_at_NoDup _ _ Hnd Ho). exact Hom.
  - intros [Hin Hr].
    assert (Ha : (addr obj, size obj) ∈ shape (fst s'))
      by (rewrite Hs; apply shape_elem; eauto).
    apply shape_elem in Ha as (o & Ho & Ha & Hsz).
    exists o. split; [exact Ho |]. split.
    + apply Hreach in Hr. unfold marked_at in Hr.
      rewrite <- Ha, (header_at_NoDup _ _ Hnd Ho) in Hr. exact Hr.
    + rewrite Ha, Hsz, <- (Hzero obj Hin). destruct obj; reflexivity.
Qed.

Lemma gg_gc_collect_heap_elem (w : world) (obj : gg_gc_header) :
  valid_headers (heap (gc w)) -> marks_clear (heap (gc w)) ->
  obj ∈ heap (gc (gg_gc_collect w))
  <-> obj ∈ heap (gc w) /\ reachable w (addr obj).
Proof.
  intros Hv Hc. destruct (gg_gc_collect_marked w) as (s' & Hrun & _ & -> & _).
  apply survivors_reachable; assumption.
Qed.

Lemma active_roots_collect (w : world) :
  active_roots (gc (gg_gc_collect w)) = active_roots (gc w).
Proof.
  destruct (gg_gc_collect_fields w) as (_ & _ & _ & Hr & Hrc & _).
  unfold active_roots. rewrite Hr, Hrc. reflexivity.
Qed.

(** What is reachable before a cycle is reachable after it. *)
Lemma reachable_after_collect (w : world) (a : Z) :
  valid_headers (heap (gc w)) -> marks_clear (heap (gc w)) ->
  reachable w a -> reachable (gg_gc_collect w) a.
Proof.
  intros Hv Hc Hr.
  destruct (gg_gc_collect_fields w)
    as (_ & _ & _ & _ & _ & _ & _ & _ & _ & Hm & _).
  assert (Hkept : forall x b, resolves (heap (gc w)) x b -> reachable w b ->
                              resolves (heap (gc (gg_gc_collect w))) x b).
  { intros x b [Hin Hx] Hb. split; [| exact Hx].
    apply list_elem_of_fmap in Hin as (obj & -> & Hin).
    apply list_elem_of_fmap_2. apply gg_gc_collect_heap_elem; auto. }
  induction Hr as [x a Hx Ha | obj x b Hobj IH Hin Hx Hb].
  - apply (reachable_root _ x a).
    + destruct Hx as (r & Hr & Hne & ->). exists r.
      rewrite active_roots_collect, Hm. auto.
    + apply Hkept; [exact Ha | apply (reachable_root w x a); assumption].
  - apply (reachable_body _ obj x b).
    + exact IH.
    + apply gg_gc_collect_heap_elem; auto.
    + rewrite Hm. exact Hx.
    + apply Hkept; [exact Hb |].
      apply (reachable_body w obj x b); assumption.
Qed.

Lemma sweep_loop_all_marked (hp : list gg_gc_header) (ta tc : Z) (fr : list Z) :
  Forall (fun obj => marked obj <> 0) hp ->
  sweep_loop hp ta tc fr
  = (map (fun obj => Header (addr obj) (size obj) 0) hp, (ta, tc, fr)).
Proof.
  induction 1 as [|o hp Ho _ IH]; simpl; [reflexivity |].
  destruct (Z.eqb_spec (marked o) 0); [contradiction |].
  rewrite IH. reflexivity.
Qed.

Lemma clear_of_shape (hp hp' : list gg_gc_header) :
  shape hp' = shape hp -> marks_clear hp ->
  map (fun obj => Header (addr obj) (size obj) 0) hp' = hp.
Proof.
  unfold shape, marks_clear. revert hp'.
  induction hp as [|o hp IH]; intros [|o' hp']; simpl; try discriminate;
    [reflexivity |].
  intros [= Ha Hs Hrest] Hc. apply Forall_cons in Hc as [Ho Hc].
  rewrite (IH _ Hrest Hc), Ha, Hs, <- Ho. destruct o; reflexivity.
Qed.

(** X6: a cycle run right after a cycle finds nothing to release: the list,
    the byte counters and the calls to [free] are those the first cycle
    left. *)
Theorem gg_gc_collect_twice (w : world) :
  valid_headers (heap (gc w)) -> marks_clear (heap (gc w)) ->
  let w1 := gg_gc_collect w in
  let w2 := gg_gc_collect w1 in
  heap (gc w2) = heap (gc w1) /\ freed w2 = freed w1
  /\ total_allocated (gc w2) = total_allocated (gc w1)
  /\ total_collected (gc w2) = total_collected (gc w1).
Proof.
  intros Hv Hc w1 w2.
  assert (Hv1 : valid_headers (heap (gc w1))) by apply gg_gc_collect_valid, Hv.
  assert (Hc1 : marks_clear (heap (gc w1))) by apply gg_gc_collect_marks_clear.
  destruct (gg_gc_collect_marked w1) as (s2 & Hrun & Hs & _ & _ & Hmark).
  pose proof (gg_gc_mark_depth_reachable w1 _ s2 Hv1 Hc1 Hrun) as Hreach.
  assert (Hnd : NoDup (map addr (fst s2)))
    by (rewrite (shape_addr _ _ Hs); apply Hv1).
  assert (Hall : Forall (fun obj => marked obj <> 0) (fst s2)).
  { apply Forall_forall. intros o Ho.
    assert (Ha : (addr o, size o) ∈ shape (heap (gc w1)))
      by (rewrite <- Hs; apply shape_elem; eauto).
    apply shape_elem in Ha as (o1 & Hin1 & Ha & _).
    assert (Hr : reachable w1 (addr o)).
    { rewrite <- Ha. apply reachable_after_collect; [exact Hv | exact Hc |].
      apply (gg_gc_collect_heap_elem w o1 Hv Hc). exact Hin1. }
    apply Hreach in Hr. unfold marked_at in Hr.
    rewrite (header_at_NoDup _ _ Hnd Ho) in Hr. exact Hr. }
  destruct (gg_gc_collect_fields w1)
    as (_ & Hta & Htc & _ & _ & _ & _ & _ & _ & _ & _ & _).
  fold w2 in Hta, Htc.
  assert (Hsweep : gg_gc_sweep (gg_gc_mark w1)
                   = World (set_heap (heap (gc w1)) (gc w1))
                           (mem w1) (freed w1) (stderr w1)).
  { rewrite Hmark. unfold gg_gc_sweep. cbn [gc set_gc heap set_heap
      total_allocated total_collected freed mem stderr roots root_count
      alloc_count threshold collections memory_limit].
    rewrite (sweep_loop_all_marked _ _ _ _ Hall), (clear_of_shape _ _ Hs Hc1).
    reflexivity. }
  unfold w2 at 1 2. unfold gg_gc_collect. rewrite Hsweep in *.
  cbn [gc set_gc heap set_heap total_allocated total_collected freed] in *.
  repeat split; assumption.
Qed.

Lemma gg_gc_collect_twice_witness :
  heap (gc (gg_gc_collect (gg_gc_collect sample_world)))
  = heap (gc (gg_gc_collect sample_world))
  /\ freed (gg_gc_collect (gg_gc_collect sample_world))
     = freed (gg_gc_collect sample_world).
Proof.
  destruct (gg_gc_collect_twice sample_world) as (Hh & Hf & _).
  - split; simpl; [repeat (apply NoDup_cons; split;
                           [rewrite ?elem_of_cons, elem_of_nil; lia |]);
                   apply NoDup_nil; exact I |].
    rewrite SIZE_MOD_val. unfold sizeof_header. repeat constructor; lia.
  - repeat constructor.
  - split; assumption.
Defined.

(** ** What an allocation returns *)

Lemma alloc_block_header (sz first second : Z) (w : world) p w' :
  alloc_block sz first second w = Returned p w' ->
  exists w0 header,
    (w0 = w \/ w0 = gg_gc_collect w) /\ (header = first \/ header = second)
    /\ header <> 0
    /\ link_header header sz
         (calloc_zero header (wrap (sizeof_header + sz)) w0) = Returned p w'.
Proof.
  unfold alloc_block. destruct (Z.eqb_spec first 0) as [E1 | E1].
  - destruct (Z.eqb_spec second 0) as [E2 | E2]; [discriminate |].
    intros H. exists (gg_gc_collect w), second. auto.
  - intros H. exists w, first. auto.
Qed.

Lemma gg_gc_alloc_header (sz first second : Z) (w : world) p w' :
  gg_gc_alloc sz first second w = Returned p w' ->
  exists w0 header,
    collected_from w w0 /\ (header = first \/ header = second) /\ header <> 0
    /\ link_header header sz
         (calloc_zero header (wrap (sizeof_header + sz)) w0) = Returned p w'.
Proof.
  unfold gg_gc_alloc. cbv zeta.
  set (w1 := if threshold (gc w) <=? alloc_count (gc w)
             then gg_gc_collect w else w).
  assert (H1 : collected_from w w1).
  { subst w1. destruct (_ <=? _); repeat constructor. }
  assert (Hfinish : forall wc : world,
    collected_from w wc ->
    alloc_block sz first second wc = Returned p w' ->
    exists w0 header,
      collected_from w w0 /\ (header = first \/ header = second) /\ header <> 0
      /\ link_header header sz
           (calloc_zero header (wrap (sizeof_header + sz)) w0) = Returned p w').
  { intros wc Hc Hb.
    apply alloc_block_header in Hb as (w0 & header & [-> | ->] & Hw & Hh & Hl).
    - exists wc, header. auto.
    - exists (gg_gc_collect wc), header.
      split; [constructor; exact Hc | auto]. }
  destruct ((0 <? memory_limit (gc w1))
            && (memory_limit (gc w1) <? wrap (total_allocated (gc w1) + sz))).
  - destruct (_ <? _); [intros ?; discriminate |].
    apply Hfinish. constructor. exact H1.
  - apply Hfinish. exact H1.
Qed.

Lemma payload_resolves (header sz : Z) (rest : list gg_gc_header) :
  0 < header -> header + sizeof_header < SIZE_MOD ->
  wrap (header + sizeof_header) = header + sizeof_header
  /\ gg_gc_find_header (Header header sz 0 :: rest) (header + sizeof_header)
     = Some header.
Proof.
  intros H0 H1. unfold sizeof_header in *.
  split; [apply wrap_small; lia |].
  unfold gg_gc_find_header, header_at, sizeof_header.
  destruct (Z.eqb_spec (header + 24) 0); [lia |].
  replace (header + 24 - 24) with header by lia.
  rewrite wrap_small by lia. simpl. rewrite Z.eqb_refl. reflexivity.
Qed.

(** X7: a call of [gg_gc_alloc] that returns never returns [NULL]: the host
    having handed out a block whose header and payload pointer are
    addresses, the pointer returned is one header past the block, the
    header is the head of the list with the size requested and a clear
    mark bit, and the pointer returned resolves to it. *)
Theorem gg_gc_alloc_resolves (sz first second : Z) (w : world) p w' :
  (first <> 0 -> 0 < first /\ first + sizeof_header < SIZE_MOD) ->
  (second <> 0 -> 0 < second /\ second + sizeof_header < SIZE_MOD) ->
  gg_gc_alloc sz first second w = Returned p w' ->
  p <> 0
  /\ exists header rest,
      heap (gc w') = Header header sz 0 :: rest
      /\ p = header + sizeof_header
      /\ gg_gc_find_header (heap (gc w')) p = Some header.
Proof.
  intros Hf Hs Hret.
  apply gg_gc_alloc_header in Hret as (w0 & header & _ & Hwhich & Hne & Hl).
  assert (Hrange : 0 < header /\ header + sizeof_header < SIZE_MOD)
    by (destruct Hwhich as [-> | ->]; auto).
  destruct Hrange as [H0 H1].
  destruct (payload_resolves header sz (heap (gc w0)) H0 H1) as [Hp Hfind].
  injection Hl as <- <-. rewrite Hp. simpl.
  split; [unfold sizeof_header; lia |].
  exists header, (heap (gc w0)). auto.
Qed.

Lemma gg_gc_alloc_resolves_witness :
  4120 <> 0
  /\ exists header rest,
      heap (gc used_world) = Header header 64 0 :: rest
      /\ 4120 = header + sizeof_header
      /\ gg_gc_find_header (heap (gc used_world)) 4120 = Some header.
Proof.
  apply (gg_gc_alloc_resolves 64 4096 0 (gg_gc_set_memory_limit 4096 fresh_world)).
  - intros _. rewrite SIZE_MOD_val. unfold sizeof_header. lia.
  - intros H. contradiction.
  - reflexivity.
Defined.

(** X8: the payload of the object that [gg_gc_alloc] returns reads as zero:
    every word of its body is 0, so a new object points to nothing.  The
    request and the header size fit a [size_t]. *)
Theorem gg_gc_alloc_zeroed (sz first second : Z) (w : world) p w' :
  0 <= sz -> sizeof_header + sz < SIZE_MOD ->
  gg_gc_alloc sz first second w = Returned p w' ->
  exists obj rest,
    heap (gc w') = obj :: rest /\ size obj = sz
    /\ Forall (fun x => x = 0) (body_words (mem w') obj).
Proof.
  intros Hsz Hfit Hret.
  apply gg_gc_alloc_header in Hret as (w0 & header & _ & _ & _ & Hl).
  injection Hl as <- <-. simpl.
  exists (Header header sz 0), (heap (gc w0)).
  split; [reflexivity |]. split; [reflexivity |].
  apply Forall_forall. intros x Hx. unfold body_words in Hx. simpl in Hx.
  apply list_elem_of_fmap in Hx as (i & -> & Hi).
  apply elem_of_seq in Hi as [_ Hi]. simpl in Hi.
  unfold load.
  rewrite (wrap_small (sizeof_header + sz))
    by (unfold sizeof_header in *; lia).
  assert (Hw : sizeof_ptr * Z.of_nat i + sizeof_ptr <= sz).
  { unfold sizeof_ptr in *.
    assert (Z.of_nat i < sz / 8) by lia.
    pose proof (Z.mul_div_le sz 8 ltac:(lia)). lia. }
  unfold sizeof_ptr, sizeof_header in *.
  destruct (Z.leb_spec header (header + 24 + 8 * Z.of_nat i)); [| lia].
  destruct (Z.leb_spec (header + 24 + 8 * Z.of_nat i + 8) (header + (24 + sz)));
    [| lia].
  simpl. unfold wrap. reflexivity.
Qed.

Lemma gg_gc_alloc_zeroed_witness :
  exists obj rest,
    heap (gc used_world) = obj :: rest /\ size obj = 64
    /\ Forall (fun x => x = 0) (body_words (mem used_world) obj).
Proof.
  apply (gg_gc_alloc_zeroed 64 4096 0 (gg_gc_set_memory_limit 4096 fresh_world)
                            4120 used_world).
  - lia.
  - rewrite SIZE_MOD_val. unfold sizeof_header. lia.
  - reflexivity.
Defined.

(** ** Explicit release *)

Lemma wrap_sub_add (a s : Z) : wrap (wrap (a + s) - s) = wrap a.
Proof.
  unfold wrap. rewrite Zminus_mod_idemp_l. f_equal. lia.
Qed.

(** X9: releasing with [gg_free] the pointer that [gg_gc_alloc] has just
    returned takes the new header off the list again: the list and
    [total_allocated] are those of the world in which the header was
    linked (the entry world after the cycles the call ran), and the block
    released to the host is the header. *)
Theorem gg_gc_alloc_then_free (sz first second : Z) (w : world) p w' :
  (first <> 0 -> 0 < first /\ first + sizeof_header < SIZE_MOD) ->
  (second <> 0 -> 0 < second /\ second + sizeof_header < SIZE_MOD) ->
  gg_gc_alloc sz first second w = Returned p w' ->
  exists w0 header,
    collected_from w w0 /\ p = header + sizeof_header
    /\ heap (gc (gg_free p w')) = heap (gc w0)
    /\ total_allocated (gc (gg_free p w')) = wrap (total_allocated (gc w0))
    /\ freed (gg_free p w') = freed w0 ++ [header].
Proof.
  intros Hf Hs Hret.
  apply gg_gc_alloc_header in Hret as (w0 & header & Hc & Hwhich & Hne & Hl).
  assert (Hrange : 0 < header /\ header + sizeof_header < SIZE_MOD)
    by (destruct Hwhich as [-> | ->]; auto).
  destruct Hrange as [H0 H1].
  destruct (payload_resolves header sz (heap (gc w0)) H0 H1) as [Hp _].
  injection Hl as <- <-. rewrite Hp.
  exists w0, header. split; [exact Hc |]. split; [reflexivity |].
  unfold gg_free, sizeof_header in *.
  destruct (Z.eqb_spec (header + 24) 0); [lia |].
  replace (header + 24 - 24) with header by lia.
  rewrite (wrap_small header) by lia.
  simpl. rewrite Z.eqb_refl. simpl.
  split; [reflexivity |]. split; [apply wrap_sub_add | reflexivity].
Qed.

Lemma gg_gc_alloc_then_free_witness :
  exists w0 header,
    collected_from (gg_gc_set_memory_limit 4096 fresh_world) w0
    /\ 4120 = header + sizeof_header
    /\ heap (gc (gg_free 4120 used_world)) = heap (gc w0)
    /\ total_allocated (gc (gg_free 4120 used_world))
       = wrap (total_allocated (gc w0))
    /\ freed (gg_free 4120 used_world) = freed w0 ++ [header].
Proof.
  apply (gg_gc_alloc_then_free 64 4096 0).
  - intros _. rewrite SIZE_MOD_val. unfold sizeof_header. lia.
  - intros H. contradiction.
  - reflexivity.
Defined.

Lemma unlink_None (target : Z) (hp : list gg_gc_header) :
  unlink target hp = None <-> target ∉ map addr hp.
Proof.
  induction hp as [|o hp IH]; simpl.
  - split; [intros _ H; inversion H | reflexivity].
  - rewrite not_elem_of_cons. destruct (Z.eqb_spec (addr o) target) as [E | E].
    + split; [discriminate | intros [H _]; congruence].
    + destruct (unlink target hp) as [[f rest]|].
      * split; [discriminate | intros [_ H]; apply IH in H; discriminate].
      * split; [intros _; split; [congruence | apply IH; reflexivity]
               | reflexivity].
Qed.

(** X10: [gg_free] of the payload pointer of an object of the list takes
    that header, and no other, off the list, in place; [total_allocated]
    goes down by its size, the block released to the host is the header,
    and afterwards the pointer resolves to nothing while every pointer to
    another object resolves as before. *)
Theorem gg_free_tracked (obj : gg_gc_header) (w : world) :
  valid_headers (heap (gc w)) -> obj ∈ heap (gc w) ->
  let ptr := addr obj + sizeof_header in
  let w' := gg_free ptr w in
  (exists l1 l2, heap (gc w) = l1 ++ obj :: l2 /\ heap (gc w') = l1 ++ l2)
  /\ total_allocated (gc w') = wrap (total_allocated (gc w) - size obj)
  /\ freed w' = freed w ++ [addr obj]
  /\ gg_gc_find_header (heap (gc w')) ptr = None
  /\ (forall q a, a <> addr obj ->
        gg_gc_find_header (heap (gc w')) q = Some a
        <-> gg_gc_find_header (heap (gc w)) q = Some a).
Proof.
  intros Hv Hin ptr w'.
  destruct (valid_header_range _ _ Hv (list_elem_of_fmap_2 addr _ _ Hin))
    as [H0 H1].
  assert (Hptr : ptr <> 0 /\ wrap (ptr - sizeof_header) = addr obj).
  { subst ptr. unfold sizeof_header in *. split; [lia |].
    replace (addr obj + 24 - 24) with (addr obj) by lia.
    apply wrap_small. lia. }
  destruct Hptr as [Hne Htarget].
  destruct (unlink (addr obj) (heap (gc w))) as [[found hp']|] eqn:E.
  2:{ apply unlink_None in E. exfalso. apply E.
      apply list_elem_of_fmap_2. exact Hin. }
  pose proof E as E'.
  apply unlink_Some in E' as (l1 & l2 & Hhp & -> & Ha).
  assert (Hfound : found = obj).
  { pose proof (header_at_NoDup _ _ (proj1 Hv) Hin) as E1.
    assert (Hfin : found ∈ heap (gc w))
      by (rewrite Hhp, elem_of_app, elem_of_cons; auto).
    pose proof (header_at_NoDup _ _ (proj1 Hv) Hfin) as E2.
    rewrite Ha in E2. congruence. }
  subst found.
  assert (Hw' : w' = host_free (addr obj)
                  (set_gc (Registry (l1 ++ l2) (roots (gc w)) (root_count (gc w))
                             (alloc_count (gc w)) (threshold (gc w))
                             (wrap (total_allocated (gc w) - size obj))
                             (total_collected (gc w)) (collections (gc w))
                             (memory_limit (gc w))) w)).
  { subst w'. unfold gg_free.
    destruct (Z.eqb_spec ptr 0); [contradiction |].
    rewrite Htarget, E. reflexivity. }
  rewrite Hw'. simpl.
  assert (Hgone : addr obj ∉ map addr (l1 ++ l2)).
  { destruct Hv as [Hnd _]. rewrite Hhp in Hnd.
    rewrite map_app in *. simpl in Hnd.
    apply NoDup_app in Hnd as (_ & H12 & H2).
    apply NoDup_cons in H2 as [H2 _].
    rewrite elem_of_app. intros [H | H]; [| contradiction].
    apply (H12 _ H). left. }
  split; [exists l1, l2; auto |]. split; [reflexivity |].
  split; [reflexivity |]. split.
  - destruct (gg_gc_find_header (l1 ++ l2) ptr) as [a|] eqn:Ef; [| reflexivity].
    apply find_header_addrs in Ef as (_ & -> & Hmem).
    rewrite Htarget in Hmem. contradiction.
  - intros q a Hna. rewrite !find_header_addrs, Hhp, !map_app. simpl.
    rewrite !elem_of_app, elem_of_cons. intuition congruence.
Qed.

Lemma gg_free_tracked_witness :
  gg_gc_find_header (heap (gc (gg_free 2024 sample_world))) 2024 = None
  /\ total_allocated (gc (gg_free 2024 sample_world)) = 24
  /\ freed (gg_free 2024 sample_world) = [2000].
Proof.
  destruct (gg_free_tracked (Header 2000 16 0) sample_world)
    as (_ & Hta & Hf & Hnone & _).
  - split; simpl; [repeat (apply NoDup_cons; split;
                           [rewrite ?elem_of_cons, elem_of_nil; lia |]);
                   apply NoDup_nil; exact I |].
    rewrite SIZE_MOD_val. unfold sizeof_header. repeat constructor; lia.
  - simpl. rewrite !elem_of_cons. auto.
  - split; [exact Hnone | split; [exact Hta | exact Hf]].
Defined.

(** X11: [gg_free] of a pointer that is not [NULL] and is not the payload
    pointer of an object of the list leaves the registry as it is and
    passes the pointer itself to the host's [free]. *)
Theorem gg_free_untracked (ptr : Z) (w : world) :
  ptr <> 0 -> wrap (ptr - sizeof_header) ∉ map addr (heap (gc w)) ->
  gc (gg_free ptr w) = gc w /\ freed (gg_free ptr w) = freed w ++ [ptr]
  /\ mem (gg_free ptr w) = mem w /\ stderr (gg_free ptr w) = stderr w.
Proof.
  intros Hne Hnot. unfold gg_free.
  destruct (Z.eqb_spec ptr 0); [contradiction |].
  apply unlink_None in Hnot. rewrite Hnot. repeat split.
Qed.

Lemma gg_free_untracked_witness :
  gc (gg_free 777 sample_world) = gc sample_world
  /\ freed (gg_free 777 sample_world) = [777].
Proof.
  destruct (gg_free_untracked 777 sample_world) as (Hg & Hf & _).
  - lia.
  - vm_compute. intros H.
    repeat (inversion H as [|? ? ? H']; clear H; rename H' into H).
  - split; assumption.
Defined.

(** ** How an allocation fails *)

Lemma collected_from_frame (w w0 : world) :
  collected_from w w0 ->
  stderr w0 = stderr w /\ memory_limit (gc w0) = memory_limit (gc w).
Proof.
  intros Hc. induction Hc as [|w0 _ [He Hml]]; [split; reflexivity |].
  destruct (gg_gc_collect_fields w0)
    as (_ & _ & _ & _ & _ & _ & _ & _ & Hml' & _ & He' & _).
  split; congruence.
Qed.

(** X12: [gg_gc_alloc] ends the process in two ways only, both after a
    collection has been tried and with no header linked: with code 137 and
    the three lines of the ceiling message when a ceiling is set and the
    request is still over it, and with code 1 and one line when the host
    has refused the block twice.  When the host refuses twice the call
    never returns. *)
Theorem gg_gc_alloc_exits (sz first second : Z) (w : world) :
  (forall code w',
      gg_gc_alloc sz first second w = Exited code w' ->
      exists wc,
        collected_from w wc /\ gc w' = gc (gg_gc_collect wc)
        /\ freed w' = freed (gg_gc_collect wc)
        /\ ((code = 137 /\ 0 < memory_limit (gc w)
             /\ memory_limit (gc w) < wrap (total_allocated (gc w') + sz)
             /\ stderr w'
                = stderr w ++ ceiling_message (total_allocated (gc w'))
                                              (memory_limit (gc w)) sz)
            \/ (code = 1 /\ first = 0 /\ second = 0
                /\ stderr w' = stderr w ++ [out_of_memory_message sz])))
  /\ (first = 0 -> second = 0 ->
      forall p w', gg_gc_alloc sz first second w <> Returned p w').
Proof.
  split.
  - intros code w'. unfold gg_gc_alloc. cbv zeta.
    set (w1 := if threshold (gc w) <=? alloc_count (gc w)
               then gg_gc_collect w else w).
    assert (H1 : collected_from w w1).
    { subst w1. destruct (_ <=? _); repeat constructor. }
    assert (Hblock : forall wc : world,
      collected_from w wc ->
      alloc_block sz first second wc = Exited code w' ->
      exists wc0,
        collected_from w wc0 /\ gc w' = gc (gg_gc_collect wc0)
        /\ freed w' = freed (gg_gc_collect wc0)
        /\ ((code = 137 /\ 0 < memory_limit (gc w)
             /\ memory_limit (gc w) < wrap (total_allocated (gc w') + sz)
             /\ stderr w'
                = stderr w ++ ceiling_message (total_allocated (gc w'))
                                              (memory_limit (gc w)) sz)
            \/ (code = 1 /\ first = 0 /\ second = 0
                /\ stderr w' = stderr w ++ [out_of_memory_message sz]))).
    { intros wc Hc. unfold alloc_block, link_header.
      destruct (Z.eqb_spec first 0) as [E1 | E1]; [| intros ?; discriminate].
      destruct (Z.eqb_spec second 0) as [E2 | E2]; [| intros ?; discriminate].
      intros [= <- <-]. exists wc. split; [exact Hc |].
      split; [reflexivity |]. split; [reflexivity |]. right.
      destruct (collected_from_frame _ _ (collected_more _ _ Hc)) as [He _].
      cbn [stderr fprintf_stderr]. rewrite He. auto. }
    destruct (collected_from_frame _ _ H1) as [He1 Hml1].
    destruct (collected_from_frame _ _ (collected_more _ _ H1)) as [He2 Hml2].
    destruct (Z.ltb_spec 0 (memory_limit (gc w1))) as [Hlim | Hlim]; cbn [andb];
      [| apply Hblock; exact H1].
    destruct (memory_limit (gc w1) <? wrap (total_allocated (gc w1) + sz));
      [| apply Hblock; exact H1].
    destruct (Z.ltb_spec (memory_limit (gc (gg_gc_collect w1)))
                         (wrap (total_allocated (gc (gg_gc_collect w1)) + sz)))
      as [Hover | Hunder]; [| apply Hblock; constructor; exact H1].
    unfold ceiling_message. rewrite ceiling_exit_world.
    remember (gg_gc_collect w1) as w2 eqn:Hw2.
    intros [= <- <-]. exists w1. rewrite <- Hw2. split; [exact H1 |].
    split; [reflexivity |]. split; [reflexivity |]. left.
    cbn [gc stderr]. rewrite He2, Hml2. repeat split; try lia.
  - intros -> -> p w' Hret.
    apply gg_gc_alloc_header in Hret as (_ & header & _ & [-> | ->] & Hne & _);
      contradiction.
Qed.

Lemma gg_gc_alloc_exits_witness :
  exists wc,
    collected_from fresh_world wc
    /\ gc (world_of (gg_gc_alloc 64 0 0 fresh_world)) = gc (gg_gc_collect wc)
    /\ stderr (world_of (gg_gc_alloc 64 0 0 fresh_world))
       = [out_of_memory_message 64].
Proof.
  destruct (gg_gc_alloc_exits 64 0 0 fresh_world) as [Hexit _].
  destruct (Hexit 1 (world_of (gg_gc_alloc 64 0 0 fresh_world)))
    as (wc & Hc & Hg & _ & _); [reflexivity |].
  exists wc. split; [exact Hc |]. split; [exact Hg | reflexivity].
Defined.

(** * Containers *)

(** ** The stack *)

Section StackProps.
Context {A : Type}.
Implicit Types (s : Stack.gg_stack A) (xs : list A).

Lemma int32_fits_true (x : Z) :
  INT32_MIN <= x <= INT32_MAX -> int32_fits x = true.
Proof.
  intros Hx. unfold int32_fits.
  destruct (Z.leb_spec INT32_MIN x); [| lia].
  destruct (Z.leb_spec x INT32_MAX); [reflexivity | lia].
Qed.

Lemma write_slot_there (elem_sz i : Z) (value : A) (block : list A) :
  0 < elem_sz -> 0 <= i < Z.of_nat (length block) ->
  i * elem_sz <= INT32_MAX ->
  write_slot elem_sz i value block = Ok (<[Z.to_nat i := value]> block).
Proof.
  intros Hes Hi Hmax. unfold write_slot.
  rewrite int32_fits_true by (unfold INT32_MIN; nia).
  destruct (Z.ltb_spec 0 elem_sz); [| lia].
  destruct (Z.leb_spec 0 i); [| lia].
  destruct (Z.ltb_spec i (Z.of_nat (length block))); [reflexivity | lia].
Qed.

Lemma read_slot_there (elem_sz i : Z) (block : list A) :
  0 < elem_sz -> 0 <= i -> i * elem_sz <= INT32_MAX ->
  read_slot elem_sz i block = block !! Z.to_nat i.
Proof.
  intros Hes Hi Hmax. unfold read_slot.
  rewrite int32_fits_true by (unfold INT32_MIN; nia).
  destruct (Z.ltb_spec 0 elem_sz); [| lia].
  destruct (Z.leb_spec 0 i); [reflexivity | lia].
Qed.

Lemma stack_push_holds (realloc : list A -> Z -> option (list A))
    s xs (value : A) :
  stack_holds s xs ->
  0 < Stack.elem_size s ->
  Stack.capacity s * Stack.elem_size s <= INT32_MAX ->
  (Stack.capacity s <= Stack.count s ->
   Stack.capacity s * 2 * Stack.elem_size s <= INT32_MAX
   /\ exists extra,
       realloc (Stack.data s) (Stack.capacity s * 2 * Stack.elem_size s)
       = Some (Stack.data s ++ extra)
       /\ Z.of_nat (length extra) = Stack.capacity s) ->
  exists s', Stack.gg_stack_push realloc (Some s) value = Ok (Some s')
             /\ stack_holds s' (xs ++ [value]).
Proof.
  intros (Hcap & Hlen & Hcount & Hle & Htake) Hes Hbytes Hgrow.
  unfold Stack.gg_stack_push. cbv zeta.
  destruct (Z.leb_spec (Stack.capacity s) (Stack.count s)) as [Hfull | Hroom].
  - destruct (Hgrow Hfull) as (Hmax & extra & Hre & Hb).
    assert (Hcap2 : Stack.capacity s * 2 <= INT32_MAX) by nia.
    rewrite !int32_fits_true by (unfold INT32_MIN; nia). cbn [andb].
    rewrite wrap_small by (rewrite SIZE_MOD_val; unfold INT32_MAX in *; nia).
    rewrite Hre. cbn [Stack.elem_size Stack.count Stack.data Stack.capacity].
    rewrite write_slot_there by (rewrite ?length_app; nia).
    rewrite int32_fits_true by (unfold INT32_MIN; lia).
    eexists. split; [reflexivity |].
    unfold stack_holds. simpl. rewrite length_insert, !length_app. simpl.
    split; [lia |]. split; [lia |]. split; [lia |]. split; [lia |].
    rewrite Hcount, Nat2Z.id.
    replace (length xs + 1)%nat with (S (length xs)) by lia.
    rewrite (take_S_r _ _ value)
      by (apply list_lookup_insert_eq; rewrite length_app; lia).
    rewrite take_insert_ge by lia.
    rewrite take_app_le by lia. rewrite Htake. reflexivity.
  - rewrite write_slot_there by nia.
    rewrite int32_fits_true by (unfold INT32_MIN; lia).
    eexists. split; [reflexivity |].
    unfold stack_holds. simpl. rewrite length_insert, length_app. simpl.
    split; [lia |]. split; [lia |]. split; [lia |]. split; [lia |].
    rewrite Hcount, Nat2Z.id.
    replace (length xs + 1)%nat with (S (length xs)) by lia.
    rewrite (take_S_r _ _ value) by (apply list_lookup_insert_eq; lia).
    rewrite take_insert_ge by lia. rewrite Htake. reflexivity.
Qed.

Lemma int32_fits_over (x : Z) : INT32_MAX < x -> int32_fits x = false.
Proof.
  intros Hx. unfold int32_fits.
  destruct (Z.leb_spec x INT32_MAX); [lia | apply andb_false_r].
Qed.

(** Where the size of the grown array does not fit an [int],
    [gg_stack_push] on a full stack has no defined result, whatever the
    host would answer. *)
Lemma gg_stack_push_overflow (realloc : list A -> Z -> option (list A))
    s (value : A) :
  Stack.capacity s <= Stack.count s ->
  INT32_MAX < Stack.capacity s * 2 * Stack.elem_size s ->
  Stack.gg_stack_push realloc (Some s) value = Undefined.
Proof.
  intros Hfull Hover. unfold Stack.gg_stack_push. cbv zeta.
  destruct (Z.leb_spec (Stack.capacity s) (Stack.count s)); [| lia].
  rewrite (int32_fits_over _ Hover), andb_false_r. reflexivity.
Qed.

Lemma stack_holds_last s xs (x : A) :
  stack_holds s (xs ++ [x]) ->
  Stack.count s = Z.of_nat (length xs) + 1
  /\ Stack.data s !! length xs = Some x
  /\ take (length xs) (Stack.data s) = xs.
Proof.
  intros (Hcap & Hlen & Hcount & Hle & Htake).
  rewrite length_app in *. simpl in *.
  split; [lia |].
  assert (Hl : take (length xs + 1) (Stack.data s) !! length xs = Some x).
  { rewrite Htake. rewrite lookup_app_r by lia.
    rewrite Nat.sub_diag. reflexivity. }
  rewrite lookup_take_lt in Hl by lia. split; [exact Hl |].
  replace (length xs) with (length xs `min` (length xs + 1))%nat at 1 by lia.
  rewrite <- take_take, Htake, take_app_length. reflexivity.
Qed.

Lemma stack_pop_holds s xs (x : A) (out_value : option A) :
  stack_holds s (xs ++ [x]) ->
  exists s', Stack.gg_stack_pop (Some s) out_value
             = (1, match out_value with Some _ => Some x | None => None end,
                Some s')
             /\ stack_holds s' xs.
Proof.
  intros Hs. destruct (stack_holds_last _ _ _ Hs) as (Hc & Hx & Htake).
  destruct Hs as (Hcap & Hlen & Hcount & Hle & _).
  unfold Stack.gg_stack_pop.
  destruct (Z.eqb_spec (Stack.count s) 0); [lia |].
  replace (Z.to_nat (Stack.count s - 1)) with (length xs) by lia.
  rewrite Hx. eexists. split.
  - destruct out_value; reflexivity.
  - unfold stack_holds. simpl. repeat split; try lia. exact Htake.
Qed.

(** X13: on a stack of elements of [elem_size > 0] bytes whose block of
    [capacity * elem_size] bytes has a size that fits an [int],
    [gg_stack_push] puts the value on top of the elements of the stack,
    also when the array is full, the size of twice the capacity still fits
    an [int] and [realloc] hands out the block asked for, which keeps the
    old slots; [gg_stack_pop] after it returns 1, hands that value out and
    leaves the elements that were there before the push. *)
Theorem gg_stack_push_pop (realloc : list A -> Z -> option (list A))
    s xs (value old : A) :
  stack_holds s xs ->
  0 < Stack.elem_size s ->
  Stack.capacity s * Stack.elem_size s <= INT32_MAX ->
  (Stack.capacity s <= Stack.count s ->
   Stack.capacity s * 2 * Stack.elem_size s <= INT32_MAX
   /\ exists extra,
       realloc (Stack.data s) (Stack.capacity s * 2 * Stack.elem_size s)
       = Some (Stack.data s ++ extra)
       /\ Z.of_nat (length extra) = Stack.capacity s) ->
  exists s1 s2,
    Stack.gg_stack_push realloc (Some s) value = Ok (Some s1)
    /\ stack_holds s1 (xs ++ [value])
    /\ Stack.gg_stack_peek (Some s1) = Some value
    /\ Stack.gg_stack_pop (Some s1) (Some old) = (1, Some value, Some s2)
    /\ stack_holds s2 xs.
Proof.
  intros Hs Hes Hbytes Hgrow.
  destruct (stack_push_holds realloc s xs value Hs Hes Hbytes Hgrow)
    as (s1 & Hpush & H1).
  destruct (stack_pop_holds s1 xs value (Some old) H1) as (s2 & Hpop & H2).
  exists s1, s2. split; [exact Hpush |]. split; [exact H1 |].
  split; [| split; [exact Hpop | exact H2]].
  destruct (stack_holds_last _ _ _ H1) as (Hc & Hx & _).
  unfold Stack.gg_stack_peek.
  destruct (Z.eqb_spec (Stack.count s1) 0); [lia |].
  replace (Z.to_nat (Stack.count s1 - 1)) with (length xs) by lia. exact Hx.
Qed.

(** X14: on a stack that holds nothing, and on a [NULL] stack,
    [gg_stack_pop] returns 0 and writes nothing, and [gg_stack_peek]
    returns [NULL]; on a stack that holds elements [gg_stack_pop] returns
    1, hands out the element pushed last (when the destination is not
    [NULL]) and leaves the others, and [gg_stack_count] is their number. *)
Theorem gg_stack_pop_cases s xs (out_value : option A) :
  stack_holds s xs ->
  Stack.gg_stack_count (Some s) = Z.of_nat (length xs)
  /\ Stack.gg_stack_pop None out_value = (0, out_value, None)
  /\ (xs = [] ->
      Stack.gg_stack_pop (Some s) out_value = (0, out_value, Some s)
      /\ Stack.gg_stack_peek (Some s) = None
      /\ Stack.gg_stack_isEmpty (Some s) = 1)
  /\ (forall ys x, xs = ys ++ [x] ->
      Stack.gg_stack_isEmpty (Some s) = 0
      /\ exists s',
          Stack.gg_stack_pop (Some s) out_value
          = (1, match out_value with Some _ => Some x | None => None end,
             Some s')
          /\ stack_holds s' ys).
Proof.
  intros Hs. split; [apply Hs |]. split; [reflexivity |]. split.
  - intros ->. destruct Hs as (_ & _ & Hcount & _). simpl in Hcount.
    unfold Stack.gg_stack_pop, Stack.gg_stack_peek, Stack.gg_stack_isEmpty.
    rewrite Hcount. repeat split.
  - intros ys x ->. split.
    + destruct (stack_holds_last _ _ _ Hs) as (Hc & _).
      unfold Stack.gg_stack_isEmpty.
      destruct (Z.eqb_spec (Stack.count s) 0); [lia | reflexivity].
    + apply stack_pop_holds. exact Hs.
Qed.

End StackProps.

(** ** The queue *)

Lemma mod_offset_inj (h c i j : Z) :
  0 < c -> 0 <= i < c -> 0 <= j < c ->
  (h + i) mod c = (h + j) mod c -> i = j.
Proof.
  intros Hc Hi Hj E.
  pose proof (Z.div_mod (h + i) c ltac:(lia)) as E1.
  pose proof (Z.div_mod (h + j) c ltac:(lia)) as E2.
  rewrite E in E1.
  assert (Hq : c * ((h + i) / c - (h + j) / c) = i - j) by lia.
  assert ((h + i) / c - (h + j) / c = 0) by nia.
  lia.
Qed.

Section QueueProps.
Context {A : Type}.
Implicit Types (q : Queue.gg_queue A) (xs : list A).

Lemma resize_copy_spec q (n : nat) :
  0 < Queue.elem_size q -> 0 < Queue.capacity q ->
  forall (i : Z) (new_data : list A),
    0 <= i -> (Z.to_nat i + n <= length new_data)%nat ->
    (forall k, i <= k < i + Z.of_nat n ->
       0 <= Queue.head q + k <= INT32_MAX
       /\ k * Queue.elem_size q <= INT32_MAX
       /\ Z.rem (Queue.head q + k) (Queue.capacity q) * Queue.elem_size q
          <= INT32_MAX
       /\ is_Some (Queue.data q
                     !! Z.to_nat (Z.rem (Queue.head q + k)
                                        (Queue.capacity q)))) ->
    exists result,
      Queue.resize_copy q n i new_data = Ok result
      /\ length result = length new_data
      /\ forall k : nat,
          result !! k
          = if (Z.to_nat i <=? k)%nat && (k <? Z.to_nat i + n)%nat
            then Queue.data q
                   !! Z.to_nat (Z.rem (Queue.head q + Z.of_nat k)
                                      (Queue.capacity q))
            else new_data !! k.
Proof.
  intros Hes Hcap.
  induction n as [|n IH]; intros i new_data Hi Hlen Hsrc;
    cbn [Queue.resize_copy].
  - exists new_data. split; [reflexivity |]. split; [reflexivity |].
    intros k.
    destruct (Nat.leb_spec (Z.to_nat i) k); simpl; [| reflexivity].
    destruct (Nat.ltb_spec k (Z.to_nat i + 0)); [lia | reflexivity].
  - destruct (Hsrc i ltac:(lia)) as (Hsum & Hoff & Hsoff & [x Hx]).
    cbv zeta.
    rewrite int32_fits_true by (unfold INT32_MIN; lia).
    destruct (Z.eqb_spec (Queue.capacity q) 0); [lia |]. cbn [andb negb].
    rewrite read_slot_there;
      [| exact Hes
       | rewrite Z.rem_mod_nonneg by lia; apply Z.mod_pos_bound; lia
       | exact Hsoff].
    rewrite Hx.
    rewrite write_slot_there by (try lia; exact Hoff).
    destruct (IH (i + 1) (<[Z.to_nat i := x]> new_data))
      as (result & Hr & Hl & Hk).
    + lia.
    + rewrite length_insert. lia.
    + intros k Hk. apply Hsrc. lia.
    + exists result. split; [exact Hr |].
      rewrite Hl, length_insert. split; [reflexivity |].
      intros k. rewrite Hk.
      destruct (Nat.leb_spec (Z.to_nat (i + 1)) k);
        destruct (Nat.ltb_spec k (Z.to_nat (i + 1) + n));
        destruct (Nat.leb_spec (Z.to_nat i) k);
        destruct (Nat.ltb_spec k (Z.to_nat i + S n)); simpl; try lia;
        try reflexivity; try (apply list_lookup_insert_ne; lia).
      assert (k = Z.to_nat i) by lia. subst k.
      rewrite list_lookup_insert_eq by lia. rewrite Z2Nat.id by lia.
      symmetry. exact Hx.
Qed.

Lemma queue_holds_slot q xs (i : nat) (x : A) :
  queue_holds q xs -> xs !! i = Some x ->
  Queue.data q
    !! Z.to_nat (Z.rem (Queue.head q + Z.of_nat i) (Queue.capacity q))
  = Some x.
Proof.
  intros (Hcap & _ & Hhead & _ & _ & _ & Hitems) Hx.
  rewrite Z.rem_mod_nonneg by lia. apply Hitems, Hx.
Qed.

Lemma queue_resize_holds (malloc : Z -> option (list A)) q xs
    (block : list A) :
  queue_holds q xs -> Queue.capacity q <= Queue.count q ->
  0 < Queue.elem_size q ->
  Queue.capacity q * 2 * Queue.elem_size q <= INT32_MAX ->
  malloc (Queue.capacity q * 2 * Queue.elem_size q) = Some block ->
  Z.of_nat (length block) = Queue.capacity q * 2 ->
  exists q1,
    Queue.gg_queue_resize malloc q = Ok q1
    /\ queue_holds q1 xs
    /\ Queue.count q1 < Queue.capacity q1
    /\ Queue.elem_size q1 = Queue.elem_size q
    /\ Queue.capacity q1 = Queue.capacity q * 2.
Proof.
  intros Hq Hfull Hes Hmax Hm Hb.
  pose proof Hq as (Hcap & Hlen & Hhead & Hcount & Hle & Htail & Hitems).
  assert (Hcap2 : Queue.capacity q * 2 <= INT32_MAX) by nia.
  destruct (resize_copy_spec q (Z.to_nat (Queue.count q)) Hes
              ltac:(lia) 0 block) as (result & Hr & Hl & Hk); [lia | lia | |].
  { intros k Hk.
    assert (Hrem : 0 <= Z.rem (Queue.head q + k) (Queue.capacity q)
                   < Queue.capacity q).
    { rewrite Z.rem_mod_nonneg by lia. apply Z.mod_pos_bound. lia. }
    split; [lia |]. split; [nia |]. split; [nia |].
    destruct (lookup_lt_is_Some_2 xs (Z.to_nat k)) as [x Hx]; [lia |].
    exists x. rewrite <- (queue_holds_slot q xs _ x Hq Hx).
    rewrite Z2Nat.id by lia. reflexivity. }
  unfold Queue.gg_queue_resize. cbv zeta.
  rewrite !int32_fits_true by (unfold INT32_MIN; nia). cbn [andb].
  rewrite wrap_small by (rewrite SIZE_MOD_val; unfold INT32_MAX in *; nia).
  rewrite Hm, Hr. eexists. split; [reflexivity |].
  cbn [Queue.count Queue.capacity Queue.elem_size].
  split; [| split; [lia | split; reflexivity]].
  unfold queue_holds. simpl. rewrite Hl.
  split; [lia |]. split; [lia |]. split; [lia |]. split; [lia |].
  split; [lia |]. split; [rewrite Z.mod_small; lia |].
  intros i x Hx. pose proof (lookup_lt_Some _ _ _ Hx) as Hi.
  rewrite Z.add_0_l, Z.mod_small, Nat2Z.id by lia.
  rewrite Hk.
  destruct (Nat.leb_spec (Z.to_nat 0) i); [| lia].
  destruct (Nat.ltb_spec i (Z.to_nat 0 + Z.to_nat (Queue.count q))); [| lia].
  simpl. apply (queue_holds_slot q xs i x Hq Hx).
Qed.

Lemma queue_enqueue_room q xs (value : A) :
  queue_holds q xs -> Queue.count q < Queue.capacity q ->
  queue_holds
    (Queue.Make (<[Z.to_nat (Queue.tail q) := value]> (Queue.data q))
                (Queue.head q)
                (Z.rem (Queue.tail q + 1) (Queue.capacity q))
                (Queue.count q + 1) (Queue.capacity q) (Queue.elem_size q))
    (xs ++ [value]).
Proof.
  intros (Hcap & Hlen & Hhead & Hcount & Hle & Htail & Hitems) Hroom.
  assert (Ht : 0 <= Queue.tail q < Queue.capacity q)
    by (rewrite Htail; apply Z.mod_pos_bound; lia).
  unfold queue_holds. simpl. rewrite length_insert, length_app. simpl.
  split; [lia |]. split; [lia |]. split; [lia |]. split; [lia |].
  split; [lia |]. split.
  - rewrite Z.rem_mod_nonneg by lia. rewrite Htail.
    rewrite Zplus_mod_idemp_l. f_equal. lia.
  - intros i x Hx. apply lookup_app_Some in Hx as [Hx | [Hi Hx]].
    + pose proof (lookup_lt_Some _ _ _ Hx) as Hi.
      rewrite list_lookup_insert_ne; [apply Hitems, Hx |].
      intros E. apply Z2Nat.inj in E;
        [| lia | apply Z.mod_pos_bound; lia].
      rewrite Htail in E.
      apply mod_offset_inj in E; lia.
    + apply list_lookup_singleton_Some in Hx as [Hz <-].
      assert (i = length xs) by lia. subst i.
      rewrite <- Hcount, <- Htail.
      apply list_lookup_insert_eq. lia.
Qed.

Lemma queue_enqueue_store q xs (value : A)
    (malloc : Z -> option (list A)) :
  queue_holds q xs -> Queue.count q < Queue.capacity q ->
  0 < Queue.elem_size q ->
  Queue.capacity q * Queue.elem_size q <= INT32_MAX ->
  exists q',
    match write_slot (Queue.elem_size q) (Queue.tail q) value (Queue.data q)
    with
    | Undefined => Undefined
    | Ok new_data =>
      if int32_fits (Queue.tail q + 1) && negb (Queue.capacity q =? 0)
         && int32_fits (Queue.count q + 1)
      then Ok (Some (Queue.Make new_data (Queue.head q)
                       (Z.rem (Queue.tail q + 1) (Queue.capacity q))
                       (Queue.count q + 1) (Queue.capacity q)
                       (Queue.elem_size q)))
      else Undefined
    end = Ok (Some q')
    /\ queue_holds q' (xs ++ [value]).
Proof.
  intros Hq Hroom Hes Hbytes.
  pose proof Hq as (Hcap & Hlen & Hhead & Hcount & Hle & Htail & Hitems).
  assert (Ht : 0 <= Queue.tail q < Queue.capacity q)
    by (rewrite Htail; apply Z.mod_pos_bound; lia).
  rewrite write_slot_there by nia.
  rewrite !int32_fits_true by (unfold INT32_MIN; lia).
  destruct (Z.eqb_spec (Queue.capacity q) 0); [lia |]. cbn [andb negb].
  eexists. split; [reflexivity |].
  apply queue_enqueue_room; assumption.
Qed.

(** Where the size of the new buffer does not fit an [int],
    [gg_queue_enqueue] on a full queue has no defined result, whatever the
    host would answer. *)
Lemma gg_queue_enqueue_overflow (malloc : Z -> option (list A))
    q (value : A) :
  Queue.capacity q <= Queue.count q ->
  INT32_MAX < Queue.capacity q * 2 * Queue.elem_size q ->
  Queue.gg_queue_enqueue malloc (Some q) value = Undefined.
Proof.
  intros Hfull Hover. unfold Queue.gg_queue_enqueue, Queue.gg_queue_resize.
  cbv zeta.
  destruct (Z.leb_spec (Queue.capacity q) (Queue.count q)); [| lia].
  rewrite (int32_fits_over _ Hover), andb_false_r. reflexivity.
Qed.

(** X15: on a queue of elements of [elem_size > 0] bytes whose buffer of
    [capacity * elem_size] bytes has a size that fits an [int],
    [gg_queue_enqueue] puts the value behind the elements of the queue and
    keeps them in order, also when the buffer is full, the size of twice
    the capacity still fits an [int] and [malloc] hands out a block of
    that size, to which [gg_queue_resize] moves the elements. *)
Theorem gg_queue_enqueue_back (malloc : Z -> option (list A))
    q xs (value : A) :
  queue_holds q xs ->
  0 < Queue.elem_size q ->
  Queue.capacity q * Queue.elem_size q <= INT32_MAX ->
  (Queue.capacity q <= Queue.count q ->
   Queue.capacity q * 2 * Queue.elem_size q <= INT32_MAX
   /\ exists block,
       malloc (Queue.capacity q * 2 * Queue.elem_size q) = Some block
       /\ Z.of_nat (length block) = Queue.capacity q * 2) ->
  exists q', Queue.gg_queue_enqueue malloc (Some q) value = Ok (Some q')
             /\ queue_holds q' (xs ++ [value]).
Proof.
  intros Hq Hes Hbytes Hgrow. unfold Queue.gg_queue_enqueue.
  destruct (Z.leb_spec (Queue.capacity q) (Queue.count q)) as [Hfull | Hroom].
  - destruct (Hgrow Hfull) as (Hmax & block & Hm & Hb).
    destruct (queue_resize_holds malloc q xs block Hq Hfull Hes Hmax Hm Hb)
      as (q1 & -> & Hq1 & Hroom & He1 & Hc1).
    apply (queue_enqueue_store q1 xs value malloc Hq1 Hroom).
    + rewrite He1. exact Hes.
    + rewrite He1, Hc1. exact Hmax.
  - apply (queue_enqueue_store q xs value malloc Hq Hroom Hes Hbytes).
Qed.

(** X16: [gg_queue_dequeue] hands out the oldest element and leaves the
    others in order, and [gg_queue_peek] points to the oldest element; on a
    queue that holds nothing both leave the queue as it is, the first
    returning 0 and the second [NULL]. *)
Theorem gg_queue_dequeue_front q xs (out_value : option A) :
  queue_holds q xs ->
  Queue.gg_queue_count (Some q) = Z.of_nat (length xs)
  /\ (xs = [] ->
      Queue.gg_queue_dequeue (Some q) out_value = (0, out_value, Some q)
      /\ Queue.gg_queue_peek (Some q) = None)
  /\ (forall x rest, xs = x :: rest ->
      Queue.gg_queue_peek (Some q) = Some x
      /\ exists q',
          Queue.gg_queue_dequeue (Some q) out_value
          = (1, match out_value with Some _ => Some x | None => None end,
             Some q')
          /\ queue_holds q' rest).
Proof.
  intros Hq.
  pose proof Hq as (Hcap & Hlen & Hhead & Hcount & Hle & Htail & Hitems).
  split; [exact Hcount |]. split.
  - intros ->. simpl in Hcount.
    unfold Queue.gg_queue_dequeue, Queue.gg_queue_peek. rewrite Hcount.
    split; reflexivity.
  - intros x rest ->. simpl in Hcount.
    assert (Hx : Queue.data q !! Z.to_nat (Queue.head q) = Some x).
    { specialize (Hitems O x eq_refl).
      rewrite Z.add_0_r, Z.mod_small in Hitems by lia. exact Hitems. }
    unfold Queue.gg_queue_dequeue, Queue.gg_queue_peek.
    destruct (Z.eqb_spec (Queue.count q) 0); [lia |].
    rewrite Hx. split; [reflexivity |]. eexists. split.
    + destruct out_value; reflexivity.
    + unfold queue_holds. simpl.
      rewrite Z.rem_mod_nonneg by lia.
      split; [lia |]. split; [lia |].
      split; [apply Z.mod_pos_bound; lia |]. split; [lia |]. split; [lia |].
      split.
      * rewrite Htail, Zplus_mod_idemp_l. f_equal. lia.
      * intros i y Hy. rewrite Zplus_mod_idemp_l.
        replace (Queue.head q + 1 + Z.of_nat i)
          with (Queue.head q + Z.of_nat (S i)) by lia.
        apply Hitems. exact Hy.
Qed.

End QueueProps.

Lemma full_stack_holds : stack_holds full_stack (map Z.of_nat (seq 1 16)).
Proof.
  unfold stack_holds, INT32_MAX. simpl.
  split; [lia |]. repeat split; lia.
Qed.

Lemma full_queue_holds : queue_holds full_queue full_queue_elements.
Proof.
  unfold queue_holds, INT32_MAX. simpl.
  split; [lia |]. split; [reflexivity |]. split; [lia |].
  split; [reflexivity |]. split; [lia |]. split; [reflexivity |].
  intros i x H.
  do 16 (destruct i as [|i]; [injection H as <-; reflexivity |]).
  discriminate H.
Qed.

Lemma gg_stack_push_pop_witness :
  exists s1 s2,
    Stack.gg_stack_push (fun old _ => Some (old ++ replicate 16 0))
      (Some full_stack) 99 = Ok (Some s1)
    /\ stack_holds s1 (map Z.of_nat (seq 1 16) ++ [99])
    /\ Stack.gg_stack_peek (Some s1) = Some 99
    /\ Stack.gg_stack_pop (Some s1) (Some 0) = (1, Some 99, Some s2)
    /\ stack_holds s2 (map Z.of_nat (seq 1 16)).
Proof.
  apply (gg_stack_push_pop (fun old _ => Some (old ++ replicate 16 0))
           full_stack _ 99 0).
  - exact full_stack_holds.
  - reflexivity.
  - vm_compute. discriminate.
  - intros _. split; [vm_compute; discriminate |].
    exists (replicate 16 0). split; reflexivity.
Defined.

Lemma gg_stack_pop_cases_witness :
  Stack.gg_stack_count (Some full_stack) = 16
  /\ Stack.gg_stack_pop (Some (Stack.gg_stack_new 8 (replicate 16 0))) (Some 7)
     = (0, Some 7, Some (Stack.gg_stack_new 8 (replicate 16 0)))
  /\ exists s',
      Stack.gg_stack_pop (Some full_stack) (Some 7) = (1, Some 16, Some s')
      /\ stack_holds s' (map Z.of_nat (seq 1 15)).
Proof.
  destruct (gg_stack_pop_cases full_stack _ (Some 7) full_stack_holds)
    as (Hcount & _ & _ & Hpop).
  destruct (gg_stack_pop_cases (Stack.gg_stack_new 8 (replicate 16 0)) []
                               (Some 7)) as (_ & _ & Hempty & _).
  { unfold stack_holds, INT32_MAX. simpl. repeat split; lia. }
  split; [exact Hcount |]. split; [apply Hempty; reflexivity |].
  destruct (Hpop (map Z.of_nat (seq 1 15)) 16 eq_refl) as [_ H]. exact H.
Defined.

Lemma gg_queue_enqueue_back_witness :
  exists q',
    Queue.gg_queue_enqueue (fun _ => Some (replicate 32 0))
      (Some full_queue) 99 = Ok (Some q')
    /\ queue_holds q' (full_queue_elements ++ [99]).
Proof.
  apply (gg_queue_enqueue_back (fun _ => Some (replicate 32 0))
           full_queue _ 99).
  - exact full_queue_holds.
  - reflexivity.
  - vm_compute. discriminate.
  - intros _. split; [vm_compute; discriminate |].
    exists (replicate 32 0). split; reflexivity.
Defined.

Lemma gg_queue_dequeue_front_witness :
  Queue.gg_queue_peek (Some full_queue) = Some 15
  /\ exists q',
      Queue.gg_queue_dequeue (Some full_queue) (Some 0) = (1, Some 15, Some q')
      /\ queue_holds q' (tl full_queue_elements).
Proof.
  destruct (gg_queue_dequeue_front full_queue _ (Some 0) full_queue_holds)
    as (_ & _ & Hfront).
  apply (Hfront 15 (tl full_queue_elements)). reflexivity.
Defined.

(** * Strings and Base64 *)

Lemma lor_disjoint_add (x y n : Z) :
  0 <= n -> 0 <= y < 2 ^ n -> Z.lor (x * 2 ^ n) y = x * 2 ^ n + y.
Proof.
  intros Hn Hy.
  assert (Hland : Z.land (x * 2 ^ n) y = 0); [| pose proof (Z.add_lor_land (x * 2 ^ n) y); lia].
  apply Z.bits_inj'. intros i Hi.
  rewrite Z.land_spec, Z.bits_0.
  destruct (Z.lt_ge_cases i n) as [Hlt | Hge].
  - rewrite Z.mul_pow2_bits_low by lia. reflexivity.
  - destruct (Z.eq_dec y 0) as [-> | Hy0].
    + rewrite Z.bits_0. apply andb_false_r.
    + rewrite (Z.bits_above_log2 y i); [apply andb_false_r | lia |].
      apply Z.log2_lt_pow2; [lia |].
      apply Z.lt_le_trans with (2 ^ n); [lia |].
      apply Z.pow_le_mono_r; lia.
Qed.

Lemma land_63 (x : Z) : Z.land x 63 = x mod 64.
Proof. change 63 with (Z.ones 6). rewrite Z.land_ones by lia. reflexivity. Qed.

Lemma land_255 (x : Z) : Z.land x 255 = x mod 256.
Proof. change 255 with (Z.ones 8). rewrite Z.land_ones by lia. reflexivity. Qed.

Lemma encode_triple (a b c : Z) :
  is_byte a -> is_byte b -> is_byte c ->
  Z.lor (Z.lor (Z.shiftl a 16) (Z.shiftl b 8)) c = a * 65536 + b * 256 + c.
Proof.
  unfold is_byte. intros Ha Hb Hc.
  rewrite !Z.shiftl_mul_pow2 by lia.
  rewrite (lor_disjoint_add a (b * 2 ^ 8) 16) by lia.
  replace (a * 2 ^ 16 + b * 2 ^ 8) with ((a * 256 + b) * 2 ^ 8) by lia.
  rewrite lor_disjoint_add by lia. lia.
Qed.

Lemma decode_triple (s3 s2 s1 s0 : Z) :
  0 <= s3 < 64 -> 0 <= s2 < 64 -> 0 <= s1 < 64 -> 0 <= s0 < 64 ->
  Z.lor (Z.lor (Z.lor (Z.shiftl s3 18) (Z.shiftl s2 12)) (Z.shiftl s1 6)) s0
  = s3 * 262144 + s2 * 4096 + s1 * 64 + s0.
Proof.
  intros H3 H2 H1 H0.
  rewrite !Z.shiftl_mul_pow2 by lia.
  rewrite (lor_disjoint_add s3 (s2 * 2 ^ 12) 18) by lia.
  replace (s3 * 2 ^ 18 + s2 * 2 ^ 12) with ((s3 * 64 + s2) * 2 ^ 12) by lia.
  rewrite (lor_disjoint_add _ (s1 * 2 ^ 6) 12) by lia.
  replace ((s3 * 64 + s2) * 2 ^ 12 + s1 * 2 ^ 6)
    with (((s3 * 64 + s2) * 64 + s1) * 2 ^ 6) by lia.
  rewrite lor_disjoint_add by lia. lia.
Qed.

Lemma sextet_range (k t : Z) : 0 <= sextet k t < 64.
Proof. unfold sextet. apply Z.mod_pos_bound. lia. Qed.

Lemma sextets_sum (t : Z) :
  0 <= t < 16777216 ->
  sextet 3 t * 262144 + sextet 2 t * 4096 + sextet 1 t * 64 + sextet 0 t = t.
Proof.
  intros Ht. unfold sextet. simpl Z.mul.
  change (2 ^ 18) with 262144. change (2 ^ 12) with 4096.
  change (2 ^ 6) with 64. change (2 ^ 0) with 1.
  Z.div_mod_to_equations. lia.
Qed.

Lemma table_facts (k : Z) :
  0 <= k < 64 ->
  Base64.gg_b64_val (Base64.table_at k) = k
  /\ Base64.table_at k <> 0
  /\ Base64.table_at k <> Base64.pad.
Proof.
  intros Hk.
  assert (Hall : forallb (fun n =>
            let k := Z.of_nat n in
            (Base64.gg_b64_val (Base64.table_at k) =? k)
            && negb (Base64.table_at k =? 0)
            && negb (Base64.table_at k =? Base64.pad)) (seq 0 64) = true)
    by (vm_compute; reflexivity).
  rewrite forallb_forall in Hall.
  specialize (Hall (Z.to_nat k)).
  cbv zeta in Hall. rewrite Z2Nat.id in Hall by lia.
  assert (Hin : In (Z.to_nat k) (seq 0 64)) by (apply in_seq; lia).
  apply Hall in Hin.
  apply andb_prop in Hin as [Hin H3]. apply andb_prop in Hin as [H1 H2].
  apply Z.eqb_eq in H1. apply negb_true_iff in H2, H3.
  apply Z.eqb_neq in H2, H3. auto.
Qed.

Lemma decode_char_table (k : Z) :
  0 <= k < 64 -> Base64.decode_char (Some (Base64.table_at k)) = k.
Proof.
  intros Hk. unfold Base64.decode_char.
  destruct (table_facts k Hk) as (-> & _ & _).
  destruct (Z.ltb_spec k 0); [lia | reflexivity].
Qed.

Lemma decode_char_pad : Base64.decode_char (Some Base64.pad) = 0.
Proof. reflexivity. Qed.

Lemma encode_group_eq (a : Z) (b c : option Z) :
  is_byte a -> is_byte (default 0 b) -> is_byte (default 0 c) ->
  Base64.encode_group a b c =
  let t := a * 65536 + default 0 b * 256 + default 0 c in
  [ Base64.table_at (sextet 3 t); Base64.table_at (sextet 2 t);
    match b with Some _ => Base64.table_at (sextet 1 t) | None => Base64.pad end;
    match c with Some _ => Base64.table_at (sextet 0 t) | None => Base64.pad end ].
Proof.
  intros Ha Hb Hc. unfold Base64.encode_group. cbv zeta.
  rewrite encode_triple by assumption.
  rewrite !land_63, !Z.shiftr_div_pow2 by lia.
  unfold sextet. simpl Z.mul. rewrite Z.pow_0_r, Z.div_1_r. reflexivity.
Qed.

Lemma decode_group_eq (s3 s2 s1 s0 : Z) (a b c d : option Z) (j out_len : Z) :
  0 <= s3 < 64 -> 0 <= s2 < 64 -> 0 <= s1 < 64 -> 0 <= s0 < 64 ->
  Base64.decode_char a = s3 -> Base64.decode_char b = s2 ->
  Base64.decode_char c = s1 -> Base64.decode_char d = s0 ->
  Base64.decode_group a b c d j out_len =
  let t := s3 * 262144 + s2 * 4096 + s1 * 64 + s0 in
  let stored := take (Z.to_nat (out_len - j))
                  [(t / 65536) mod 256; (t / 256) mod 256; t mod 256] in
  (stored, j + Z.of_nat (length stored)).
Proof.
  intros H3 H2 H1 H0 E3 E2 E1 E0. unfold Base64.decode_group. cbv zeta.
  rewrite E3, E2, E1, E0, decode_triple by assumption.
  rewrite !land_255, !Z.shiftr_div_pow2 by lia.
  change (2 ^ 16) with 65536. change (2 ^ 8) with 256.
  destruct (Z.to_nat (out_len - j)) as [|[|[|n]]] eqn:E;
    simpl; rewrite ?take_nil;
    repeat (match goal with
            | |- context [Z.ltb ?x ?y] =>
              destruct (Z.ltb_spec x y); try lia; simpl
            end);
    f_equal; lia.
Qed.

Lemma bytes_of_triple (a b c : Z) :
  is_byte a -> is_byte b -> is_byte c ->
  let t := a * 65536 + b * 256 + c in
  0 <= t < 16777216
  /\ (t / 65536) mod 256 = a /\ (t / 256) mod 256 = b /\ t mod 256 = c.
Proof.
  unfold is_byte. intros Ha Hb Hc. cbv zeta.
  split; [lia |]. Z.div_mod_to_equations. lia.
Qed.

(** Decoding the four characters of a group stores the bytes of the group
    that were there. *)
Lemma decode_encode_group (a : Z) (b c : option Z) (j out_len : Z) :
  is_byte a -> is_byte (default 0 b) -> is_byte (default 0 c) ->
  (b = None -> c = None) ->
  forall x1 x2 x3 x4,
    Base64.encode_group a b c = [x1; x2; x3; x4] ->
    Base64.decode_group (Some x1) (Some x2) (Some x3) (Some x4) j out_len =
    let stored := take (Z.to_nat (out_len - j)) [a; default 0 b; default 0 c] in
    (stored, j + Z.of_nat (length stored)).
Proof.
  intros Ha Hb Hc Hbc x1 x2 x3 x4 He.
  assert (Hc0 : b = None -> default 0 c = 0) by (intros E; rewrite (Hbc E); reflexivity).
  rewrite encode_group_eq in He by assumption. cbv zeta in He.
  set (t := a * 65536 + default 0 b * 256 + default 0 c) in *.
  destruct (bytes_of_triple a (default 0 b) (default 0 c) Ha Hb Hc)
    as (Ht & Ea & Eb & Ec).
  fold t in Ht, Ea, Eb, Ec.
  injection He as <- <- <- <-.
  pose proof (sextets_sum t Ht) as Hsum.
  assert (Hs1 : Base64.decode_char
            (Some match b with
                  | Some _ => Base64.table_at (sextet 1 t)
                  | None => Base64.pad end) = sextet 1 t).
  { destruct b; [apply decode_char_table, sextet_range |].
    rewrite decode_char_pad. unfold sextet. subst t.
    rewrite (Hc0 eq_refl). simpl default. unfold is_byte in Ha.
    change (2 ^ (6 * 1)) with 64. Z.div_mod_to_equations. lia. }
  assert (Hs0 : Base64.decode_char
            (Some match c with
                  | Some _ => Base64.table_at (sextet 0 t)
                  | None => Base64.pad end) = sextet 0 t).
  { destruct c; [apply decode_char_table, sextet_range |].
    rewrite decode_char_pad. unfold sextet. subst t.
    simpl default. unfold is_byte in Ha, Hb.
    change (2 ^ (6 * 0)) with 1. Z.div_mod_to_equations. lia. }
  rewrite (decode_group_eq (sextet 3 t) (sextet 2 t) (sextet 1 t) (sextet 0 t))
    by (try apply sextet_range; try (apply decode_char_table, sextet_range);
        assumption).
  cbv zeta. rewrite Hsum, Ea, Eb, Ec. reflexivity.
Qed.

Lemma list_ind3 {A : Type} (P : list A -> Prop) :
  P [] -> (forall a, P [a]) -> (forall a b, P [a; b]) ->
  (forall a b c rest, P rest -> P (a :: b :: c :: rest)) ->
  forall l, P l.
Proof.
  intros H0 H1 H2 H3 l.
  assert (H : P l /\ (forall a, P (a :: l)) /\ (forall a b, P (a :: b :: l))).
  { induction l as [| x l (IH0 & IH1 & IH2)]; [auto |].
    split; [apply IH1 |]. split; [intros a; apply IH2 |].
    intros a b. apply H3, IH0. }
  apply H.
Qed.

Lemma encode_group_four (a : Z) (b c : option Z) :
  exists x1 x2 x3 x4, Base64.encode_group a b c = [x1; x2; x3; x4].
Proof. unfold Base64.encode_group. cbv zeta. eauto. Qed.

Lemma decode_loop_four (x1 x2 x3 x4 : Z) (rest : list Z) (j out_len : Z) :
  Base64.decode_loop (x1 :: x2 :: x3 :: x4 :: rest) j out_len =
  (let '(out, j') :=
     Base64.decode_group (Some x1) (Some x2) (Some x3) (Some x4) j out_len in
   out ++ Base64.decode_loop rest j' out_len).
Proof. reflexivity. Qed.

Lemma encode_loop_three (a b c : Z) (rest : list Z) :
  Base64.encode_loop (a :: b :: c :: rest) =
  Base64.encode_group a (Some b) (Some c) ++ Base64.encode_loop rest.
Proof. reflexivity. Qed.

Lemma decode_loop_encode_loop (bs : list Z) :
  Forall is_byte bs ->
  forall j,
    Base64.decode_loop (Base64.encode_loop bs) j (j + Z.of_nat (length bs)) = bs.
Proof.
  assert (H0 : is_byte 0) by (unfold is_byte; lia).
  induction bs as [| a | a b | a b c rest IH] using list_ind3; intros Hb j.
  - reflexivity.
  - apply Forall_cons_1 in Hb as [Ha _].
    change (Base64.encode_loop [a]) with (Base64.encode_group a None None).
    destruct (encode_group_four a None None) as (x1 & x2 & x3 & x4 & He).
    rewrite He, decode_loop_four.
    rewrite (decode_encode_group a None None) by auto.
    cbv zeta. replace (Z.to_nat _) with 1%nat by (simpl length; lia).
    reflexivity.
  - apply Forall_cons_1 in Hb as [Ha Hb]. apply Forall_cons_1 in Hb as [Hb _].
    change (Base64.encode_loop [a; b])
      with (Base64.encode_group a (Some b) None).
    destruct (encode_group_four a (Some b) None) as (x1 & x2 & x3 & x4 & He).
    rewrite He, decode_loop_four.
    rewrite (decode_encode_group a (Some b) None) by (auto; discriminate).
    cbv zeta. replace (Z.to_nat _) with 2%nat by (simpl length; lia).
    reflexivity.
  - apply Forall_cons_1 in Hb as [Ha Hb]. apply Forall_cons_1 in Hb as [Hb Hc].
    apply Forall_cons_1 in Hc as [Hc Hrest].
    rewrite encode_loop_three.
    destruct (encode_group_four a (Some b) (Some c))
      as (x1 & x2 & x3 & x4 & He).
    rewrite He. simpl app. rewrite decode_loop_four.
    rewrite (decode_encode_group a (Some b) (Some c)) by (auto; discriminate).
    cbv zeta.
    replace (Z.to_nat _)
      with (S (S (S (length rest)))) by (simpl length; lia).
    simpl take. rewrite take_nil. simpl length.
    replace (j + Z.of_nat (S (S (S (length rest)))))
      with (j + 3 + Z.of_nat (length rest)) by lia.
    change (Z.of_nat 3) with 3.
    rewrite (IH Hrest (j + 3)). reflexivity.
Qed.

Lemma encode_loop_length (bs : list Z) :
  Z.of_nat (length (Base64.encode_loop bs))
  = 4 * ((Z.of_nat (length bs) + 2) / 3).
Proof.
  induction bs as [| a | a b | a b c rest IH] using list_ind3;
    try reflexivity.
  rewrite encode_loop_three, length_app, Nat2Z.inj_add, IH.
  simpl length. Z.div_mod_to_equations. lia.
Qed.

Lemma encode_group_chars (a : Z) (b c : option Z) :
  exists x1 x2 x3 x4,
    Base64.encode_group a b c = [x1; x2; x3; x4]
    /\ x1 <> 0 /\ x2 <> 0 /\ x3 <> 0 /\ x4 <> 0
    /\ (x3 = Base64.pad <-> b = None) /\ (x4 = Base64.pad <-> c = None).
Proof.
  unfold Base64.encode_group. cbv zeta. do 4 eexists.
  split; [reflexivity |]. rewrite !land_63.
  assert (Hk : forall x, 0 <= x mod 64 < 64)
    by (intros x; apply Z.mod_pos_bound; lia).
  repeat split;
    try (apply table_facts, Hk);
    try (destruct b; [apply table_facts, Hk | discriminate]);
    try (destruct c; [apply table_facts, Hk | discriminate]).
  - destruct b; [| reflexivity]. intros E. exfalso. revert E.
    apply table_facts, Hk.
  - destruct b; [discriminate | reflexivity].
  - destruct c; [| reflexivity]. intros E. exfalso. revert E.
    apply table_facts, Hk.
  - destruct c; [discriminate | reflexivity].
Qed.

Lemma encode_loop_nonzero (bs : list Z) :
  Forall (fun c => c <> 0) (Base64.encode_loop bs).
Proof.
  induction bs as [| a | a b | a b c rest IH] using list_ind3.
  - constructor.
  - change (Base64.encode_loop [a]) with (Base64.encode_group a None None).
    destruct (encode_group_chars a None None)
      as (x1 & x2 & x3 & x4 & -> & ? & ? & ? & ? & _).
    repeat constructor; assumption.
  - change (Base64.encode_loop [a; b])
      with (Base64.encode_group a (Some b) None).
    destruct (encode_group_chars a (Some b) None)
      as (x1 & x2 & x3 & x4 & -> & ? & ? & ? & ? & _).
    repeat constructor; assumption.
  - rewrite encode_loop_three. apply Forall_app. split; [| exact IH].
    destruct (encode_group_chars a (Some b) (Some c))
      as (x1 & x2 & x3 & x4 & -> & ? & ? & ? & ? & _).
    repeat constructor; assumption.
Qed.

(** The last two characters of an encoding tell how many bytes the last
    group had. *)
Lemma encode_loop_tail (bs : list Z) :
  bs <> [] ->
  exists pre y x,
    Base64.encode_loop bs = pre ++ [y; x]
    /\ (x = Base64.pad <-> Z.of_nat (length bs) mod 3 <> 0)
    /\ (y = Base64.pad <-> Z.of_nat (length bs) mod 3 = 1).
Proof.
  induction bs as [| a | a b | a b c rest IH] using list_ind3; intros Hne.
  - congruence.
  - change (Base64.encode_loop [a]) with (Base64.encode_group a None None).
    destruct (encode_group_chars a None None)
      as (x1 & x2 & x3 & x4 & -> & _ & _ & _ & _ & H3 & H4).
    exists [x1; x2], x3, x4. split; [reflexivity |].
    simpl length. change (Z.of_nat 1 mod 3) with 1.
    split; split; intros _; try lia; [apply H4 | apply H3]; reflexivity.
  - change (Base64.encode_loop [a; b])
      with (Base64.encode_group a (Some b) None).
    destruct (encode_group_chars a (Some b) None)
      as (x1 & x2 & x3 & x4 & -> & _ & _ & _ & _ & H3 & H4).
    exists [x1; x2], x3, x4. split; [reflexivity |].
    simpl length. change (Z.of_nat 2 mod 3) with 2.
    split; split; intros E; try lia; [apply H4; reflexivity |].
    apply H3 in E. discriminate.
  - rewrite encode_loop_three.
    assert (Hmod : Z.of_nat (length (a :: b :: c :: rest)) mod 3
                   = Z.of_nat (length rest) mod 3).
    { simpl length. rewrite !Nat2Z.inj_succ.
      replace (Z.succ (Z.succ (Z.succ (Z.of_nat (length rest)))))
        with (Z.of_nat (length rest) + 1 * 3) by lia.
      apply Z.mod_add. lia. }
    rewrite Hmod.
    destruct rest as [| r rest].
    + destruct (encode_group_chars a (Some b) (Some c))
        as (x1 & x2 & x3 & x4 & -> & _ & _ & _ & _ & H3 & H4).
      exists [x1; x2], x3, x4. split; [reflexivity |].
      simpl length. change (Z.of_nat 0 mod 3) with 0.
      split; split; intros E; try lia.
      * apply H4 in E. discriminate.
      * apply H3 in E. discriminate.
    + destruct IH as (pre & y & x & -> & Hx & Hy); [discriminate |].
      exists (Base64.encode_group a (Some b) (Some c) ++ pre), y, x.
      rewrite <- app_assoc. auto.
Qed.

Lemma strlen_nonzero (l : list Z) :
  Forall (fun c => c <> 0) l -> Str.strlen (l ++ [0]) = Z.of_nat (length l).
Proof.
  induction 1 as [| c l Hc _ IH]; [reflexivity |].
  cbn [app Str.strlen length]. destruct (Z.eqb_spec c 0); [contradiction | lia].
Qed.

Lemma from_cstr_holds (l : list Z) :
  Forall (fun c => c <> 0) l ->
  str_holds (Str.gg_string_from_cstr (Some (l ++ [0]))) l.
Proof.
  intros Hl. unfold Str.gg_string_from_cstr, str_holds. cbv zeta.
  cbn [Str.length Str.data]. rewrite strlen_nonzero by assumption.
  split; [reflexivity |].
  rewrite Nat2Z.id, take_app_length. reflexivity.
Qed.

Lemma from_buf_holds (l rest : list Z) :
  str_holds (Str.gg_string_from_buf (l ++ rest) (Z.of_nat (length l))) l.
Proof.
  unfold Str.gg_string_from_buf, str_holds. cbn [Str.length Str.data].
  split; [reflexivity |].
  rewrite Nat2Z.id, take_app_length. reflexivity.
Qed.

Lemma str_holds_bytes (s : Str.gg_string) (bs : list Z) :
  str_holds s bs -> Str.bytes s = bs.
Proof.
  intros [Hl Hd]. unfold Str.bytes. rewrite Hl, Hd, Nat2Z.id.
  apply take_app_length.
Qed.

Lemma gg_base64_encode_holds (s : Str.gg_string) (bs : list Z) :
  str_holds s bs ->
  str_holds (Base64.gg_base64_encode (Some s)) (Base64.encode_loop bs).
Proof.
  intros Hs. unfold Base64.gg_base64_encode.
  rewrite (str_holds_bytes s bs Hs).
  destruct Hs as [Hl _].
  destruct (Z.eqb_spec (Str.length s) 0) as [E | E].
  - destruct bs; [| simpl in Hl; lia].
    apply (from_cstr_holds []). constructor.
  - apply from_cstr_holds, encode_loop_nonzero.
Qed.

(** X17: decoding the Base64 encoding of a string gives back the bytes of
    the string, zero bytes included, as long as the lengths computed on the
    way fit an [int]. *)
Theorem gg_base64_round_trip (s : Str.gg_string) (bs : list Z) :
  str_holds s bs -> Forall is_byte bs ->
  12 * ((Str.length s + 2) / 3) <= INT32_MAX ->
  str_holds
    (Base64.gg_base64_decode (Some (Base64.gg_base64_encode (Some s)))) bs.
Proof.
  intros Hs Hb _.
  pose proof (gg_base64_encode_holds s bs Hs) as He.
  remember (Base64.gg_base64_encode (Some s)) as e eqn:Ee. clear Ee.
  unfold Base64.gg_base64_decode.
  rewrite (str_holds_bytes e _ He).
  destruct He as [Hl Hd].
  pose proof (encode_loop_length bs) as HL.
  destruct bs as [| b0 bs'].
  { simpl in Hl. rewrite Hl. simpl. apply (from_cstr_holds []). constructor. }
  remember (b0 :: bs') as bs eqn:Ebs.
  assert (Hne : bs <> []) by (subst bs; discriminate).
  assert (Hn : 0 < Z.of_nat (length bs)) by (subst bs; simpl length; lia).
  clear Ebs b0 bs'.
  destruct (encode_loop_tail bs Hne) as (pre & y & x & Hout & Hx & Hy).
  rewrite Hout in Hd, HL. rewrite length_app in HL. simpl length in HL.
  destruct (Z.eqb_spec (Str.length e) 0) as [E | _].
  { rewrite Hl, Hout, length_app in E. simpl in E. lia. }
  cbv zeta.
  assert (HLp : Str.length e = Z.of_nat (length pre) + 2).
  { rewrite Hl, Hout, length_app. simpl length. lia. }
  assert (Hx' : default 0 (Str.data e !! Z.to_nat (Str.length e - 1)) = x).
  { rewrite Hd, HLp.
    replace (Z.to_nat _) with (length pre + 1)%nat by lia.
    rewrite <- app_assoc, lookup_app_r by lia.
    replace (length pre + 1 - length pre)%nat with 1%nat by lia.
    reflexivity. }
  assert (Hy' : default 0 (Str.data e !! Z.to_nat (Str.length e - 2)) = y).
  { rewrite Hd, HLp.
    replace (Z.to_nat _) with (length pre + 0)%nat by lia.
    rewrite <- app_assoc, lookup_app_r by lia.
    replace (length pre + 0 - length pre)%nat with 0%nat by lia.
    reflexivity. }
  rewrite Hx', Hy'.
  destruct (Z.ltb_spec 0 (Str.length e)); [| lia].
  destruct (Z.ltb_spec 1 (Str.length e)); [| lia].
  cbn [andb].
  rewrite Z.quot_div_nonneg by lia.
  match goal with
  | |- context [Base64.decode_loop _ 0 ?o] =>
    replace o with (0 + Z.of_nat (length bs))
  end.
  - rewrite decode_loop_encode_loop by assumption.
    apply from_buf_holds.
  - rewrite HLp.
    replace (Z.of_nat (length pre + 2)) with (Z.of_nat (length pre) + 2)
      in HL by lia.
    destruct (Z.eqb_spec x Base64.pad) as [Ex | Ex];
      destruct (Z.eqb_spec y Base64.pad) as [Ey | Ey];
      rewrite ?Hx, ?Hy in *;
      Z.div_mod_to_equations; lia.
Qed.

Lemma table_at_elem (k : Z) :
  0 <= k < 64 -> Base64.table_at k ∈ Base64.gg_b64_table.
Proof.
  intros Hk. unfold Base64.table_at. apply list_elem_of_In, nth_In.
  change (length Base64.gg_b64_table) with 64%nat. lia.
Qed.

Lemma encode_group_alphabet (a : Z) (b c : option Z) :
  Forall (fun x => x = Base64.pad \/ x ∈ Base64.gg_b64_table)
         (Base64.encode_group a b c).
Proof.
  assert (Hk : forall x, 0 <= x mod 64 < 64)
    by (intros x; apply Z.mod_pos_bound; lia).
  unfold Base64.encode_group. cbv zeta. rewrite !land_63.
  constructor; [| constructor; [| constructor; [| constructor; [| constructor]]]].
  - right. apply table_at_elem, Hk.
  - right. apply table_at_elem, Hk.
  - destruct b; [right; apply table_at_elem, Hk | left; reflexivity].
  - destruct c; [right; apply table_at_elem, Hk | left; reflexivity].
Qed.

Lemma encode_loop_alphabet (bs : list Z) :
  Forall (fun x => x = Base64.pad \/ x ∈ Base64.gg_b64_table)
         (Base64.encode_loop bs).
Proof.
  induction bs as [| a | a b | a b c rest IH] using list_ind3.
  - constructor.
  - apply (encode_group_alphabet a None None).
  - apply (encode_group_alphabet a (Some b) None).
  - rewrite encode_loop_three. apply Forall_app. split; [| exact IH].
    apply encode_group_alphabet.
Qed.




Lemma empty_holds : str_holds (Str.gg_string_from_cstr (Some [0])) [].
Proof. apply (from_cstr_holds []). constructor. Qed.



(** X21: [gg_string_equals] answers 1 exactly for two strings that hold the
    same bytes, and 0 otherwise. *)
Theorem gg_string_equals_iff (a b : Str.gg_string) (xs ys : list Z) :
  str_holds a xs -> str_holds b ys ->
  (Str.gg_string_equals (Some a) (Some b) = 1 <-> xs = ys)
  /\ (Str.gg_string_equals (Some a) (Some b) = 0 <-> xs <> ys).
Proof.
  intros Ha Hb. unfold Str.gg_string_equals.
  rewrite (str_holds_bytes a xs Ha), (str_holds_bytes b ys Hb).
  destruct Ha as [Ha _], Hb as [Hb _]. rewrite Ha, Hb.
  destruct (Z.eqb_spec (Z.of_nat (length xs)) (Z.of_nat (length ys)))
    as [E | E]; cbn [negb].
  - destruct (decide (xs = ys)) as [Exy | Exy].
    + split; split; intros; try reflexivity; try assumption; try lia.
      contradiction.
    + split; split; intros; try reflexivity; try assumption; try lia.
      contradiction.
  - assert (xs <> ys) by (intros ->; apply E; reflexivity).
    split; split; intros; try reflexivity; try assumption; try lia.
    contradiction.
Qed.

(** The Base64 encoding of [n] bytes has [4 * ceil(n / 3)] characters,
    each one from [gg_b64_table] or the padding character. *)
Theorem gg_base64_encode_shape (s : Str.gg_string) (bs : list Z) :
  str_holds s bs ->
  4 * ((Str.length s + 2) / 3) <= INT32_MAX ->
  exists out,
    str_holds (Base64.gg_base64_encode (Some s)) out
    /\ Z.of_nat (length out) = 4 * ((Str.length s + 2) / 3)
    /\ Forall (fun x => x = Base64.pad \/ x ∈ Base64.gg_b64_table) out.
Proof.
  intros Hs _. exists (Base64.encode_loop bs).
  split; [apply gg_base64_encode_holds, Hs |].
  split; [| apply encode_loop_alphabet].
  destruct Hs as [-> _]. apply encode_loop_length.
Qed.

Lemma sample_string_holds : str_holds sample_string sample_bytes.
Proof. split; reflexivity. Qed.

Lemma sample_bytes_range : Forall is_byte sample_bytes.
Proof. repeat constructor; unfold is_byte; lia. Qed.

Lemma gg_base64_round_trip_witness :
  str_holds
    (Base64.gg_base64_decode
       (Some (Base64.gg_base64_encode (Some sample_string))))
    sample_bytes.
Proof.
  apply gg_base64_round_trip.
  - exact sample_string_holds.
  - exact sample_bytes_range.
  - vm_compute. discriminate.
Defined.

Lemma gg_base64_encode_shape_witness :
  exists out,
    str_holds (Base64.gg_base64_encode (Some sample_string)) out
    /\ Z.of_nat (length out) = 4 * ((Str.length sample_string + 2) / 3)
    /\ Forall (fun x => x = Base64.pad \/ x ∈ Base64.gg_b64_table) out.
Proof.
  apply (gg_base64_encode_shape sample_string sample_bytes).
  - exact sample_string_holds.
  - vm_compute. discriminate.
Defined.


Lemma gg_string_equals_iff_witness :
  (Str.gg_string_equals (Some sample_string) (Some sample_concat) = 1
   <-> sample_bytes = sample_bytes ++ sample_bytes)
  /\ (Str.gg_string_equals (Some sample_string) (Some sample_concat) = 0
      <-> sample_bytes <> sample_bytes ++ sample_bytes).
Proof.
  apply gg_string_equals_iff.
  - exact sample_string_holds.
  - split; reflexivity.
Defined.

(** * Hexadecimal encoding and the XOR cipher *)

Lemma hex_val_digit (d : Z) :
  0 <= d < 16 ->
  Hex.hex_val (Hex.hex_digit d) = Some d /\ Hex.hex_digit d <> 0.
Proof.
  intros Hd. unfold Hex.hex_digit.
  destruct (Z.ltb_spec d 10).
  - unfold Hex.hex_val.
    destruct (Z.leb_spec 48 (48 + d)); [| lia].
    destruct (Z.leb_spec (48 + d) 57); [| lia].
    cbn [andb]. split; [f_equal; lia | lia].
  - unfold Hex.hex_val.
    destruct (Z.leb_spec (87 + d) 57); [lia |].
    rewrite andb_false_r.
    destruct (Z.leb_spec 97 (87 + d)); [| lia].
    destruct (Z.leb_spec (87 + d) 102); [| lia].
    cbn [andb]. split; [f_equal; lia | lia].
Qed.

Lemma byte_digits (b : Z) :
  is_byte b -> 0 <= b / 16 < 16 /\ 0 <= b mod 16 < 16
               /\ (16 * (b / 16) + b mod 16) mod 256 = b.
Proof. unfold is_byte. intros Hb. Z.div_mod_to_equations. lia. Qed.

Lemma hex_chars_length (bs : list Z) :
  length (concat (List.map Hex.snprintf_02x bs)) = (2 * length bs)%nat.
Proof. induction bs as [| b bs IH]; [reflexivity |]. simpl. lia. Qed.

Lemma hex_chars_nonzero (bs : list Z) :
  Forall is_byte bs ->
  Forall (fun c => c <> 0) (concat (List.map Hex.snprintf_02x bs)).
Proof.
  induction 1 as [| b bs Hb _ IH]; [constructor |].
  destruct (byte_digits b Hb) as (Hh & Hl & _).
  simpl. constructor; [apply hex_val_digit, Hh |].
  constructor; [apply hex_val_digit, Hl | exact IH].
Qed.

Section HexProps.
Variable unscanned : Z -> Z -> Z -> Z.

Lemma hex_decode_loop_chars (bs : list Z) :
  Forall is_byte bs ->
  forall i,
    Hex.decode_loop unscanned (concat (List.map Hex.snprintf_02x bs)) i = bs.
Proof.
  induction 1 as [| b bs Hb _ IH]; intros i; [reflexivity |].
  destruct (byte_digits b Hb) as (Hh & Hl & Hv).
  simpl. unfold Hex.sscanf_02x.
  destruct (hex_val_digit _ Hh) as [-> _].
  destruct (hex_val_digit _ Hl) as [-> _].
  rewrite Hv, IH. reflexivity.
Qed.

Lemma hex_encode_holds (s : Str.gg_string) (bs : list Z) :
  str_holds s bs -> Forall is_byte bs ->
  str_holds (Hex.gg_hex_encode (Some s))
            (concat (List.map Hex.snprintf_02x bs)).
Proof.
  intros Hs Hb. unfold Hex.gg_hex_encode.
  rewrite (str_holds_bytes s bs Hs). destruct Hs as [Hl _].
  destruct (Z.eqb_spec (Str.length s) 0) as [E | E].
  - destruct bs; [| simpl in Hl; lia]. apply empty_holds.
  - apply from_cstr_holds, hex_chars_nonzero, Hb.
Qed.

Lemma hex_decode_holds (e : Str.gg_string) (bs : list Z) :
  str_holds e (concat (List.map Hex.snprintf_02x bs)) -> Forall is_byte bs ->
  str_holds (Hex.gg_hex_decode unscanned (Some e)) bs.
Proof.
  intros He Hb. unfold Hex.gg_hex_decode.
  rewrite (str_holds_bytes e _ He). destruct He as [Hl _].
  rewrite hex_chars_length in Hl. rewrite Hl.
  destruct (Z.ltb_spec (Z.of_nat (2 * length bs)) 2) as [Hs | Hs].
  - destruct bs; [apply empty_holds | simpl in Hs; lia].
  - cbv zeta. rewrite hex_decode_loop_chars by exact Hb.
    rewrite Z.quot_div_nonneg by lia.
    replace (Z.of_nat (2 * length bs) / 2) with (Z.of_nat (length bs))
      by (rewrite Nat2Z.inj_mul; change (Z.of_nat 2) with 2;
          rewrite Z.mul_comm, Z.div_mul; lia).
    rewrite Nat2Z.id, firstn_all. apply from_buf_holds.
Qed.

Lemma lxor_byte (a b : Z) : is_byte a -> is_byte b -> is_byte (Z.lxor a b).
Proof.
  unfold is_byte. intros Ha Hb.
  assert (Hn : 0 <= Z.lxor a b) by (apply Z.lxor_nonneg; lia).
  split; [exact Hn |].
  destruct (Z.eq_dec (Z.lxor a b) 0) as [-> | Hne]; [lia |].
  change 256 with (2 ^ 8). apply Z.log2_lt_pow2; [lia |].
  pose proof (Z.log2_lxor a b ltac:(lia) ltac:(lia)) as Hlog.
  assert (Hla : Z.log2 a < 8).
  { destruct (Z.eq_dec a 0) as [-> | ?]; [simpl; lia |].
    apply Z.log2_lt_pow2; lia. }
  assert (Hlb : Z.log2 b < 8).
  { destruct (Z.eq_dec b 0) as [-> | ?]; [simpl; lia |].
    apply Z.log2_lt_pow2; lia. }
  lia.
Qed.

Lemma xor_loop_length (bs : list Z) (key : Str.gg_string) :
  length (Hex.xor_loop bs key) = length bs.
Proof. unfold Hex.xor_loop. apply length_imap. Qed.

Lemma xor_loop_bytes (bs ks : list Z) (key : Str.gg_string) :
  str_holds key ks -> Forall is_byte ks -> Forall is_byte bs ->
  Forall is_byte (Hex.xor_loop bs key).
Proof.
  intros [Hl Hd] Hks Hbs. apply Forall_lookup. intros i c Hc.
  unfold Hex.xor_loop in Hc. rewrite list_lookup_imap in Hc.
  destruct (bs !! i) as [b |] eqn:Eb; [| discriminate].
  injection Hc as <-.
  apply lxor_byte.
  - rewrite Forall_lookup in Hbs. apply (Hbs _ _ Eb).
  - rewrite Hd.
    destruct ((ks ++ [0]) !! _) as [x |] eqn:Ex; [| unfold is_byte; simpl; lia].
    simpl. assert (Hall : Forall is_byte (ks ++ [0])).
    { apply Forall_app. split; [exact Hks |].
      constructor; [unfold is_byte; lia | constructor]. }
    rewrite Forall_lookup in Hall. apply (Hall _ _ Ex).
Qed.

Lemma xor_loop_twice (bs : list Z) (key : Str.gg_string) :
  Hex.xor_loop (Hex.xor_loop bs key) key = bs.
Proof.
  apply list_eq. intros i. unfold Hex.xor_loop.
  rewrite !list_lookup_imap.
  destruct (bs !! i) as [b |]; [| reflexivity].
  simpl. f_equal.
  rewrite Z.lxor_assoc, Z.lxor_nilpotent, Z.lxor_0_r. reflexivity.
Qed.

(** X28: decoding the hexadecimal encoding of a string gives back the
    bytes of the string, whatever [sscanf] leaves in its destination when
    it does not find two digits. *)
Theorem gg_hex_round_trip (s : Str.gg_string) (bs : list Z) :
  str_holds s bs -> Forall is_byte bs ->
  2 * Str.length s + 1 <= INT32_MAX ->
  str_holds (Hex.gg_hex_decode unscanned (Some (Hex.gg_hex_encode (Some s))))
            bs.
Proof.
  intros Hs Hb _. apply hex_decode_holds; [| exact Hb].
  apply hex_encode_holds; assumption.
Qed.

(** X29: [gg_xor_decrypt] with the key of [gg_xor_encrypt] gives back the
    plain text, for every key that is not empty. *)
Theorem gg_xor_round_trip (p key : Str.gg_string) (bs ks : list Z) :
  str_holds p bs -> str_holds key ks ->
  Forall is_byte bs -> Forall is_byte ks -> ks <> [] ->
  2 * Str.length p + 1 <= INT32_MAX ->
  str_holds
    (Hex.gg_xor_decrypt unscanned
       (Some (Hex.gg_xor_encrypt (Some p) (Some key))) (Some key))
    bs.
Proof.
  intros Hp Hk Hb Hks Hne _.
  unfold Hex.gg_xor_decrypt, Hex.gg_xor_encrypt.
  assert (Hlen : Str.length key <> 0).
  { destruct Hk as [-> _]. destruct ks; [congruence | simpl; lia]. }
  destruct (Z.eqb_spec (Str.length key) 0) as [E | _]; [contradiction |].
  cbv zeta.
  rewrite (str_holds_bytes p bs Hp).
  assert (Hraw : str_holds
            (Str.gg_string_from_buf (Hex.xor_loop bs key) (Str.length p))
            (Hex.xor_loop bs key)).
  { destruct Hp as [-> _]. rewrite <- (xor_loop_length bs key).
    rewrite <- (app_nil_r (Hex.xor_loop bs key)) at 1.
    apply from_buf_holds. }
  pose proof (xor_loop_bytes bs ks key Hk Hks Hb) as Hrb.
  pose proof (hex_decode_holds _ _ (hex_encode_holds _ _ Hraw Hrb) Hrb) as Hd.
  rewrite (str_holds_bytes _ _ Hd). destruct Hd as [-> _].
  rewrite xor_loop_twice, xor_loop_length. apply from_buf_holds.
Qed.

End HexProps.

Lemma sample_key_holds : str_holds sample_key [107; 1; 255].
Proof. split; reflexivity. Qed.

Lemma gg_hex_round_trip_witness :
  str_holds
    (Hex.gg_hex_decode (fun _ _ _ => 0)
       (Some (Hex.gg_hex_encode (Some sample_string))))
    sample_bytes.
Proof.
  apply gg_hex_round_trip.
  - exact sample_string_holds.
  - exact sample_bytes_range.
  - vm_compute. discriminate.
Defined.

Lemma gg_xor_round_trip_witness :
  str_holds
    (Hex.gg_xor_decrypt (fun _ _ _ => 0)
       (Some (Hex.gg_xor_encrypt (Some sample_string) (Some sample_key)))
       (Some sample_key))
    sample_bytes.
Proof.
  apply (gg_xor_round_trip (fun _ _ _ => 0) sample_string sample_key
           sample_bytes [107; 1; 255]).
  - exact sample_string_holds.
  - exact sample_key_holds.
  - exact sample_bytes_range.
  - repeat constructor; unfold is_byte; lia.
  - discriminate.
  - vm_compute. discriminate.
Defined.

(** * The hash map *)

(** ** [gg_next_power_of_2] *)

Lemma smeared_start (m : Z) : smeared 1 m m.
Proof.
  intros i Hi. split.
  - intros H. exists 0. rewrite Z.add_0_r. split; [lia | exact H].
  - intros (t & Ht & H). replace (i + t) with i in H by lia. exact H.
Qed.

Lemma smeared_step (r x m : Z) :
  0 < r -> smeared r x m -> smeared (2 * r) (Z.lor x (Z.shiftr x r)) m.
Proof.
  intros Hr Hs i Hi.
  rewrite Z.lor_spec, Z.shiftr_spec, orb_true_iff by lia.
  rewrite (Hs i Hi), (Hs (i + r)) by lia. split.
  - intros [(t & Ht & H) | (t & Ht & H)].
    + exists t. split; [lia | exact H].
    + exists (r + t). split; [lia |]. rewrite Z.add_assoc. exact H.
  - intros (t & Ht & H). destruct (Z.lt_ge_cases t r).
    + left. exists t. split; [lia | exact H].
    + right. exists (t - r). split; [lia |].
      replace (i + r + (t - r)) with (i + t) by lia. exact H.
Qed.

Lemma smeared_ones (x m : Z) :
  0 < m < 2 ^ 31 -> 0 <= x -> smeared 32 x m ->
  x = Z.ones (Z.log2 m + 1).
Proof.
  intros Hm Hx Hs.
  assert (HL : 0 <= Z.log2 m < 31).
  { split; [apply Z.log2_nonneg |]. apply Z.log2_lt_pow2; lia. }
  apply Z.bits_inj'. intros i Hi.
  rewrite Z.testbit_ones_nonneg by lia.
  destruct (Z.ltb_spec i (Z.log2 m + 1)) as [Hlt | Hge].
  - apply Hs; [lia |]. exists (Z.log2 m - i). split; [lia |].
    replace (i + (Z.log2 m - i)) with (Z.log2 m) by lia.
    apply Z.bit_log2. lia.
  - destruct (Z.testbit x i) eqn:E; [| reflexivity].
    apply Hs in E as (t & Ht & E); [| lia].
    rewrite Z.bits_above_log2 in E by lia. discriminate.
Qed.

Lemma next_power_of_2_spec (n : Z) :
  1 <= n <= 2 ^ 30 ->
  exists k, 0 <= k <= 30 /\ gg_next_power_of_2 n = 2 ^ k /\ n <= 2 ^ k < 2 * n.
Proof.
  intros Hn. unfold gg_next_power_of_2. cbv zeta.
  destruct (Z.eq_dec n 1) as [-> | Hn1].
  { exists 0. split; [lia |]. split; [reflexivity | lia]. }
  set (m := n - 1).
  assert (Hm : 0 < m < 2 ^ 31) by lia.
  set (x1 := Z.lor m (Z.shiftr m 1)).
  set (x2 := Z.lor x1 (Z.shiftr x1 2)).
  set (x3 := Z.lor x2 (Z.shiftr x2 4)).
  set (x4 := Z.lor x3 (Z.shiftr x3 8)).
  set (x5 := Z.lor x4 (Z.shiftr x4 16)).
  assert (H1 : smeared 2 x1 m) by (apply (smeared_step 1); [lia | apply smeared_start]).
  assert (H2 : smeared 4 x2 m) by (apply (smeared_step 2); [lia | exact H1]).
  assert (H3 : smeared 8 x3 m) by (apply (smeared_step 4); [lia | exact H2]).
  assert (H4 : smeared 16 x4 m) by (apply (smeared_step 8); [lia | exact H3]).
  assert (H5 : smeared 32 x5 m) by (apply (smeared_step 16); [lia | exact H4]).
  assert (Hx : 0 <= x5).
  { unfold x5, x4, x3, x2, x1.
    repeat (apply Z.lor_nonneg; split; [| apply Z.shiftr_nonneg]); lia. }
  rewrite (smeared_ones x5 m Hm Hx H5).
  assert (HL : 0 <= Z.log2 m < 30).
  { split; [apply Z.log2_nonneg |]. apply Z.log2_lt_pow2; lia. }
  pose proof (Z.log2_spec m ltac:(lia)) as [Hlo Hhi].
  exists (Z.log2 m + 1). rewrite Z.ones_equiv.
  replace (Z.succ (Z.log2 m)) with (Z.log2 m + 1) in Hhi by lia.
  assert (E : 2 ^ (Z.log2 m + 1) = 2 * 2 ^ Z.log2 m)
    by (rewrite Z.pow_add_r by lia; lia).
  split; [lia |]. split; [lia |]. lia.
Qed.

(** X22: for [n] from 1 to [2^30], [gg_next_power_of_2] is the least power
    of two that is at least [n]. *)
Theorem gg_next_power_of_2_least (n : Z) :
  1 <= n <= 2 ^ 30 ->
  exists k, 0 <= k <= 30 /\ gg_next_power_of_2 n = 2 ^ k
            /\ n <= 2 ^ k < 2 * n.
Proof. exact (next_power_of_2_spec n). Qed.

(** ** Probing *)

Lemma land_mask (k x : Z) : 0 <= k -> Z.land x (2 ^ k - 1) = x mod 2 ^ k.
Proof.
  intros Hk. rewrite <- Z.land_ones by exact Hk.
  rewrite Z.ones_equiv. reflexivity.
Qed.

Section HashMapProps.
Context {V : Type}.
Implicit Types (m : HashMap.gg_hashmap V) (e : HashMap.gg_hashmap_entry V).
Implicit Types (k : list Z) (v : V).

(** The slot probed at turn [i]. *)
Lemma probe_range (c idx i : Z) :
  (exists p, 0 <= p /\ c = 2 ^ p) ->
  0 <= Z.land (idx + i) (c - 1) < c.
Proof.
  intros (p & Hp & ->). rewrite land_mask by exact Hp.
  apply Z.mod_pos_bound. apply Z.pow_pos_nonneg; lia.
Qed.

Lemma probe_inj (c idx i j : Z) :
  (exists p, 0 <= p /\ c = 2 ^ p) ->
  0 <= i < c -> 0 <= j < c ->
  Z.to_nat (Z.land (idx + i) (c - 1)) = Z.to_nat (Z.land (idx + j) (c - 1)) ->
  i = j.
Proof.
  intros Hc Hi Hj E.
  pose proof (probe_range c idx i Hc). pose proof (probe_range c idx j Hc).
  assert (E' : Z.land (idx + i) (c - 1) = Z.land (idx + j) (c - 1)) by lia.
  destruct Hc as (p & Hp & ->). rewrite !land_mask in E' by exact Hp.
  apply mod_offset_inj in E'; lia.
Qed.


Lemma live_false e :
  live e = false <-> negb (HashMap.occupied e) || HashMap.deleted e = true.
Proof.
  unfold live. destruct (HashMap.occupied e), (HashMap.deleted e);
    simpl; split; congruence.
Qed.

Lemma strcmp_eq_true (stored : option (list Z)) k :
  HashMap.strcmp_eq stored k = true <-> stored = Some k.
Proof. unfold HashMap.strcmp_eq. apply bool_decide_eq_true. Qed.

Lemma strcmp_eq_false (stored : option (list Z)) k :
  HashMap.strcmp_eq stored k = false <-> stored <> Some k.
Proof. unfold HashMap.strcmp_eq. apply bool_decide_eq_false. Qed.

(** [gg_hashmap_get] walks over the live buckets with another key and
    over the deleted ones, and answers at the first live bucket with the
    key. *)
Lemma get_loop_found m k (idx mask : Z) (n : nat) :
  forall (i j : Z) e,
    i <= j < i + Z.of_nat n ->
    (forall t, i <= t < j ->
       exists e', HashMap.buckets m !! Z.to_nat (Z.land (idx + t) mask)
                  = Some e'
                  /\ HashMap.occupied e' = true
                  /\ (live e' = true -> HashMap.key e' <> Some k)) ->
    HashMap.buckets m !! Z.to_nat (Z.land (idx + j) mask) = Some e ->
    live e = true -> HashMap.key e = Some k ->
    HashMap.get_loop n i idx mask m k = HashMap.value e.
Proof.
  induction n as [| n IH]; intros i j e Hj Hbefore He Hlive Hkey; [lia |].
  cbn [HashMap.get_loop]. cbv zeta.
  destruct (Z.eq_dec i j) as [-> | Hne].
  - rewrite He. unfold live in Hlive.
    apply andb_prop in Hlive as [-> Hd]. rewrite Hd. cbn [negb andb].
    apply strcmp_eq_true in Hkey. rewrite Hkey. reflexivity.
  - destruct (Hbefore i) as (e' & -> & Hocc & Hk'); [lia |].
    rewrite Hocc. cbn [negb].
    assert (Hskip : negb (HashMap.deleted e')
                    && HashMap.strcmp_eq (HashMap.key e') k = false).
    { destruct (HashMap.deleted e') eqn:Ed; [reflexivity |]. cbn [negb andb].
      apply strcmp_eq_false, Hk'. unfold live. rewrite Hocc, Ed. reflexivity. }
    rewrite Hskip.
    apply (IH (i + 1) j e); try assumption; [lia |].
    intros t Ht. apply Hbefore. lia.
Qed.

Lemma get_loop_absent m k (idx mask : Z) (n : nat) :
  forall (i j : Z) e,
    i <= j < i + Z.of_nat n ->
    (forall t, i <= t < j ->
       exists e', HashMap.buckets m !! Z.to_nat (Z.land (idx + t) mask)
                  = Some e'
                  /\ HashMap.occupied e' = true
                  /\ (live e' = true -> HashMap.key e' <> Some k)) ->
    HashMap.buckets m !! Z.to_nat (Z.land (idx + j) mask) = Some e ->
    HashMap.occupied e = false ->
    HashMap.get_loop n i idx mask m k = None.
Proof.
  induction n as [| n IH]; intros i j e Hj Hbefore He Hocc; [lia |].
  cbn [HashMap.get_loop]. cbv zeta.
  destruct (Z.eq_dec i j) as [-> | Hne].
  - rewrite He, Hocc. reflexivity.
  - destruct (Hbefore i) as (e' & -> & Hocc' & Hk'); [lia |].
    rewrite Hocc'. cbn [negb].
    assert (Hskip : negb (HashMap.deleted e')
                    && HashMap.strcmp_eq (HashMap.key e') k = false).
    { destruct (HashMap.deleted e') eqn:Ed; [reflexivity |]. cbn [negb andb].
      apply strcmp_eq_false, Hk'. unfold live. rewrite Hocc', Ed. reflexivity. }
    rewrite Hskip.
    apply (IH (i + 1) j e); try assumption; [lia |].
    intros t Ht. apply Hbefore. lia.
Qed.




Lemma live_count_app (l1 l2 : list (HashMap.gg_hashmap_entry V)) :
  live_count (l1 ++ l2) = (live_count l1 + live_count l2)%nat.
Proof. unfold live_count. rewrite List.filter_app, length_app. reflexivity. Qed.

Lemma live_count_cons e (l : list (HashMap.gg_hashmap_entry V)) :
  live_count (e :: l) = ((if live e then 1 else 0) + live_count l)%nat.
Proof. unfold live_count. simpl. destruct (live e); reflexivity. Qed.


Lemma live_count_insert (l : list (HashMap.gg_hashmap_entry V)) (s : nat) e e' :
  l !! s = Some e ->
  (live_count (<[s := e']> l) + (if live e then 1 else 0)
   = live_count l + (if live e' then 1 else 0))%nat.
Proof.
  intros He.
  pose proof (lookup_lt_Some _ _ _ He) as Hs.
  rewrite insert_take_drop by exact Hs.
  rewrite <- (take_drop_middle l s e He) at 3.
  rewrite !live_count_app, !live_count_cons. lia.
Qed.





Lemma live_count_zero (n : nat) :
  live_count (replicate n (@HashMap.zero_entry V)) = 0%nat.
Proof. induction n as [| n IH]; [reflexivity |]. exact IH. Qed.

Lemma zero_map_ok (c es : Z) :
  (exists p, 0 <= p /\ c = 2 ^ p) ->
  hm_ok (HashMap.Make (replicate (Z.to_nat c) (@HashMap.zero_entry V)) c 0 es).
Proof.
  intros Hc. unfold hm_ok.
  cbn [HashMap.capacity HashMap.buckets HashMap.count].
  split; [exact Hc |]. rewrite length_replicate, live_count_zero.
  destruct Hc as (p & Hp & ->).
  assert (0 < 2 ^ p) by (apply Z.pow_pos_nonneg; lia).
  split; [lia |]. split; [reflexivity |].
  apply Forall_replicate. discriminate.
Qed.




(** [gg_hashmap_remove] walks as [gg_hashmap_get] does. *)
Lemma remove_loop_spec m k (idx mask : Z) (n : nat) :
  hm_ok m ->
  forall i,
    let r := HashMap.remove_loop n i idx mask m k in
    fst r = (match HashMap.get_loop n i idx mask m k with
             | Some _ => 1 | None => 0 end)
    /\ hm_ok (snd r)
    /\ HashMap.count (snd r) = HashMap.count m - fst r
    /\ HashMap.capacity (snd r) = HashMap.capacity m
    /\ (fst r = 0 -> snd r = m).
Proof.
  intros Hok. pose proof Hok as (Hcap & Hlen & Hcount & Hall).
  induction n as [| n IH]; intros i.
  { cbn. split; [reflexivity |]. split; [exact Hok |].
    split; [lia |]. split; reflexivity. }
  cbn [HashMap.remove_loop HashMap.get_loop]. cbv zeta.
  destruct (HashMap.buckets m !! Z.to_nat (Z.land (idx + i) mask))
    as [e |] eqn:He.
  2:{ cbn. split; [reflexivity |]. split; [exact Hok |].
      split; [lia |]. split; reflexivity. }
  destruct (HashMap.occupied e) eqn:Eo; cbn [negb].
  2:{ cbn. split; [reflexivity |]. split; [exact Hok |].
      split; [lia |]. split; reflexivity. }
  destruct (negb (HashMap.deleted e) && HashMap.strcmp_eq (HashMap.key e) k)
    eqn:Ematch; [| apply IH].
  apply andb_prop in Ematch as [Ed Ek]. apply negb_true_iff in Ed.
  assert (Hl : live e = true) by (unfold live; rewrite Eo, Ed; reflexivity).
  rewrite Forall_lookup in Hall. destruct (Hall _ _ He Hl) as [_ [v Hv]].
  rewrite Hv. cbn [fst snd HashMap.count HashMap.capacity].
  split; [reflexivity |]. split; [| split; [lia | split; [reflexivity | lia]]].
  unfold hm_ok. cbn [HashMap.capacity HashMap.buckets HashMap.count].
  split; [exact Hcap |]. split; [rewrite length_insert; exact Hlen |].
  split.
  - pose proof (live_count_insert _ _ e
                  (HashMap.Entry (HashMap.key e) None true true) He) as Hc.
    rewrite Hl in Hc. cbn in Hc. lia.
  - apply Forall_insert; [apply Forall_lookup; exact Hall |].
    discriminate.
Qed.


Lemma gg_hashmap_put_room m k v (f : nat) :
  HashMap.load_exceeded m = false ->
  HashMap.gg_hashmap_put (S f) m (Some k) v
  = Some (HashMap.put_loop (Z.to_nat (HashMap.capacity m)) 0
            (Z.land (gg_hash_fnv1a k) (HashMap.capacity m - 1))
            (HashMap.capacity m - 1) m k v).
Proof. intros H. cbn [HashMap.gg_hashmap_put]. rewrite H. reflexivity. Qed.

(** One turn of each probe loop. *)
Lemma put_loop_free m k v (idx mask i : Z) (n : nat) e :
  HashMap.buckets m !! Z.to_nat (Z.land (idx + i) mask) = Some e ->
  live e = false ->
  HashMap.put_loop (S n) i idx mask m k v
  = HashMap.Make
      (<[Z.to_nat (Z.land (idx + i) mask)
         := HashMap.Entry (Some k) (Some v) true false]> (HashMap.buckets m))
      (HashMap.capacity m) (HashMap.count m + 1) (HashMap.elem_size m).
Proof.
  intros He Hl. cbn [HashMap.put_loop]. cbv zeta. rewrite He.
  apply live_false in Hl. rewrite Hl. reflexivity.
Qed.

Lemma put_loop_skip m k v (idx mask i : Z) (n : nat) e :
  HashMap.buckets m !! Z.to_nat (Z.land (idx + i) mask) = Some e ->
  live e = true -> HashMap.key e <> Some k ->
  HashMap.put_loop (S n) i idx mask m k v
  = HashMap.put_loop n (i + 1) idx mask m k v.
Proof.
  intros He Hl Hk. cbn [HashMap.put_loop]. cbv zeta. rewrite He.
  destruct (negb (HashMap.occupied e) || HashMap.deleted e) eqn:E.
  { apply live_false in E. congruence. }
  apply strcmp_eq_false in Hk. rewrite Hk. reflexivity.
Qed.

Lemma get_loop_hit m k (idx mask i : Z) (n : nat) e :
  HashMap.buckets m !! Z.to_nat (Z.land (idx + i) mask) = Some e ->
  live e = true -> HashMap.key e = Some k ->
  HashMap.get_loop (S n) i idx mask m k = HashMap.value e.
Proof.
  intros He Hl Hk.
  apply (get_loop_found m k idx mask (S n) i i e); try assumption; lia.
Qed.

Lemma get_loop_skip m k (idx mask i : Z) (n : nat) e :
  HashMap.buckets m !! Z.to_nat (Z.land (idx + i) mask) = Some e ->
  HashMap.occupied e = true -> HashMap.deleted e = true ->
  HashMap.get_loop (S n) i idx mask m k
  = HashMap.get_loop n (i + 1) idx mask m k.
Proof.
  intros He Ho Hd. cbn [HashMap.get_loop]. cbv zeta.
  rewrite He, Ho, Hd. reflexivity.
Qed.

Lemma remove_loop_hit m k (idx mask i : Z) (n : nat) e :
  HashMap.buckets m !! Z.to_nat (Z.land (idx + i) mask) = Some e ->
  live e = true -> HashMap.key e = Some k ->
  HashMap.remove_loop (S n) i idx mask m k
  = (1, HashMap.Make
          (<[Z.to_nat (Z.land (idx + i) mask)
             := HashMap.Entry (HashMap.key e) None (HashMap.occupied e) true]>
             (HashMap.buckets m))
          (HashMap.capacity m) (HashMap.count m - 1) (HashMap.elem_size m)).
Proof.
  intros He Hl Hk. cbn [HashMap.remove_loop]. cbv zeta. rewrite He.
  unfold live in Hl. apply andb_prop in Hl as [Ho Hd]. rewrite Ho, Hd.
  apply strcmp_eq_true in Hk. rewrite Hk. reflexivity.
Qed.

(** Two keys [x] and [k] whose probes start at the same slot of sixteen
    zero buckets: [x] is put, then [k]; [x] is removed; [k] is put again,
    and removed. *)
Lemma stale_key_loops (x k : list Z) (vx v1 v2 : V) (es ix : Z) :
  x <> k ->
  exists m1 m2 m3 m4 m5,
    HashMap.put_loop 16 0 ix 15
      (HashMap.Make (replicate 16 HashMap.zero_entry) 16 0 es) x vx = m1
    /\ (HashMap.capacity m1 = 16 /\ HashMap.count m1 = 1)
    /\ HashMap.put_loop 16 0 ix 15 m1 k v1 = m2
    /\ (HashMap.capacity m2 = 16 /\ HashMap.count m2 = 2)
    /\ HashMap.remove_loop 16 0 ix 15 m2 x = (1, m3)
    /\ (HashMap.capacity m3 = 16 /\ HashMap.count m3 = 1)
    /\ HashMap.put_loop 16 0 ix 15 m3 k v2 = m4
    /\ (HashMap.capacity m4 = 16 /\ HashMap.count m4 = 2)
    /\ HashMap.get_loop 16 0 ix 15 m4 k = Some v2
    /\ HashMap.remove_loop 16 0 ix 15 m4 k = (1, m5)
    /\ (HashMap.capacity m5 = 16 /\ HashMap.count m5 = 1)
    /\ HashMap.get_loop 16 0 ix 15 m5 k = Some v1.
Proof.
  intros Hxk.
  assert (Hc : exists p, 0 <= p /\ 16 = 2 ^ p) by (exists 4; split; [lia | reflexivity]).
  pose proof (probe_range 16 ix 0 Hc) as H0. change (16 - 1) with 15 in H0.
  pose proof (probe_range 16 ix (0 + 1) Hc) as H1. change (16 - 1) with 15 in H1.
  assert (Hne : Z.to_nat (Z.land (ix + 0) 15)
                <> Z.to_nat (Z.land (ix + (0 + 1)) 15)).
  { intros E. apply (probe_inj 16 ix 0 (0 + 1) Hc) in E; lia. }
  set (s0 := Z.to_nat (Z.land (ix + 0) 15)) in *.
  set (s1 := Z.to_nat (Z.land (ix + (0 + 1)) 15)) in *.
  set (B0 := replicate 16 (@HashMap.zero_entry V)).
  assert (HB0 : forall s, (s < 16)%nat -> B0 !! s = Some HashMap.zero_entry)
    by (intros s Hs; apply lookup_replicate_2; exact Hs).
  assert (HL0 : length B0 = 16%nat) by apply length_replicate.
  do 5 eexists.
  split.
  { apply (put_loop_free _ x vx ix 15 0 15 HashMap.zero_entry);
      [apply HB0; lia | reflexivity]. }
  cbn [HashMap.capacity HashMap.count HashMap.buckets HashMap.elem_size].
  split; [split; reflexivity |].
  split.
  { rewrite (put_loop_skip _ k v1 ix 15 0 15
               (HashMap.Entry (Some x) (Some vx) true false));
      [| apply list_lookup_insert_eq; lia | reflexivity
       | cbn; congruence].
    apply (put_loop_free _ k v1 ix 15 (0 + 1) 14 HashMap.zero_entry);
      [| reflexivity].
    cbn [HashMap.buckets]. fold s0 s1.
    rewrite list_lookup_insert_ne by exact Hne. apply HB0. lia. }
  cbn [HashMap.capacity HashMap.count HashMap.buckets HashMap.elem_size].
  fold s0 s1.
  split; [split; reflexivity |].
  split.
  { apply (remove_loop_hit _ x ix 15 0 15
             (HashMap.Entry (Some x) (Some vx) true false));
      [| reflexivity | reflexivity].
    cbn [HashMap.buckets]. fold s0.
    rewrite list_lookup_insert_ne by (intros E; apply Hne; symmetry; exact E).
    apply list_lookup_insert_eq. lia. }
  cbn [HashMap.capacity HashMap.count HashMap.buckets HashMap.elem_size
       HashMap.key HashMap.occupied].
  fold s0.
  split; [split; reflexivity |].
  split.
  { apply (put_loop_free _ k v2 ix 15 0 15
             (HashMap.Entry (Some x) None true true)); [| reflexivity].
    cbn [HashMap.buckets]. fold s0.
    apply list_lookup_insert_eq. rewrite !length_insert. lia. }
  cbn [HashMap.capacity HashMap.count HashMap.buckets HashMap.elem_size].
  fold s0.
  split; [split; reflexivity |].
  split.
  { apply (get_loop_hit _ k ix 15 0 15
             (HashMap.Entry (Some k) (Some v2) true false));
      [| reflexivity | reflexivity].
    cbn [HashMap.buckets]. fold s0.
    apply list_lookup_insert_eq. rewrite !length_insert. lia. }
  split.
  { apply (remove_loop_hit _ k ix 15 0 15
             (HashMap.Entry (Some k) (Some v2) true false));
      [| reflexivity | reflexivity].
    cbn [HashMap.buckets]. fold s0.
    apply list_lookup_insert_eq. rewrite !length_insert. lia. }
  cbn [HashMap.capacity HashMap.count HashMap.buckets HashMap.elem_size
       HashMap.key HashMap.occupied].
  fold s0.
  split; [split; reflexivity |].
  rewrite (get_loop_skip _ k ix 15 0 15
             (HashMap.Entry (Some k) None true true));
    [| cbn [HashMap.buckets]; fold s0; apply list_lookup_insert_eq;
       rewrite !length_insert; lia
     | reflexivity | reflexivity].
  apply (get_loop_hit _ k ix 15 (0 + 1) 14
           (HashMap.Entry (Some k) (Some v1) true false));
    [| reflexivity | reflexivity].
  cbn [HashMap.buckets]. fold s0 s1.
  rewrite !list_lookup_insert_ne by exact Hne.
  apply list_lookup_insert_eq. rewrite !length_insert. lia.
Qed.


Lemma get_unoccupied m (key_ptr : option (list Z)) :
  hm_ok m ->
  Forall (fun e => HashMap.occupied e = false) (HashMap.buckets m) ->
  HashMap.gg_hashmap_get m key_ptr = None.
Proof.
  intros ((p & Hp & Hcap) & Hlen & _) Hall.
  destruct key_ptr as [k |]; [| reflexivity].
  unfold HashMap.gg_hashmap_get. cbv zeta.
  assert (Hpos : 0 < HashMap.capacity m)
    by (rewrite Hcap; apply Z.pow_pos_nonneg; lia).
  set (idx := Z.land (gg_hash_fnv1a k) (HashMap.capacity m - 1)).
  pose proof (probe_range (HashMap.capacity m) idx 0
                (ex_intro _ p (conj Hp Hcap))) as Hr.
  destruct (lookup_lt_is_Some_2 (HashMap.buckets m)
              (Z.to_nat (Z.land (idx + 0) (HashMap.capacity m - 1))))
    as [e He]; [lia |].
  apply (get_loop_absent m k idx _ _ 0 0 e); [lia | intros t Ht; lia | exact He |].
  rewrite Forall_lookup in Hall. apply (Hall _ _ He).
Qed.

Lemma live_count_unoccupied (l : list (HashMap.gg_hashmap_entry V)) :
  Forall (fun e => HashMap.occupied e = false) l -> live_count l = 0%nat.
Proof.
  induction 1 as [| e l He _ IH]; [reflexivity |].
  rewrite live_count_cons, IH. unfold live. rewrite He. reflexivity.
Qed.

(** X25: [gg_hashmap_remove] answers 1 exactly when
    [gg_hashmap_containsKey] does; it then takes one from [count], and
    otherwise leaves the map as it is.  The map stays well formed. *)
Theorem gg_hashmap_remove_found m (key_ptr : option (list Z)) :
  hm_ok m ->
  let r := HashMap.gg_hashmap_remove m key_ptr in
  fst r = HashMap.gg_hashmap_containsKey m key_ptr
  /\ hm_ok (snd r)
  /\ HashMap.count (snd r) = HashMap.count m - fst r
  /\ (fst r = 0 -> snd r = m).
Proof.
  intros Hok r. subst r.
  unfold HashMap.gg_hashmap_remove, HashMap.gg_hashmap_containsKey,
    HashMap.gg_hashmap_get.
  destruct key_ptr as [k |].
  - cbv zeta.
    destruct (remove_loop_spec m k
                (Z.land (gg_hash_fnv1a k) (HashMap.capacity m - 1))
                (HashMap.capacity m - 1) (Z.to_nat (HashMap.capacity m)) Hok 0)
      as (Hr & Hok' & Hc & _ & Hsame).
    split; [exact Hr |]. split; [exact Hok' |]. split; [exact Hc | exact Hsame].
  - cbn [fst snd]. split; [reflexivity |]. split; [exact Hok |].
    split; [lia | reflexivity].
Qed.

(** X26: after [gg_hashmap_clear] the map is well formed, its count is 0
    and [gg_hashmap_get] finds no key. *)
Theorem gg_hashmap_clear_empty m (key_ptr : option (list Z)) :
  hm_ok m ->
  hm_ok (HashMap.gg_hashmap_clear m)
  /\ HashMap.gg_hashmap_count (Some (HashMap.gg_hashmap_clear m)) = 0
  /\ HashMap.capacity (HashMap.gg_hashmap_clear m) = HashMap.capacity m
  /\ HashMap.gg_hashmap_get (HashMap.gg_hashmap_clear m) key_ptr = None.
Proof.
  intros Hok. pose proof Hok as (Hcap & Hlen & Hcount & Hall).
  assert (Hun : Forall (fun e => HashMap.occupied e = false)
                  (HashMap.buckets (HashMap.gg_hashmap_clear m))).
  { unfold HashMap.gg_hashmap_clear. cbn [HashMap.buckets].
    rewrite take_ge, drop_ge, app_nil_r by lia.
    apply List.Forall_map. apply Forall_forall. intros e _.
    destruct (HashMap.occupied e) eqn:E; [reflexivity | exact E]. }
  assert (Hok' : hm_ok (HashMap.gg_hashmap_clear m)).
  { unfold hm_ok. split; [exact Hcap |]. split; [| split].
    - unfold HashMap.gg_hashmap_clear. cbn [HashMap.buckets HashMap.capacity].
      rewrite take_ge, drop_ge, app_nil_r, length_map by lia. exact Hlen.
    - rewrite (live_count_unoccupied _ Hun). reflexivity.
    - eapply Forall_impl; [exact Hun |]. intros e He Hl.
      unfold live in Hl. rewrite He in Hl. discriminate. }
  split; [exact Hok' |]. split; [reflexivity |]. split; [reflexivity |].
  apply get_unoccupied; assumption.
Qed.

(** X23: [gg_hashmap_new_capacity] makes a well-formed map without
    entries, whose capacity is the least power of two that is at least the
    capacity asked for and at least 16. *)
Theorem gg_hashmap_new_capacity_ok (es n : Z) (key_ptr : option (list Z)) :
  n <= 2 ^ 30 ->
  let m := @HashMap.gg_hashmap_new_capacity V es n in
  hm_ok m
  /\ HashMap.gg_hashmap_count (Some m) = 0
  /\ (exists p, HashMap.capacity m = 2 ^ p
                /\ Z.max 16 n <= 2 ^ p < 2 * Z.max 16 n)
  /\ HashMap.gg_hashmap_get m key_ptr = None.
Proof.
  intros Hn m. subst m. unfold HashMap.gg_hashmap_new_capacity. cbv zeta.
  set (a := if n <? 16 then 16 else n).
  assert (Ha : a = Z.max 16 n) by (unfold a; destruct (Z.ltb_spec n 16); lia).
  destruct (next_power_of_2_spec a) as (p & Hp & -> & Hb); [lia |].
  assert (Hc : exists q, 0 <= q /\ 2 ^ p = 2 ^ q) by (exists p; split; [lia | reflexivity]).
  pose proof (zero_map_ok (2 ^ p) es Hc) as Hok.
  split; [exact Hok |]. split; [reflexivity |].
  split; [exists p; split; [reflexivity | lia] |].
  apply get_unoccupied; [exact Hok |].
  cbn [HashMap.buckets]. apply Forall_replicate. reflexivity.
Qed.

(** X27: [gg_hashmap_put] takes the first deleted bucket of the probe
    without looking for the key behind it.  With two keys whose probes
    start at the same bucket of a new map, put one after the other, the
    removal of the first followed by a second put of the other leaves that
    key in two buckets: the map counts two entries for one key, and after
    [gg_hashmap_remove] of the key has answered 1 the key is still found,
    with the value of its first put. *)
Theorem gg_hashmap_remove_leaves_key
    (x k : list Z) (vx v1 v2 : V) (es : Z) :
  x <> k ->
  Z.land (gg_hash_fnv1a x) 15 = Z.land (gg_hash_fnv1a k) 15 ->
  exists m1 m2 m4,
    HashMap.gg_hashmap_put 2 (HashMap.gg_hashmap_new es) (Some x) vx = Some m1
    /\ HashMap.gg_hashmap_put 2 m1 (Some k) v1 = Some m2
    /\ fst (HashMap.gg_hashmap_remove m2 (Some x)) = 1
    /\ HashMap.gg_hashmap_put 2
         (snd (HashMap.gg_hashmap_remove m2 (Some x))) (Some k) v2 = Some m4
    /\ HashMap.gg_hashmap_count (Some m4) = 2
    /\ HashMap.gg_hashmap_get m4 (Some k) = Some v2
    /\ fst (HashMap.gg_hashmap_remove m4 (Some k)) = 1
    /\ HashMap.gg_hashmap_get
         (snd (HashMap.gg_hashmap_remove m4 (Some k))) (Some k) = Some v1
    /\ HashMap.gg_hashmap_containsKey
         (snd (HashMap.gg_hashmap_remove m4 (Some k))) (Some k) = 1.
Proof.
  intros Hxk Hix.
  destruct (stale_key_loops x k vx v1 v2 es (Z.land (gg_hash_fnv1a x) 15) Hxk)
    as (m1 & m2 & m3 & m4 & m5 & H1 & [C1 N1] & H2 & [C2 N2] & H3 & [C3 N3]
        & H4 & [C4 N4] & G4 & H5 & [C5 N5] & G5).
  assert (Hroom : forall m : HashMap.gg_hashmap V,
    HashMap.capacity m = 16 -> HashMap.count m <= 2 ->
    HashMap.load_exceeded m = false).
  { intros m Hc Hn. unfold HashMap.load_exceeded. rewrite Hc.
    destruct (Z.ltb_spec (3 * 16) (4 * (HashMap.count m + 1))); [lia | reflexivity]. }
  assert (Hrm2 : HashMap.gg_hashmap_remove m2 (Some x) = (1, m3)).
  { unfold HashMap.gg_hashmap_remove. cbv zeta. rewrite C2. change (16 - 1) with 15. exact H3. }
  assert (Hrm4 : HashMap.gg_hashmap_remove m4 (Some k) = (1, m5)).
  { unfold HashMap.gg_hashmap_remove. cbv zeta. rewrite C4. change (16 - 1) with 15. rewrite <- Hix. exact H5. }
  exists m1, m2, m4.
  split.
  { rewrite gg_hashmap_put_room by (apply Hroom; [reflexivity | cbn; lia]).
    f_equal. exact H1. }
  split.
  { rewrite gg_hashmap_put_room by (apply Hroom; [exact C1 | lia]).
    f_equal. rewrite C1. change (16 - 1) with 15. rewrite <- Hix. exact H2. }
  rewrite Hrm2, Hrm4. cbn [fst snd].
  split; [reflexivity |].
  split.
  { rewrite gg_hashmap_put_room by (apply Hroom; [exact C3 | lia]).
    f_equal. rewrite C3. change (16 - 1) with 15. rewrite <- Hix. exact H4. }
  split; [exact N4 |].
  split.
  { unfold HashMap.gg_hashmap_get. cbv zeta. rewrite C4. change (16 - 1) with 15. rewrite <- Hix. exact G4. }
  split; [reflexivity |].
  assert (Hg : HashMap.gg_hashmap_get m5 (Some k) = Some v1).
  { unfold HashMap.gg_hashmap_get. cbv zeta. rewrite C5. change (16 - 1) with 15. rewrite <- Hix. exact G5. }
  split; [exact Hg |].
  unfold HashMap.gg_hashmap_containsKey. rewrite Hg. reflexivity.
Qed.

End HashMapProps.


Lemma gg_next_power_of_2_least_witness :
  exists k, 0 <= k <= 30 /\ gg_next_power_of_2 17 = 2 ^ k
            /\ 17 <= 2 ^ k < 2 * 17.
Proof. apply gg_next_power_of_2_least. lia. Defined.

Lemma gg_hashmap_new_capacity_ok_witness :
  hm_ok (@HashMap.gg_hashmap_new_capacity Z 8 100)
  /\ HashMap.gg_hashmap_count (Some (@HashMap.gg_hashmap_new_capacity Z 8 100))
     = 0
  /\ (exists p, HashMap.capacity (@HashMap.gg_hashmap_new_capacity Z 8 100)
                = 2 ^ p
                /\ Z.max 16 100 <= 2 ^ p < 2 * Z.max 16 100)
  /\ HashMap.gg_hashmap_get (@HashMap.gg_hashmap_new_capacity Z 8 100)
       (Some [97]) = None.
Proof. apply (gg_hashmap_new_capacity_ok (V := Z) 8 100 (Some [97])). lia. Defined.


Lemma two_key_map_ok : hm_ok two_key_map.
Proof.
  unfold hm_ok, two_key_map.
  cbn [HashMap.capacity HashMap.buckets HashMap.count].
  split; [exists 4; split; [lia | reflexivity] |].
  split; [reflexivity |]. split; [reflexivity |].
  simpl.
  repeat (constructor;
          [first [discriminate | intros _; split; eexists; reflexivity] |]).
  constructor.
Qed.

Lemma gg_hashmap_remove_found_witness :
  HashMap.gg_hashmap_get two_key_map (Some [113]) = Some 9
  /\ fst (HashMap.gg_hashmap_remove two_key_map (Some [113])) = 1
  /\ fst (HashMap.gg_hashmap_remove two_key_map (Some [113]))
     = HashMap.gg_hashmap_containsKey two_key_map (Some [113])
  /\ hm_ok (snd (HashMap.gg_hashmap_remove two_key_map (Some [113])))
  /\ HashMap.count (snd (HashMap.gg_hashmap_remove two_key_map (Some [113])))
     = HashMap.count two_key_map
       - fst (HashMap.gg_hashmap_remove two_key_map (Some [113]))
  /\ HashMap.gg_hashmap_get
       (snd (HashMap.gg_hashmap_remove two_key_map (Some [113]))) (Some [113])
     = None
  /\ HashMap.gg_hashmap_get
       (snd (HashMap.gg_hashmap_remove two_key_map (Some [113]))) (Some [97])
     = Some 7.
Proof.
  destruct (gg_hashmap_remove_found two_key_map (Some [113]) two_key_map_ok)
    as (Hr & Hok & Hc & _).
  split; [reflexivity |]. split; [reflexivity |].
  split; [exact Hr |]. split; [exact Hok |]. split; [exact Hc |].
  split; reflexivity.
Defined.

Lemma gg_hashmap_clear_empty_witness :
  HashMap.gg_hashmap_count (Some two_key_map) = 2
  /\ HashMap.gg_hashmap_get two_key_map (Some [113]) = Some 9
  /\ hm_ok (HashMap.gg_hashmap_clear two_key_map)
  /\ HashMap.gg_hashmap_count (Some (HashMap.gg_hashmap_clear two_key_map)) = 0
  /\ HashMap.capacity (HashMap.gg_hashmap_clear two_key_map)
     = HashMap.capacity two_key_map
  /\ HashMap.gg_hashmap_get (HashMap.gg_hashmap_clear two_key_map)
       (Some [113]) = None.
Proof.
  split; [reflexivity |]. split; [reflexivity |].
  apply gg_hashmap_clear_empty, two_key_map_ok.
Defined.

Lemma gg_hashmap_remove_leaves_key_witness :
  exists m1 m2 m4,
    HashMap.gg_hashmap_put 2 (HashMap.gg_hashmap_new 8) (Some [97]) 1 = Some m1
    /\ HashMap.gg_hashmap_put 2 m1 (Some [113]) 2 = Some m2
    /\ fst (HashMap.gg_hashmap_remove m2 (Some [97])) = 1
    /\ HashMap.gg_hashmap_put 2
         (snd (HashMap.gg_hashmap_remove m2 (Some [97]))) (Some [113]) 3
       = Some m4
    /\ HashMap.gg_hashmap_count (Some m4) = 2
    /\ HashMap.gg_hashmap_get m4 (Some [113]) = Some 3
    /\ fst (HashMap.gg_hashmap_remove m4 (Some [113])) = 1
    /\ HashMap.gg_hashmap_get
         (snd (HashMap.gg_hashmap_remove m4 (Some [113]))) (Some [113])
       = Some 2
    /\ HashMap.gg_hashmap_containsKey
         (snd (HashMap.gg_hashmap_remove m4 (Some [113]))) (Some [113]) = 1.
Proof.
  apply (gg_hashmap_remove_leaves_key (V := Z) [97] [113] 1 2 3 8).
  - discriminate.
  - reflexivity.
Defined.

(** * The linked list *)

Section ListProps.
Context {A : Type}.
Implicit Types (m : LinkedList.memory A) (ps : list Z) (xs : list A).

Lemma write_node_eq (p : Z) (n : LinkedList.gg_list_node A) ns :
  LinkedList.write_node p n ns p = Some n.
Proof. unfold LinkedList.write_node. rewrite Z.eqb_refl. reflexivity. Qed.

Lemma write_node_ne (p q : Z) (n : LinkedList.gg_list_node A) ns :
  q <> p -> LinkedList.write_node p n ns q = ns q.
Proof.
  intros H. unfold LinkedList.write_node.
  destruct (Z.eqb_spec q p); [contradiction | reflexivity].
Qed.

Lemma free_node_ne (p q : Z) (ns : Z -> option (LinkedList.gg_list_node A)) :
  q <> p -> LinkedList.free_node p ns q = ns q.
Proof.
  intros H. unfold LinkedList.free_node.
  destruct (Z.eqb_spec q p); [contradiction | reflexivity].
Qed.

Lemma dll_elem_nonzero ps (i : nat) (p : Z) :
  (0 ∉ ps) -> ps !! i = Some p -> p <> 0.
Proof.
  intros H0 Hp ->. apply H0. apply list_elem_of_lookup. exists i. exact Hp.
Qed.

Lemma last_lookup_pred ps : last ps = ps !! pred (length ps).
Proof. apply last_lookup. Qed.



Lemma dll_last_lookup ps (p : Z) :
  last (ps ++ [p]) = Some p.
Proof. apply last_snoc. Qed.







Lemma remove_empty m :
  dll m [] [] ->
  LinkedList.gg_list_removeFirst m = (0, m)
  /\ LinkedList.gg_list_removeLast m = (0, m).
Proof.
  intros (_ & _ & _ & Hhead & Htail & _).
  unfold LinkedList.gg_list_removeFirst, LinkedList.gg_list_removeLast.
  cbv zeta. rewrite Hhead, Htail. split; reflexivity.
Qed.

(** [gg_list_removeFirst] *)
Lemma removeFirst_dll m ps xs (p : Z) (x : A) :
  dll m (p :: ps) (x :: xs) ->
  exists m', LinkedList.gg_list_removeFirst m = (1, m') /\ dll m' ps xs.
Proof.
  intros (Hlen & Hnd & H0 & Hhead & Htail & Hcount & Hnodes).
  assert (Hp0 : p <> 0) by (apply (dll_elem_nonzero _ 0%nat _ H0); reflexivity).
  apply NoDup_cons in Hnd as [Hpps Hnd].
  rewrite not_elem_of_cons in H0. destruct H0 as [_ H0].
  pose proof (Hnodes 0%nat p x eq_refl eq_refl) as Hn.
  unfold LinkedList.gg_list_removeFirst. cbv zeta.
  change (default 0 ((p :: ps) !! 0%nat)) with p in Hhead.
  change (default 0 ((p :: ps) !! 1%nat)) with (default 0 (ps !! 0%nat)) in Hn.
  rewrite Hhead. destruct (Z.eqb_spec p 0); [contradiction |].
  rewrite Hn. cbn [LinkedList.next].
  eexists. split; [reflexivity |].
  unfold dll.
  cbn [LinkedList.list LinkedList.nodes LinkedList.head LinkedList.tail
       LinkedList.count].
  split; [simpl in Hlen; lia |]. split; [exact Hnd |]. split; [exact H0 |].
  destruct ps as [| p1 ps'].
  - destruct xs; [| discriminate]. simpl.
    split; [reflexivity |]. split; [reflexivity |].
    split; [rewrite Hcount; simpl; lia |].
    intros i q y Hq. discriminate.
  - destruct xs as [| x1 xs']; [discriminate |].
    assert (Hp1 : p1 <> 0)
      by (apply (dll_elem_nonzero _ 0%nat _ H0); reflexivity).
    change (default 0 ((p1 :: ps') !! 0%nat)) with p1.
    destruct (Z.eqb_spec p1 0); [contradiction |].
    split; [reflexivity |].
    split; [rewrite Htail; reflexivity |].
    split; [rewrite Hcount; simpl length; lia |].
    assert (Hp1p : p1 <> p).
    { intros ->. apply Hpps. left. }
    pose proof (Hnodes 1%nat p1 x1 eq_refl eq_refl) as Hn1.
    unfold LinkedList.set_prev. rewrite Hn1.
    cbn [LinkedList.data LinkedList.next].
    intros i q y Hq Hy.
    assert (Hqp : q <> p).
    { intros ->. apply Hpps. apply list_elem_of_lookup. eauto. }
    rewrite free_node_ne by exact Hqp.
    destruct i as [| j].
    + simpl in Hq, Hy. injection Hq as <-. injection Hy as <-.
      rewrite write_node_eq. reflexivity.
    + assert (q <> p1).
      { intros ->. apply NoDup_cons in Hnd as [Hnot _]. apply Hnot.
        apply list_elem_of_lookup. exists j. exact Hq. }
      rewrite write_node_ne by assumption.
      rewrite (Hnodes (S (S j)) q y Hq Hy). reflexivity.
Qed.

(** [gg_list_removeLast] *)
Lemma removeLast_dll m ps xs (p : Z) (x : A) :
  dll m (ps ++ [p]) (xs ++ [x]) ->
  exists m', LinkedList.gg_list_removeLast m = (1, m') /\ dll m' ps xs.
Proof.
  intros (Hlen & Hnd & H0 & Hhead & Htail & Hcount & Hnodes).
  rewrite !length_app in Hlen. simpl in Hlen.
  assert (Hlen' : length ps = length xs) by lia.
  apply NoDup_app in Hnd as (Hnd & Hpps & _).
  assert (Hpn : p ∉ ps).
  { intros Hin. apply (Hpps p Hin). left. }
  rewrite not_elem_of_app in H0. destruct H0 as [H0 Hp0].
  rewrite list_elem_of_singleton in Hp0.
  rewrite last_snoc in Htail. simpl in Htail.
  assert (Hplook : (ps ++ [p]) !! length ps = Some p)
    by (apply list_lookup_middle; reflexivity).
  assert (Hxlook : (xs ++ [x]) !! length ps = Some x)
    by (rewrite Hlen'; apply list_lookup_middle; reflexivity).
  pose proof (Hnodes _ p x Hplook Hxlook) as Hn.
  rewrite (lookup_ge_None_2 (ps ++ [p]) (S (length ps))) in Hn
    by (rewrite length_app; simpl; lia).
  unfold LinkedList.gg_list_removeLast. cbv zeta.
  rewrite Htail. destruct (Z.eqb_spec p 0); [congruence |].
  rewrite Hn. cbn [LinkedList.prev].
  eexists. split; [reflexivity |].
  unfold dll.
  cbn [LinkedList.list LinkedList.nodes LinkedList.head LinkedList.tail
       LinkedList.count].
  split; [exact Hlen' |]. split; [exact Hnd |]. split; [exact H0 |].
  destruct (length ps) as [| k] eqn:Ek.
  - destruct ps; [| discriminate]. destruct xs; [| discriminate]. simpl.
    split; [reflexivity |]. split; [reflexivity |].
    split; [rewrite Hcount; simpl; lia |].
    intros i q y Hq. discriminate.
  - destruct (lookup_lt_is_Some_2 ps k) as [pl Hpl]; [lia |].
    destruct (lookup_lt_is_Some_2 xs k) as [xl Hxl]; [lia |].
    assert (Hpl0 : pl <> 0) by exact (dll_elem_nonzero _ _ _ H0 Hpl).
    rewrite lookup_app_l by lia. rewrite Hpl.
    cbn [from_option]; unfold id.
    destruct (Z.eqb_spec pl 0); [contradiction |].
    assert (Hlast : last ps = Some pl).
    { rewrite last_lookup, Ek. exact Hpl. }
    split.
    { rewrite Hhead. destruct ps as [| p0 ps']; [discriminate |]. reflexivity. }
    split; [rewrite Hlast; reflexivity |].
    split; [rewrite Hcount, length_app; simpl length; lia |].
    assert (Hplp : pl <> p).
    { intros ->. apply Hpn. apply list_elem_of_lookup. eauto. }
    assert (Hnl : LinkedList.nodes m pl
                  = Some (LinkedList.Node xl p
                            (match k with
                             | O => 0
                             | S j => default 0 (ps !! j)
                             end))).
    { rewrite (Hnodes k pl xl);
        [| rewrite lookup_app_l by lia; exact Hpl
         | rewrite lookup_app_l by lia; exact Hxl].
      rewrite <- Ek at 1. rewrite list_lookup_middle by reflexivity.
      destruct k as [| j]; [reflexivity |].
      rewrite lookup_app_l by lia. reflexivity. }
    unfold LinkedList.set_next. rewrite Hnl.
    cbn [LinkedList.data LinkedList.prev].
    intros i q y Hq Hy.
    assert (Hi : (i < S k)%nat) by (apply lookup_lt_Some in Hq; lia).
    assert (Hqp : q <> p).
    { intros ->. apply Hpn. apply list_elem_of_lookup. eauto. }
    rewrite free_node_ne by exact Hqp.
    destruct (decide (i = k)) as [-> | Hne].
    + assert (q = pl) by congruence. subst q.
      assert (y = xl) by congruence. subst y.
      rewrite write_node_eq.
      rewrite (lookup_ge_None_2 ps (S k)) by lia. reflexivity.
    + assert (q <> pl).
      { intros ->. apply Hne. apply (NoDup_lookup ps i k pl Hnd Hq Hpl). }
      rewrite write_node_ne by assumption.
      rewrite (Hnodes i q y);
        [| rewrite lookup_app_l by lia; exact Hq
         | rewrite lookup_app_l by lia; exact Hy].
      rewrite lookup_app_l by lia.
      destruct i as [| j]; [reflexivity |].
      rewrite lookup_app_l by lia. reflexivity.
Qed.




Lemma free_set_released m (p q : Z)
    (ns : Z -> option (LinkedList.gg_list_node A)) :
  LinkedList.nodes m p <> None ->
  (ns = LinkedList.nodes m
   \/ exists n, LinkedList.nodes m q <> None /\ q <> p
                /\ ns = LinkedList.write_node q n (LinkedList.nodes m)) ->
  forall a, LinkedList.free_node p ns a = None
            <-> a = p \/ LinkedList.nodes m a = None.
Proof.
  intros Hp Hns a. unfold LinkedList.free_node.
  destruct (Z.eqb_spec a p) as [-> | Hap].
  - split; [left; reflexivity | reflexivity].
  - destruct Hns as [-> | (n & Hq & Hqp & ->)].
    + split; [right; assumption | intros [? | ?]; [contradiction | assumption]].
    + unfold LinkedList.write_node. destruct (Z.eqb_spec a q) as [-> | Haq].
      * split; [discriminate | intros [? | ?]; contradiction].
      * split; [right; assumption
               | intros [? | ?]; [contradiction | assumption]].
Qed.

Lemma removeFirst_released m ps xs (p : Z) (x : A) m1 :
  dll m (p :: ps) (x :: xs) ->
  LinkedList.gg_list_removeFirst m = (1, m1) ->
  released m m1 (LinkedList.head (LinkedList.list m)).
Proof.
  intros Hd Hr.
  pose proof Hd as (Hlen & Hnd & H0 & Hhead & Htail & Hcount & Hnodes).
  assert (Hp0 : p <> 0) by (apply (dll_elem_nonzero _ 0%nat _ H0); reflexivity).
  pose proof (Hnodes 0%nat p x eq_refl eq_refl) as Hn.
  change (default 0 ((p :: ps) !! 0%nat)) with p in Hhead.
  change (default 0 ((p :: ps) !! 1%nat)) with (default 0 (ps !! 0%nat)) in Hn.
  unfold LinkedList.gg_list_removeFirst in Hr. cbv zeta in Hr.
  rewrite Hhead in Hr. destruct (Z.eqb_spec p 0); [contradiction |].
  rewrite Hn in Hr. cbn [LinkedList.next] in Hr.
  injection Hr as <-. rewrite Hhead. unfold released.
  cbn [LinkedList.nodes]. split; [rewrite Hn; discriminate |].
  apply free_set_released with (q := default 0 (ps !! 0%nat));
    [rewrite Hn; discriminate |].
  destruct ps as [| p1 ps']; [left; reflexivity |].
  destruct xs as [| x1 xs']; [discriminate |].
  assert (Hp1 : p1 <> 0).
  { apply (dll_elem_nonzero (p :: p1 :: ps') 1%nat _ H0). reflexivity. }
  change (default 0 ((p1 :: ps') !! 0%nat)) with p1.
  destruct (Z.eqb_spec p1 0); [contradiction |].
  pose proof (Hnodes 1%nat p1 x1 eq_refl eq_refl) as Hn1.
  right. eexists.
  split; [rewrite Hn1; discriminate |].
  split; [| unfold LinkedList.set_prev; rewrite Hn1; reflexivity].
  intros ->. apply NoDup_cons in Hnd as [Hnot _]. apply Hnot. left.
Qed.

Lemma removeLast_released m ps xs (p : Z) (x : A) m2 :
  dll m (ps ++ [p]) (xs ++ [x]) ->
  LinkedList.gg_list_removeLast m = (1, m2) ->
  released m m2 (LinkedList.tail (LinkedList.list m)).
Proof.
  intros Hd Hr.
  pose proof Hd as (Hlen & Hnd & H0 & Hhead & Htail & Hcount & Hnodes).
  rewrite !length_app in Hlen. simpl in Hlen.
  assert (Hlen' : length ps = length xs) by lia.
  apply NoDup_app in Hnd as (Hnd & Hpps & _).
  assert (Hpn : p ∉ ps).
  { intros Hin. apply (Hpps p Hin). left. }
  rewrite not_elem_of_app in H0. destruct H0 as [H0 Hp0].
  rewrite list_elem_of_singleton in Hp0.
  rewrite last_snoc in Htail. simpl in Htail.
  assert (Hplook : (ps ++ [p]) !! length ps = Some p)
    by (apply list_lookup_middle; reflexivity).
  assert (Hxlook : (xs ++ [x]) !! length ps = Some x)
    by (rewrite Hlen'; apply list_lookup_middle; reflexivity).
  pose proof (Hnodes _ p x Hplook Hxlook) as Hn.
  unfold LinkedList.gg_list_removeLast in Hr. cbv zeta in Hr.
  rewrite Htail in Hr. destruct (Z.eqb_spec p 0); [congruence |].
  rewrite Hn in Hr. cbn [LinkedList.prev] in Hr.
  injection Hr as <-. rewrite Htail. unfold released.
  cbn [LinkedList.nodes]. split; [rewrite Hn; discriminate |].
  destruct (length ps) as [| k] eqn:Ek.
  - apply free_set_released with (q := 0);
      [rewrite Hn; discriminate | left; reflexivity].
  - destruct (lookup_lt_is_Some_2 ps k) as [pl Hpl]; [lia |].
    destruct (lookup_lt_is_Some_2 xs k) as [xl Hxl]; [lia |].
    assert (Hpl0 : pl <> 0) by exact (dll_elem_nonzero _ _ _ H0 Hpl).
    rewrite lookup_app_l by lia. rewrite Hpl.
    cbn [from_option]; unfold id.
    destruct (Z.eqb_spec pl 0); [contradiction |].
    assert (Hnl : LinkedList.nodes m pl <> None).
    { rewrite (Hnodes k pl xl);
        [discriminate
        | rewrite lookup_app_l by lia; exact Hpl
        | rewrite lookup_app_l by lia; exact Hxl]. }
    apply free_set_released with (q := pl); [rewrite Hn; discriminate |].
    destruct (LinkedList.nodes m pl) as [nl |] eqn:El; [| contradiction].
    right. eexists. split; [discriminate |].
    split; [| unfold LinkedList.set_next; rewrite El; reflexivity].
    intros ->. apply Hpn. apply list_elem_of_lookup. eauto.
Qed.

(** X18: [gg_list_removeFirst] and [gg_list_removeLast] answer 0 on a list
    without elements and leave the memory as it is; on another list they
    answer 1, take the first and the last element off the list, leaving the
    others in order, and give the node that held it back to the host, and
    no other node. *)
Theorem gg_list_remove_ends m xs :
  list_holds m xs ->
  match xs with
  | [] => LinkedList.gg_list_removeFirst m = (0, m)
          /\ LinkedList.gg_list_removeLast m = (0, m)
  | x :: rest =>
    (exists m1, LinkedList.gg_list_removeFirst m = (1, m1)
                /\ list_holds m1 rest
                /\ released m m1 (LinkedList.head (LinkedList.list m)))
    /\ (exists m2, LinkedList.gg_list_removeLast m = (1, m2)
                   /\ list_holds m2 (removelast xs)
                   /\ released m m2 (LinkedList.tail (LinkedList.list m)))
  end.
Proof.
  intros [ps Hd]. destruct xs as [| x rest].
  - destruct ps; [| destruct Hd as [Hlen _]; discriminate].
    apply remove_empty, Hd.
  - split.
    + destruct ps as [| p ps']; [destruct Hd as [Hlen _]; discriminate |].
      destruct (removeFirst_dll m ps' rest p x Hd) as (m1 & Hr & Hd1).
      exists m1. split; [exact Hr |]. split; [exists ps'; exact Hd1 |].
      apply (removeFirst_released m ps' rest p x m1 Hd Hr).
    + assert (Hx : x :: rest = removelast (x :: rest) ++ [List.last (x :: rest) x])
        by (apply app_removelast_last; discriminate).
      assert (Hp : exists ps' p, ps = ps' ++ [p]).
      { destruct ps as [| p0 ps0]; [destruct Hd as [Hlen _]; discriminate |].
        exists (removelast (p0 :: ps0)), (List.last (p0 :: ps0) p0).
        apply app_removelast_last. discriminate. }
      destruct Hp as (ps' & p & ->).
      rewrite Hx in Hd.
      destruct (removeLast_dll m ps' _ p _ Hd) as (m2 & Hr & Hd2).
      exists m2. split; [exact Hr |]. split; [exists ps'; exact Hd2 |].
      apply (removeLast_released m ps' _ p _ m2 Hd Hr).
Qed.

End ListProps.

Lemma sample_list_holds : list_holds sample_list [10; 20].
Proof.
  exists [4096; 8192]. unfold dll, sample_list.
  cbn [LinkedList.list LinkedList.nodes LinkedList.head LinkedList.tail
       LinkedList.count].
  split; [reflexivity |].
  split.
  { apply NoDup_cons. split; [| apply NoDup_singleton].
    rewrite list_elem_of_singleton. lia. }
  split.
  { rewrite !not_elem_of_cons. split; [lia |]. split; [lia |].
    apply not_elem_of_nil. }
  split; [reflexivity |]. split; [reflexivity |]. split; [reflexivity |].
  intros [| [| i]] p x Hp Hx; simpl in Hp, Hx; try discriminate;
    injection Hp as <-; injection Hx as <-; reflexivity.
Qed.


Lemma gg_list_remove_ends_witness :
  (exists m1, LinkedList.gg_list_removeFirst sample_list = (1, m1)
              /\ list_holds m1 [20]
              /\ released sample_list m1 4096)
  /\ (exists m2, LinkedList.gg_list_removeLast sample_list = (1, m2)
                 /\ list_holds m2 (removelast [10; 20])
                 /\ released sample_list m2 8192).
Proof. apply (gg_list_remove_ends sample_list [10; 20]), sample_list_holds. Defined.
